(** * Fuzzy pairing of ".gifs" folders with video files

    A shallow embedding of the name-matching engine of the two scripts of the
    repository, [main.py] and [upgraded.py]: the name normalizer
    ([extract_core_name]), the similarity signals ([similarity_score], the
    containment bonus, the word overlap), and the two selection strategies
    ([find_best_video_match], [find_videos_by_content_similarity]) with the
    strict-then-relaxed fallback of the callers.

    Modelling decisions.
    - A Python [str] is a list of characters; a character is a code point in
      U+0000..U+00FF (the type [ascii] read as Latin-1), or one of U+0130 and
      U+0307, the one character whose lower-case form has two characters
      and the second of these two.  Characters are classified as CPython
      classifies them ([str.isspace], [str.isalnum], [str.lower], the case
      folding of [re.IGNORECASE]).  Other code points are outside the
      model.
    - A Python [float] is a rational number, and comparisons are exact.  In
      [Main] and [Upgraded] the products, sums and quotients are exact too:
      these are the exact scores, for the properties that rounding leaves
      alone (ranges, bounds, the scores 0 and 1).  In [MainFloat] and
      [UpgradedFloat] every operation returns the rounding [fl] of its exact
      result, as the arithmetic of binary64 does, and [Binary64.round64] is
      that rounding, to nearest and ties to even: these are the scores that
      the scripts compute, for what hangs on the rounded values (ties,
      thresholds, the results of the selectors).
    - [os.path.splitext] is that of [ntpath], the paths of the scripts being
      those of Windows; on a name without path separator, as a listing has
      them, that of [posixpath] gives the same.
    - [re.sub] is a left-to-right scan with one matcher per pattern; the
      matchers follow the patterns of the source token by token.
    - [difflib.SequenceMatcher] is the Python standard library's; the model
      follows [Lib/difflib.py] ([__chain_b], [find_longest_match],
      [get_matching_blocks], [ratio]) with [isjunk = None] and
      [autojunk = True], as the scripts call it.
    - The rest of the scripts ([index_videos], [gather_pairs],
      [perform_deletion] and [main] of [upgraded.py];
      [cleanup_gifs_folders_and_videos], [preview_cleanup] and the block
      that runs [main.py]) is embedded over an abstract file system: the
      calls of [os], [shutil] and [send2trash] are the fields of a record,
      a deleting call gives the next state and may raise, [input] reads the
      next line of a list of lines, and [try]/[except] is a combinator of a
      small state and error monad.  What is printed or logged is not
      modelled; the functions that only print return what they show. *)

From Stdlib Require Import String.
From Stdlib Require Import List Ascii Bool Arith Lia ZArith QArith Lqa Sorted.
Import Init.Datatypes ListNotations.

Local Open Scope nat_scope.
Local Open Scope list_scope.

(** ** Python strings *)

Module Py.

(** A character: a code point of Latin-1, the capital I with dot above
    (U+0130), or the combining dot above (U+0307). *)
Inductive char : Type :=
| Latin1 (a : ascii)
| CapitalIDot
| CombiningDot.

Coercion Latin1 : ascii >-> char.

Definition str : Type := list char.

(** A literal. *)
Definition lit (s : String.string) : str := map Latin1 (String.list_ascii_of_string s).

Arguments lit s%_string.

Definition code (c : char) : nat :=
  match c with
  | Latin1 a => nat_of_ascii a
  | CapitalIDot => 304
  | CombiningDot => 775
  end.

Definition between (lo hi n : nat) : bool := (lo <=? n) && (n <=? hi).

(** [str.isspace] on one character, which is also the class [\s] of [re]
    for a [str] pattern. *)
Definition is_space (c : char) : bool :=
  let n := code c in
  between 9 13 n || between 28 32 n || (n =? 133) || (n =? 160).

(** [str.isalnum] on one character. *)
Definition is_alnum (c : char) : bool :=
  let n := code c in
  between 48 57 n || between 65 90 n || between 97 122 n
  || (n =? 170) || (n =? 178) || (n =? 179) || (n =? 181) || (n =? 185)
  || (n =? 186) || between 188 190 n || between 192 214 n
  || between 216 246 n || between 248 255 n || (n =? 304).

(** The class [\w] of [re] for a [str] pattern: alphanumeric or underscore. *)
Definition is_word (c : char) : bool := is_alnum c || (code c =? 95).

(** The lower-case character of a character, by which [re.IGNORECASE]
    compares. *)
Definition fold_char (c : char) : char :=
  match c with
  | Latin1 a =>
      let n := nat_of_ascii a in
      if between 65 90 n || between 192 214 n || between 216 222 n
      then Latin1 (ascii_of_nat (n + 32)) else c
  | CapitalIDot => Latin1 "i"
  | CombiningDot => c
  end.

Definition fold (s : str) : str := map fold_char s.

(** [str.lower]: the lower-case form of a character, which has two
    characters for the capital I with dot above. *)
Definition lower_char (c : char) : str :=
  match c with
  | CapitalIDot => [Latin1 "i"; CombiningDot]
  | _ => [fold_char c]
  end.

Definition lower (s : str) : str := flat_map lower_char s.

Definition eqc (c d : char) : bool := code c =? code d.

Definition space : char := Latin1 " ".

Definition full_stop : char := Latin1 ".".

Fixpoint eqs (s t : str) : bool :=
  match s, t with
  | [], [] => true
  | c :: s', d :: t' => eqc c d && eqs s' t'
  | _, _ => false
  end.

(** [s.startswith(p)], returning what follows the prefix. *)
Fixpoint strip_prefix (p s : str) : option str :=
  match p, s with
  | [], _ => Some s
  | c :: p', d :: s' => if eqc c d then strip_prefix p' s' else None
  | _ :: _, [] => None
  end.

Definition startswith (s p : str) : bool :=
  match strip_prefix p s with Some _ => true | None => false end.

Definition endswith (s p : str) : bool := startswith (rev s) (rev p).

(** [sub in s]. *)
Fixpoint contains (sub s : str) : bool :=
  startswith s sub || match s with [] => false | _ :: s' => contains sub s' end.

Fixpoint drop_while (f : char -> bool) (s : str) : str :=
  match s with
  | [] => []
  | c :: s' => if f c then drop_while f s' else s
  end.

Fixpoint take_while (f : char -> bool) (s : str) : str :=
  match s with
  | [] => []
  | c :: s' => if f c then c :: take_while f s' else []
  end.

Definition lstrip (s : str) : str := drop_while is_space s.

Fixpoint rstrip (s : str) : str :=
  match s with
  | [] => []
  | c :: s' =>
      match rstrip s' with
      | [] => if is_space c then [] else [c]
      | r => c :: r
      end
  end.

(** [s.strip()]. *)
Definition strip (s : str) : str := rstrip (lstrip s).

(** The maximal runs of characters that are not separators, in order. *)
Fixpoint fields (sep : char -> bool) (s : str) : list str :=
  match s with
  | [] => []
  | c :: s' =>
      if sep c then fields sep s'
      else match s' with
           | [] => [[c]]
           | d :: _ =>
               if sep d then [c] :: fields sep s'
               else match fields sep s' with
                    | r :: rs => (c :: r) :: rs
                    | [] => [[c]]
                    end
           end
  end.

(** [s.split()]. *)
Definition split (s : str) : list str := fields is_space s.

(** [sep.join(ws)]. *)
Fixpoint join (sep : str) (ws : list str) : str :=
  match ws with
  | [] => []
  | [w] => w
  | w :: ws' => w ++ sep ++ join sep ws'
  end.

(** [s.replace(old, new)] for a non-empty [old]: [skip] characters of a match
    found earlier are still to be dropped. *)
Fixpoint replace_from (old new : str) (skip : nat) (s : str) : str :=
  match s with
  | [] => []
  | c :: s' =>
      match skip with
      | S k => replace_from old new k s'
      | O =>
          if startswith s old
          then new ++ replace_from old new (length old - 1) s'
          else c :: replace_from old new 0 s'
      end
  end.

Definition replace (s old new : str) : str := replace_from old new 0 s.

(** [set(ws)] keeps one copy of each word; only sizes of sets are observed. *)
Definition char_dec (c d : char) : {c = d} + {c <> d}.
Proof. decide equality. apply ascii_dec. Defined.

Definition str_dec : forall s t : str, {s = t} + {s <> t} := list_eq_dec char_dec.

Definition set_of (ws : list str) : list str := nodup str_dec ws.

Definition mem (w : str) (A : list str) : bool :=
  if in_dec str_dec w A then true else false.

Definition intersection (A B : list str) : list str := filter (fun w => mem w B) A.

Definition union (A B : list str) : list str := nodup str_dec (A ++ B).

(** [os.path.splitext(p)[0]] ([genericpath._splitext] with the separators of
    [ntpath]): the extension starts at the last dot, unless that dot comes
    before the last separator or only dots lie between the two. *)
Definition is_sep (c : char) : bool := (code c =? 92) || (code c =? 47).

Definition is_dot (c : char) : bool := code c =? 46.

(** What [rev p] looks like before its first dot, when no separator comes
    first: the reversed extension, and the reversed rest after the dot. *)
Fixpoint last_dot (r : str) : option (str * str) :=
  match r with
  | [] => None
  | c :: r' =>
      if is_dot c then Some ([], r')
      else if is_sep c then None
      else match last_dot r' with
           | Some (e, rest) => Some (c :: e, rest)
           | None => None
           end
  end.

Definition splitext_root (p : str) : str :=
  match last_dot (rev p) with
  | Some (_, rest) =>
      (* the file name, from the last separator on, must hold a character
         other than a dot before the last dot *)
      if existsb (fun c => negb (is_dot c)) (take_while (fun c => negb (is_sep c)) rest)
      then rev rest else p
  | None => p
  end.

(** Numbers: [x > y] and [x >= y] on floats, and [len(A)] as a float. *)
Definition gt (x y : Q) : bool := negb (Qle_bool x y).

Definition ge (x y : Q) : bool := Qle_bool y x.

Definition of_nat (n : nat) : Q := inject_Z (Z.of_nat n).

(** [max(x, y, z)]: the first of the largest. *)
Definition max2 (x y : Q) : Q := if gt y x then y else x.

Definition max3 (x y z : Q) : Q := max2 (max2 x y) z.

(** Truth value of an object that is [None] or a string, as [if not v]
    reads it. *)
Definition truthy (v : option str) : bool :=
  match v with
  | Some (_ :: _) => true
  | _ => false
  end.

Definition is_nil {A : Type} (l : list A) : bool :=
  match l with [] => true | _ => false end.

End Py.
(** ** Regular-expression substitution *)

Module Re.
Import Py.

(** [re.sub(pattern, repl, s)] for a pattern that matches no empty string:
    scan [s] from the left; where the pattern matches, emit [repl] and resume
    after the match; elsewhere copy the character.  [m prev s] is the length
    of the match at the current position ([prev] is the character before
    it, for the look-behind of [\b]); [skip] characters of the last match
    are still to be dropped. *)
Fixpoint sub (m : option char -> str -> option nat) (repl : str)
         (prev : option char) (skip : nat) (s : str) {struct s} : str :=
  match s with
  | [] => []
  | c :: s' =>
      match skip with
      | S k => sub m repl (Some c) k s'
      | O =>
          match m prev s with
          | Some (S n) => repl ++ sub m repl (Some c) n s'
          | _ => c :: sub m repl (Some c) 0 s'
          end
      end
  end.

Definition re_sub (m : option char -> str -> option nat) (repl s : str) : str :=
  sub m repl None 0 s.

(** A literal under [re.IGNORECASE]; the literals of the two scripts are
    lower-case letters and digits, which match a character exactly when its
    lower-case character is the literal.  Returns what follows the match. *)
Fixpoint literal_i (p s : str) : option str :=
  match p, s with
  | [], _ => Some s
  | c :: p', d :: s' => if eqc c (fold_char d) then literal_i p' s' else None
  | _ :: _, [] => None
  end.

(** [$]: at the end of the string, or before a newline that ends it. *)
Definition at_end (s : str) : bool :=
  match s with
  | [] => true
  | [c] => code c =? 10
  | _ => false
  end.

(** [\.(e1|e2|...)$] under [re.IGNORECASE]. *)
Definition m_ext (exts : list str) (_ : option char) (s : str) : option nat :=
  match s with
  | c :: s' =>
      if is_dot c then
        match find (fun e => match literal_i e s' with
                             | Some rest => at_end rest
                             | None => false
                             end) exts with
        | Some e => Some (S (length e))
        | None => None
        end
      else None
  | [] => None
  end.

(** [.*?] followed by a closing character: the number of characters that the
    lazy [.*?] takes, none of them a newline. *)
Fixpoint lazy_dots (closing : char -> bool) (s : str) : option nat :=
  match s with
  | [] => None
  | c :: s' =>
      if closing c then Some 0
      else if code c =? 10 then None
      else option_map S (lazy_dots closing s')
  end.

(** [\[.*?\]] and [[\[\(].*?[\]\)]]. *)
Definition m_group (opening closing : char -> bool) (_ : option char) (s : str)
  : option nat :=
  match s with
  | c :: s' =>
      if opening c then option_map (fun n => S (S n)) (lazy_dots closing s')
      else None
  | [] => None
  end.

(** [\b]: exactly one of the two neighbours is a word character. *)
Definition is_word_opt (c : option char) : bool :=
  match c with Some c => is_word c | None => false end.

Definition word_boundary (before after : option char) : bool :=
  xorb (is_word_opt before) (is_word_opt after).

(** [\b(t1|t2|...)\b] under [re.IGNORECASE]. *)
Definition m_terms (terms : list str) (prev : option char) (s : str) : option nat :=
  if word_boundary prev (hd_error s) then
    match find (fun t => match literal_i t s with
                         | Some rest =>
                             word_boundary (nth_error s (length t - 1)) (hd_error rest)
                         | None => false
                         end) terms with
    | Some t => Some (length t)
    | None => None
    end
  else None.

(** [[^\w\s]]. *)
Definition m_punct (_ : option char) (s : str) : option nat :=
  match s with
  | c :: _ => if negb (is_word c || is_space c) then Some 1 else None
  | [] => None
  end.

(** [\s+]. *)
Definition m_spaces (_ : option char) (s : str) : option nat :=
  match length (take_while is_space s) with
  | 0 => None
  | n => Some n
  end.

End Re.

(** ** difflib.SequenceMatcher(None, a, b) *)

Module Difflib.
Import Py.

(** [a[i]]; the code only reads inside the string. *)
Definition at_ (s : str) (i : nat) : char := nth i s (Latin1 Ascii.zero).

(** The positions of [c] in [b], ascending, from position [i] on. *)
Fixpoint indices_from (i : nat) (c : char) (b : str) : list nat :=
  match b with
  | [] => []
  | d :: b' => if eqc c d then i :: indices_from (S i) c b' else indices_from (S i) c b'
  end.

(** [__chain_b]: with [autojunk], a character of a [b] of 200 characters or
    more that occurs more than [len(b) // 100 + 1] times is popular, and is
    deleted from [b2j]. *)
Definition popular (b : str) (c : char) : bool :=
  (200 <=? length b) && (length b / 100 + 1 <? length (indices_from 0 c b)).

(** [b2j.get(c, [])]. *)
Definition b2j (b : str) (c : char) : list nat :=
  if popular b c then [] else indices_from 0 c b.

(** A match [(i, j, k)]: [a[i:i+k] == b[j:j+k]]. *)
Definition block : Type := nat * nat * nat.

(** [j2len]: a dict from positions of [b] to lengths, read with
    [j2len.get(j, 0)]. *)
Definition j2len_t : Type := nat -> nat.

Definition j2len_empty : j2len_t := fun _ => 0.

Definition j2len_set (d : j2len_t) (j k : nat) : j2len_t :=
  fun x => if x =? j then k else d x.

(** [j2len.get(j-1, 0)]: no key is negative. *)
Definition j2len_pred (d : j2len_t) (j : nat) : nat :=
  match j with 0 => 0 | S j' => d j' end.

(** The inner loop of [find_longest_match], over the positions [js] of
    [a[i]] in [b]: [continue] below [blo], [break] from [bhi] on. *)
Fixpoint scan_row (blo bhi i : nat) (j2len : j2len_t) (js : list nat)
         (newj2len : j2len_t) (best : block) : j2len_t * block :=
  match js with
  | [] => (newj2len, best)
  | j :: js' =>
      if j <? blo then scan_row blo bhi i j2len js' newj2len best
      else if bhi <=? j then (newj2len, best)
      else
        let k := j2len_pred j2len j + 1 in
        let '(_, _, bestsize) := best in
        scan_row blo bhi i j2len js' (j2len_set newj2len j k)
                 (if bestsize <? k then (i + 1 - k, j + 1 - k, k) else best)
  end.

(** The outer loop, [for i in range(alo, ahi)], over the list of the [i]. *)
Fixpoint scan_rows (a b : str) (blo bhi : nat) (is_ : list nat)
         (j2len : j2len_t) (best : block) : block :=
  match is_ with
  | [] => best
  | i :: is' =>
      let '(newj2len, best') :=
        scan_row blo bhi i j2len (b2j b (at_ a i)) j2len_empty best in
      scan_rows a b blo bhi is' newj2len best'
  end.

(** The first [while]: extend the match to the left while the characters
    before it agree ([isbjunk] is false everywhere). *)
Fixpoint extend_left (a b : str) (alo blo : nat) (besti bestj bestsize : nat)
         {struct besti} : block :=
  match besti, bestj with
  | S i', S j' =>
      if (alo <? besti) && (blo <? bestj) && eqc (at_ a i') (at_ b j')
      then extend_left a b alo blo i' j' (S bestsize)
      else (besti, bestj, bestsize)
  | _, _ => (besti, bestj, bestsize)
  end.

(** The second [while]: extend it to the right; [n] bounds the number of
    rounds, and [ahi - besti - bestsize] rounds are enough. *)
Fixpoint extend_right (n : nat) (a b : str) (ahi bhi : nat)
         (besti bestj bestsize : nat) : block :=
  match n with
  | 0 => (besti, bestj, bestsize)
  | S n' =>
      if (besti + bestsize <? ahi) && (bestj + bestsize <? bhi)
         && eqc (at_ a (besti + bestsize)) (at_ b (bestj + bestsize))
      then extend_right n' a b ahi bhi besti bestj (S bestsize)
      else (besti, bestj, bestsize)
  end.

Definition find_longest_match (a b : str) (alo ahi blo bhi : nat) : block :=
  let '(besti, bestj, bestsize) :=
    scan_rows a b blo bhi (seq alo (ahi - alo)) j2len_empty (alo, blo, 0) in
  let '(besti, bestj, bestsize) := extend_left a b alo blo besti bestj bestsize in
  extend_right (ahi - (besti + bestsize)) a b ahi bhi besti bestj bestsize.

(** A region [(alo, ahi, blo, bhi)] still to be matched. *)
Definition region : Type := nat * nat * nat * nat.

(** The loop of [get_matching_blocks]: [queue.pop()] takes the region pushed
    last; [n] bounds the number of rounds.  Returns the regions left and the
    blocks found. *)
Fixpoint blocks_loop (n : nat) (a b : str) (queue : list region)
         (matching_blocks : list block) : list region * list block :=
  match n, queue with
  | S n', (alo, ahi, blo, bhi) :: rest =>
      let '(i, j, k) := find_longest_match a b alo ahi blo bhi in
      if k =? 0 then blocks_loop n' a b rest matching_blocks
      else
        let q1 := if (alo <? i) && (blo <? j) then (alo, i, blo, j) :: rest else rest in
        let q2 := if (i + k <? ahi) && (j + k <? bhi)
                  then (i + k, ahi, j + k, bhi) :: q1 else q1 in
        blocks_loop n' a b q2 (matching_blocks ++ [(i, j, k)])
  | _, _ => (queue, matching_blocks)
  end.

(** Rounds enough to empty the queue (see [blocks_loop_empties]). *)
Definition rounds (a : str) : nat := 2 * length a + 1.

Definition get_matching_blocks (a b : str) : list block :=
  snd (blocks_loop (rounds a) a b [(0, length a, 0, length b)] []).

(** [sum(triple[-1] for triple in self.get_matching_blocks())]: sorting the
    blocks, merging adjacent ones and appending the empty block
    [(la, lb, 0)] leave the sum as it is. *)
Definition matches (a b : str) : nat :=
  fold_right (fun t acc => snd t + acc) 0 (get_matching_blocks a b).

(** [_calculate_ratio(matches, length)]. *)
Definition calculate_ratio (m len : nat) : Q :=
  if len =? 0 then 1%Q else (2 * of_nat m / of_nat len)%Q.

Definition ratio (a b : str) : Q :=
  calculate_ratio (matches a b) (length a + length b).

End Difflib.

(** ** main.py *)

Module Main.
Import Py Re.

Definition extensions : list str :=
  [lit "mp4"; lit "avi"; lit "mkv"; lit "mov"; lit "wmv"; lit "flv"; lit "webm";
   lit "m4v"; lit "3gp"; lit "mpeg"; lit "mpg"; lit "ts"; lit "mts"; lit "m2ts";
   lit "vob"; lit "ogv"; lit "divx"; lit "xvid"; lit "gifs"].

Definition common_terms : list str :=
  [lit "official"; lit "trailer"; lit "teaser"; lit "hd"; lit "full"; lit "movie";
   lit "video"; lit "download"; lit "1080p"; lit "720p"; lit "4k"; lit "scene";
   lit "clip"; lit "part"; lit "version"; lit "extended"; lit "director";
   lit "cut"; lit "subtitles"; lit "subs"].

Definition is_open (c : char) : bool := code c =? 91.
Definition is_close (c : char) : bool := code c =? 93.

(** The first three steps of [extract_core_name]: the known extensions, the
    bracketed ids, the common terms. *)
Definition strip_extension (name : str) : str :=
  re_sub (m_ext extensions) [] name.

Definition remove_bracketed (name : str) : str :=
  re_sub (m_group is_open is_close) [] name.

Definition remove_terms (name : str) : str :=
  re_sub (m_terms common_terms) [] name.

Definition extract_core_name (name : str) : str :=
  let name := strip_extension name in
  let name := remove_bracketed name in
  let name := remove_terms name in
  let name := re_sub m_punct (lit " ") name in
  let name := strip (re_sub m_spaces (lit " ") name) in
  lower name.

Local Open Scope Q_scope.

Definition similarity_score (str1 str2 : str) : Q := Difflib.ratio str1 str2.

Definition video_extensions : list str :=
  [lit ".mp4"; lit ".avi"; lit ".mkv"; lit ".mov"; lit ".wmv"; lit ".flv";
   lit ".webm"; lit ".m4v"; lit ".3gp"; lit ".mpeg"; lit ".mpg"; lit ".ts";
   lit ".mts"; lit ".m2ts"; lit ".vob"; lit ".ogv"; lit ".divx"; lit ".xvid"].

(** [any(filename.lower().endswith(ext) for ext in video_extensions)]. *)
Definition is_video (filename : str) : bool :=
  existsb (fun ext => endswith (lower filename) ext) video_extensions.

(** The three signals of [find_best_video_match] and their blend, for the
    cores of the folder and of one file. *)
Definition contains_score (folder_core video_core : str) : Q :=
  if contains folder_core video_core || contains video_core folder_core
  then 0.8 else 0.

Definition word_overlap (folder_core video_core : str) : Q :=
  let folder_words := set_of (split folder_core) in
  let video_words := set_of (split video_core) in
  if negb (is_nil folder_words) && negb (is_nil video_words)
  then of_nat (length (intersection folder_words video_words))
       / of_nat (length (union folder_words video_words))
  else 0.

Definition total_score (folder_core video_core : str) : Q :=
  similarity_score folder_core video_core * 0.5
  + contains_score folder_core video_core * 0.3
  + word_overlap folder_core video_core * 0.2.

Section Matching.

(** [os.path.join(downloads_path, filename)]. *)
Variable path_join : str -> str -> str.

(** The loop of [find_best_video_match] over [os.listdir(downloads_path)]. *)
Fixpoint best_loop (folder_core downloads_path : str) (threshold : Q)
         (listing : list str) (best_match : option str) (best_score : Q)
  : option str * Q :=
  match listing with
  | [] => (best_match, best_score)
  | filename :: rest =>
      if negb (is_video filename)
      then best_loop folder_core downloads_path threshold rest best_match best_score
      else
        let video_core := extract_core_name filename in
        let total := total_score folder_core video_core in
        if gt total best_score && ge total threshold
        then best_loop folder_core downloads_path threshold rest
                       (Some (path_join downloads_path filename)) total
        else best_loop folder_core downloads_path threshold rest best_match best_score
  end.

Definition find_best_video_match (folder_name downloads_path : str)
           (listing : list str) (threshold : Q) : option str * Q :=
  best_loop (extract_core_name folder_name) downloads_path threshold listing None 0.

(** The cleaning of [find_videos_by_content_similarity]. *)
Definition clean_folder_of (folder_name : str) : str :=
  let folder_base := replace folder_name (lit ".gifs") [] in
  let clean_folder := lower (re_sub m_punct (lit " ") folder_base) in
  strip (re_sub m_spaces (lit " ") clean_folder).

Definition clean_video_of (filename : str) : str :=
  let video_base := splitext_root filename in
  let clean_video := remove_bracketed video_base in
  let clean_video := lower (re_sub m_punct (lit " ") clean_video) in
  strip (re_sub m_spaces (lit " ") clean_video).

Definition word_similarity (clean_folder clean_video : str) : Q :=
  let folder_words := set_of (split clean_folder) in
  let video_words := set_of (split clean_video) in
  if negb (is_nil folder_words) && negb (is_nil video_words)
  then of_nat (length (intersection folder_words video_words))
       / of_nat (Nat.max (length folder_words) (length video_words))
  else 0.

Definition combined_score (clean_folder clean_video : str) : Q :=
  let similarity := Difflib.ratio clean_folder clean_video in
  let no_space_similarity :=
    Difflib.ratio (re_sub m_spaces [] clean_folder) (re_sub m_spaces [] clean_video) in
  max3 similarity no_space_similarity (word_similarity clean_folder clean_video).

(** [potential_matches]: the path and score of each file that scores above
    0.6, in listing order. *)
Fixpoint potential_matches (folder_name downloads_path : str) (listing : list str)
  : list (str * Q) :=
  match listing with
  | [] => []
  | filename :: rest =>
      if negb (is_video filename)
      then potential_matches folder_name downloads_path rest
      else
        let score := combined_score (clean_folder_of folder_name)
                                    (clean_video_of filename) in
        if gt score 0.6
        then (path_join downloads_path filename, score)
             :: potential_matches folder_name downloads_path rest
        else potential_matches folder_name downloads_path rest
  end.

(** [max(potential_matches, key=lambda x: x['score'])]: the first of the
    entries with the largest score. *)
Fixpoint max_by_score (best : str * Q) (l : list (str * Q)) : str * Q :=
  match l with
  | [] => best
  | x :: l' => max_by_score (if gt (snd x) (snd best) then x else best) l'
  end.

Definition find_videos_by_content_similarity (folder_name downloads_path : str)
           (listing : list str) : option str * Q :=
  match potential_matches folder_name downloads_path listing with
  | [] => (None, 0)
  | x :: l => let best_match := max_by_score x l in (Some (fst best_match), snd best_match)
  end.

End Matching.

End Main.

(** ** upgraded.py *)

Module Upgraded.
Import Py Re.

Definition extensions : list str :=
  [lit "mp4"; lit "avi"; lit "mkv"; lit "mov"; lit "wmv"; lit "flv"; lit "webm";
   lit "m4v"; lit "3gp"; lit "mpeg"; lit "mpg"; lit "ts"; lit "mts"; lit "m2ts";
   lit "vob"; lit "ogv"; lit "divx"; lit "xvid"; lit "gif"].

Definition common_terms : list str :=
  [lit "official"; lit "trailer"; lit "teaser"; lit "hd"; lit "full"; lit "movie";
   lit "video"; lit "download"; lit "1080p"; lit "720p"; lit "4k"; lit "scene";
   lit "clip"; lit "part"; lit "version"; lit "extended"; lit "director";
   lit "cut"; lit "subtitles"; lit "subs";
   lit "x264"; lit "h264"; lit "hevc"; lit "remux"; lit "bluray"; lit "bdrip"].

Definition is_open (c : char) : bool := (code c =? 91) || (code c =? 40).
Definition is_close (c : char) : bool := (code c =? 93) || (code c =? 41).

(** The first three steps of [extract_core_name]: the known extensions, the
    bracketed ids, the common terms. *)
Definition strip_extension (name : str) : str :=
  re_sub (m_ext extensions) [] name.

Definition remove_bracketed (name : str) : str :=
  re_sub (m_group is_open is_close) (lit " ") name.

Definition remove_terms (name : str) : str :=
  re_sub (m_terms common_terms) (lit " ") name.

Definition extract_core_name (name : str) : str :=
  let name := strip_extension name in
  let name := remove_bracketed name in
  let name := remove_terms name in
  let name := re_sub m_punct (lit " ") name in
  let name := strip (re_sub m_spaces (lit " ") name) in
  lower name.

Local Open Scope Q_scope.

Definition similarity_score (a b : str) : Q :=
  if is_nil a || is_nil b then 0 else Difflib.ratio a b.

(** [video_index]: the dict of [index_videos], file name to full path, in
    insertion order. *)
Definition index : Type := list (str * str).

(** The three signals of [find_best_video_match] and their blend. *)
Definition contains_score (folder_core video_core : str) : Q :=
  if negb (is_nil folder_core) && negb (is_nil video_core)
  then if contains folder_core video_core || contains video_core folder_core
       then 0.8 else 0
  else 0.

Definition word_overlap (folder_core video_core : str) : Q :=
  let folder_words := set_of (split folder_core) in
  let video_words := set_of (split video_core) in
  if negb (is_nil folder_words) && negb (is_nil video_words)
  then of_nat (length (intersection folder_words video_words))
       / of_nat (length (union folder_words video_words))
  else 0.

Definition total_score (folder_core video_core : str) : Q :=
  similarity_score folder_core video_core * 0.5
  + contains_score folder_core video_core * 0.3
  + word_overlap folder_core video_core * 0.2.

(** The loop of [find_best_video_match] over [video_index.items()]. *)
Fixpoint best_loop (folder_core : str) (threshold : Q) (items : index)
         (best_match : option str) (best_score : Q) : option str * Q :=
  match items with
  | [] => (best_match, best_score)
  | (filename, full_path) :: rest =>
      let video_core := extract_core_name filename in
      let total := total_score folder_core video_core in
      if gt total best_score && ge total threshold
      then best_loop folder_core threshold rest (Some full_path) total
      else best_loop folder_core threshold rest best_match best_score
  end.

Definition find_best_video_match (folder_name : str) (video_index : index)
           (threshold : Q) : option str * Q :=
  best_loop (extract_core_name folder_name) threshold video_index None 0.

(** The cleaning of [find_videos_by_content_similarity]. *)
Definition clean_folder_of (folder_name : str) : str :=
  let folder_base := replace folder_name (lit ".gifs") [] in
  let clean_folder := lower (re_sub m_punct (lit " ") folder_base) in
  strip (re_sub m_spaces (lit " ") clean_folder).

Definition clean_video_of (filename : str) : str :=
  let video_base := splitext_root filename in
  let clean_video := remove_bracketed video_base in
  let clean_video := lower (re_sub m_punct (lit " ") clean_video) in
  strip (re_sub m_spaces (lit " ") clean_video).

Definition word_similarity (clean_folder clean_video : str) : Q :=
  let folder_words := set_of (split clean_folder) in
  let video_words := set_of (split clean_video) in
  if negb (is_nil folder_words) && negb (is_nil video_words)
  then of_nat (length (intersection folder_words video_words))
       / of_nat (Nat.max (length folder_words) (length video_words))
  else 0.

Definition combined_score (clean_folder clean_video : str) : Q :=
  let sim_direct := similarity_score clean_folder clean_video in
  let sim_no_space :=
    similarity_score (re_sub m_spaces [] clean_folder) (re_sub m_spaces [] clean_video) in
  max3 sim_direct sim_no_space (word_similarity clean_folder clean_video).

(** [candidates]: score and path of each file that scores [low_threshold] or
    more, in index order. *)
Fixpoint candidates_of (clean_folder : str) (low_threshold : Q) (items : index)
  : list (Q * str) :=
  match items with
  | [] => []
  | (filename, full_path) :: rest =>
      let combined := combined_score clean_folder (clean_video_of filename) in
      if ge combined low_threshold
      then (combined, full_path) :: candidates_of clean_folder low_threshold rest
      else candidates_of clean_folder low_threshold rest
  end.

(** [candidates.sort(reverse=True, key=lambda x: x[0])]: a stable sort,
    largest score first; entries of equal score keep their order. *)
Fixpoint insert_desc (x : Q * str) (l : list (Q * str)) : list (Q * str) :=
  match l with
  | [] => [x]
  | y :: l' => if gt (fst y) (fst x) then y :: insert_desc x l' else x :: l
  end.

Fixpoint sort_desc (l : list (Q * str)) : list (Q * str) :=
  match l with
  | [] => []
  | x :: l' => insert_desc x (sort_desc l')
  end.

Definition find_videos_by_content_similarity (folder_name : str)
           (video_index : index) (low_threshold : Q) : option str * Q :=
  match sort_desc (candidates_of (clean_folder_of folder_name) low_threshold video_index) with
  | [] => (None, 0)
  | (score, full_path) :: _ => (Some full_path, score)
  end.

End Upgraded.

(** ** The specification's notions *)

Module Spec.
Import Py.

Local Open Scope Q_scope.

(** The Jaccard index of two word lists: the number of distinct words that
    occur in both, over the number of distinct words that occur in either;
    0 when either list has no word. *)
Definition jaccard (ws1 ws2 : list str) : Q :=
  if is_nil ws1 || is_nil ws2 then 0
  else of_nat (length (nodup str_dec (filter (fun w => mem w ws2) ws1)))
       / of_nat (length (nodup str_dec (ws1 ++ ws2))).

(** The number of distinct common words over the size of the larger of the
    two sets of distinct words; 0 when either list has no word. *)
Definition common_over_larger (ws1 ws2 : list str) : Q :=
  if is_nil ws1 || is_nil ws2 then 0
  else of_nat (length (nodup str_dec (filter (fun w => mem w ws2) ws1)))
       / of_nat (Nat.max (length (nodup str_dec ws1)) (length (nodup str_dec ws2))).

(** [x] is the first entry of [l] among those of the largest score. *)
Definition first_best {A : Type} (score : A -> Q) (l : list A) (x : A) : Prop :=
  exists pre post,
    l = pre ++ x :: post
    /\ (forall y, In y pre -> score y < score x)
    /\ (forall y, In y post -> score y <= score x).

End Spec.

(** ** Notions used in the proofs *)

Module Aux.
Import Py Re.

(** The normalizer of either script, by its parameters. *)
Definition normalize (exts : list str) (opening closing : char -> bool)
           (grepl : str) (terms : list str) (trepl : str) (name : str) : str :=
  let name := re_sub (m_ext exts) [] name in
  let name := re_sub (m_group opening closing) grepl name in
  let name := re_sub (m_terms terms) trepl name in
  let name := re_sub m_punct (lit " ") name in
  let name := strip (re_sub m_spaces (lit " ") name) in
  lower name.

(** The same with the lower-case character of each character in the last
    step. *)
Definition fold_normalize (exts : list str) (opening closing : char -> bool)
           (grepl : str) (terms : list str) (trepl : str) (name : str) : str :=
  let name := re_sub (m_ext exts) [] name in
  let name := re_sub (m_group opening closing) grepl name in
  let name := re_sub (m_terms terms) trepl name in
  let name := re_sub m_punct (lit " ") name in
  let name := strip (re_sub m_spaces (lit " ") name) in
  fold name.

(** A character whose lower-case form is one character. *)
Definition single_lower (c : char) : Prop := c <> CapitalIDot.

(** The maximal runs of word characters. *)
Definition runs (s : str) : list str := fields (fun c => negb (is_word c)) s.

(** [c] if it is a word character or white space, a space otherwise. *)
Definition punct (c : char) : char :=
  if is_word c || is_space c then c else space.

(** Each run of white space as one space; [in_run]: the scan is inside a
    run whose space is out already. *)
Fixpoint squeeze (in_run : bool) (s : str) : str :=
  match s with
  | [] => []
  | c :: s' =>
      if is_space c then if in_run then squeeze true s' else space :: squeeze true s'
      else c :: squeeze false s'
  end.

Definition starts_nonword (s : str) : bool :=
  match s with
  | c :: _ => negb (is_word c)
  | [] => false
  end.

(** A junk term, whatever the case of its letters. *)
Definition is_term (terms : list str) (r : str) : bool :=
  existsb (fun t => eqs t (fold r)) terms.

(** The last character of [r], or [prev] when [r] is empty. *)
Fixpoint last_char (prev : option char) (r : str) : option char :=
  match r with
  | [] => prev
  | c :: r' => last_char (Some c) r'
  end.

(** The length of the run of characters that are not popular in [a] and
    that ends at position [j] of [a]. *)
Fixpoint diag (a : str) (j : nat) : nat :=
  if Difflib.popular a (Difflib.at_ a j) then 0
  else match j with
       | 0 => 1
       | S j' => diag a j' + 1
       end.

Definition word_str (r : str) : Prop := Forall (fun c => is_word c = true) r.

Definition nonword_str (r : str) : Prop := Forall (fun c => is_word c = false) r.

(** What follows a run: nothing, or a character that is not a word
    character. *)
Definition ends_run (rest : str) : Prop :=
  match rest with
  | [] => True
  | d :: _ => is_word d = false
  end.

(** A core: words of lower-case word characters, none of them a term,
    joined by single spaces. *)
Definition core_words (terms : list str) (ws : list str) : Prop :=
  Forall (fun w => (w <> [] /\ word_str w) /\ fold w = w /\ is_term terms w = false) ws.

(** A check over all the characters, for facts settled by computation. *)
Fixpoint all_latin1_from (n : nat) (f : char -> bool) : bool :=
  match n with
  | 0 => true
  | S n' => f (Latin1 (ascii_of_nat n')) && all_latin1_from n' f
  end.

Definition all_chars_check (f : char -> bool) : bool :=
  all_latin1_from 256 f && f CapitalIDot && f CombiningDot.

Definition word_strb (t : str) : bool := forallb is_word t.

(** A row of [j2len] before row [i] is scanned: a length is no more than
    the rows and columns scanned so far allow. *)
Definition row_ok (alo blo bhi i : nat) (d : Difflib.j2len_t) : Prop :=
  forall x, d x <= i - alo /\ (d x <> 0 -> blo <= x /\ x < bhi /\ d x <= x + 1 - blo).

(** A block inside a region. *)
Definition block_in (alo ahi blo bhi : nat) (t : Difflib.block) : Prop :=
  let '(i, j, k) := t in alo <= i /\ i + k <= ahi /\ blo <= j /\ j + k <= bhi.

(** [diag a (j - 1)], and 0 for the first position. *)
Definition diag_pred (a : str) (j : nat) : nat :=
  match j with
  | 0 => 0
  | S j' => diag a j'
  end.

(** The loop of [find_best_video_match] of either script, by the score and
    the path of an entry. *)
Fixpoint select_loop {X : Type} (score : X -> Q) (loc : X -> str) (threshold : Q)
         (items : list X) (best_match : option str) (best_score : Q)
  : option str * Q :=
  match items with
  | [] => (best_match, best_score)
  | x :: rest =>
      if gt (score x) best_score && ge (score x) threshold
      then select_loop score loc threshold rest (Some (loc x)) (score x)
      else select_loop score loc threshold rest best_match best_score
  end.

(** The strict score of an entry of the index, and of a file of the
    listing. *)
Definition upgraded_strict (folder_name : str) (e : str * str) : Q :=
  Upgraded.total_score (Upgraded.extract_core_name folder_name)
                       (Upgraded.extract_core_name (fst e)).

Definition main_strict (folder_name : str) (filename : str) : Q :=
  Main.total_score (Main.extract_core_name folder_name)
                   (Main.extract_core_name filename).

(** The relaxed score of an entry of the index, and of a file of the
    listing. *)
Definition upgraded_relaxed (folder_name : str) (e : str * str) : Q :=
  Upgraded.combined_score (Upgraded.clean_folder_of folder_name)
                          (Upgraded.clean_video_of (fst e)).

Definition main_relaxed (folder_name : str) (filename : str) : Q :=
  Main.combined_score (Main.clean_folder_of folder_name)
                      (Main.clean_video_of filename).

Definition region_ok (r : Difflib.region) : Prop :=
  let '(alo, ahi, blo, bhi) := r in alo <= ahi /\ blo <= bhi.

(** What a region can still contribute to the number of matches. *)
Definition capacity (r : Difflib.region) : nat :=
  let '(alo, ahi, blo, bhi) := r in Nat.min (ahi - alo) (bhi - blo).

(** A bound on the rounds a region takes. *)
Definition weight (r : Difflib.region) : nat :=
  let '(alo, ahi, _, _) := r in 2 * (ahi - alo) + 1.

Definition total {A : Type} (f : A -> nat) (l : list A) : nat :=
  fold_right (fun x acc => f x + acc) 0 l.

End Aux.

(** ** Names used in the examples *)

Module Examples.
Import Py.

(** A path under a directory. *)
Definition join_slash (d f : str) : str := d ++ lit "/" ++ f.

Definition great_movie_folder : str := lit "Great Movie [2019] 1080p.gifs".

Definition great_movie_file : str := lit "Great_Movie.mp4".

(** The file name "İstanbul.mp4". *)
Definition istanbul_file : str := CapitalIDot :: lit "stanbul.mp4".

(** The eighteen container formats of the specification. *)
Definition containers : list str :=
  [lit "mp4"; lit "avi"; lit "mkv"; lit "mov"; lit "wmv"; lit "flv"; lit "webm";
   lit "m4v"; lit "3gp"; lit "mpeg"; lit "mpg"; lit "ts"; lit "mts"; lit "m2ts";
   lit "vob"; lit "ogv"; lit "divx"; lit "xvid"].

(** Two files that tie. *)
Definition show_index : Upgraded.index :=
  [(lit "show a.mp4", lit "D/show a.mp4"); (lit "show b.mp4", lit "D/show b.mp4")].

(** Two files that share nothing with the folder "x.gifs". *)
Definition yz_index : Upgraded.index :=
  [(lit "y.mp4", lit "D/y.mp4"); (lit "z.mp4", lit "D/z.mp4")].

End Examples.


(** ** The operating system, the console and the rest of Python *)

Module Sys.
Import Py.

(** [str.upper], as code points: the upper-case forms of U+00B5 and U+00FF
    are U+039C and U+0178, that of U+00DF is "SS". *)
Definition upper_char (c : char) : list nat :=
  let n := code c in
  if between 97 122 n || between 224 246 n || between 248 254 n then [n - 32]
  else if n =? 181 then [924]
  else if n =? 223 then [83; 83]
  else if n =? 255 then [376]
  else [n].

Definition upper (s : str) : list nat := flat_map upper_char s.

(** [s.upper() == 'YES']. *)
Definition upper_is_yes (s : str) : bool :=
  if list_eq_dec Nat.eq_dec (upper s) (map code (lit "YES")) then true else false.

(** [d[k] = v] on a dict, which keeps its keys in insertion order: the value
    of a key that is there is replaced in place, a new key goes last. *)
Fixpoint dict_set (d : list (str * str)) (k v : str) : list (str * str) :=
  match d with
  | [] => [(k, v)]
  | (k', v') :: d' =>
      if eqs k' k then (k', v) :: d' else (k', v') :: dict_set d' k v
  end.

(** What a call comes to: a value, or an exception of class [Exception]
    ([OSError] from the file system, [EOFError] from [input]). *)
Inductive result (A : Type) : Type :=
| Returned (v : A)
| Raised.

Arguments Returned {A} v.
Arguments Raised {A}.

(** The calls that the scripts make of [os], [os.path], [shutil],
    [send2trash] and [logging.basicConfig], over a state [World] of the file
    system that is kept abstract.  [listdir] is [None] when the call raises;
    a call that deletes, and the call that opens the log, gives the next
    state and whether it returned ([true]) or raised ([false]).  What is
    written to the console and to the log is not part of the state. *)
Record system (World : Type) : Type := {
  listdir : str -> World -> option (list str);
  path_exists : str -> World -> bool;
  isdir : str -> World -> bool;
  isfile : str -> World -> bool;
  path_join : str -> str -> str;
  basename : str -> str;
  rmtree : str -> World -> World * bool;
  remove : str -> World -> World * bool;
  send2trash : str -> World -> World * bool;
  SEND_TO_TRASH_AVAILABLE : bool;
  setup_logging : str -> World -> World * bool
}.

Arguments listdir {World} _ _ _.
Arguments path_exists {World} _ _ _.
Arguments isdir {World} _ _ _.
Arguments isfile {World} _ _ _.
Arguments path_join {World} _ _ _.
Arguments basename {World} _ _.
Arguments rmtree {World} _ _ _.
Arguments remove {World} _ _ _.
Arguments send2trash {World} _ _ _.
Arguments SEND_TO_TRASH_AVAILABLE {World} _.
Arguments setup_logging {World} _ _ _.

(** The state of a run: the file system, and the lines still to be read
    from the standard input. *)
Record state (World : Type) : Type := {
  world : World;
  stdin : list str
}.

Arguments world {World} _.
Arguments stdin {World} _.

Section Monad.

Context {World : Type}.

(** A computation that reads and changes the state and returns or raises. *)
Definition M (A : Type) : Type := state World -> state World * result A.

Definition ret {A : Type} (v : A) : M A := fun st => (st, Returned v).

Definition bind {A B : Type} (m : M A) (k : A -> M B) : M B :=
  fun st =>
    match m st with
    | (st', Returned v) => k v st'
    | (st', Raised) => (st', Raised)
    end.

(** [try: body except Exception: handler]. *)
Definition try_except {A : Type} (body handler : M A) : M A :=
  fun st =>
    match body st with
    | (st', Raised) => handler st'
    | r => r
    end.

(** A call that only looks at the file system. *)
Definition read {A : Type} (f : World -> A) : M A :=
  fun st => (st, Returned (f (world st))).

(** A call that changes it. *)
Definition call (f : World -> World * bool) : M unit :=
  fun st =>
    let '(w, returned) := f (world st) in
    ({| world := w; stdin := stdin st |}, if returned then Returned tt else Raised).

(** [os.listdir(path)]. *)
Definition os_listdir (sys : system World) (path : str) : M (list str) :=
  fun st =>
    (st, match listdir sys path (world st) with
         | Some entries => Returned entries
         | None => Raised
         end).

(** [input(prompt)]: the next line of the standard input, without its
    newline; [EOFError] when there is none. *)
Definition input : M str :=
  fun st =>
    match stdin st with
    | [] => (st, Raised)
    | line :: rest => ({| world := world st; stdin := rest |}, Returned line)
    end.

End Monad.

Declare Scope sys_scope.
Delimit Scope sys_scope with sys.

Notation "x <- m ;; k" := (bind m (fun x => k))
  (at level 61, m at next level, right associativity) : sys_scope.

Local Open Scope sys_scope.

(** [for x in l: f(x)]. *)
Fixpoint for_each {World A : Type} (f : A -> M (World := World) unit) (l : list A)
  : M unit :=
  match l with
  | [] => ret tt
  | x :: l' => _ <- f x ;; for_each f l'
  end.

End Sys.

(** ** main.py: the cleanup *)

Module MainScript.
Import Py Sys.

Local Open Scope sys_scope.

Definition target_directory : str := lit "C:\Users\harip\ALL TEST".

Definition downloads_directory : str := lit "D:\downloads".

(** An entry of [deletion_pairs] in [cleanup_gifs_folders_and_videos]. *)
Record pair : Type := {
  folder : str;
  folder_path : str;
  video_file : str;
  video_name : str;
  similarity_score : Q
}.

(** An entry of [deletion_pairs] in [preview_cleanup]. *)
Record preview_pair : Type := {
  preview_folder : str;
  preview_video_name : str;
  preview_score : Q
}.

Section Run.

Context {World : Type}.
Variable sys : system World.

(** The two matchers list the downloads directory themselves. *)
Definition find_best_video_match (folder_name downloads_path : str) (threshold : Q)
  : M (option str * Q) :=
  listing <- os_listdir sys downloads_path ;;
  ret (Main.find_best_video_match (path_join sys) folder_name downloads_path
         listing threshold).

Definition find_videos_by_content_similarity (folder_name downloads_path : str)
  : M (option str * Q) :=
  listing <- os_listdir sys downloads_path ;;
  ret (Main.find_videos_by_content_similarity (path_join sys) folder_name
         downloads_path listing).

(** [debug_matching] lists the directory, calls the first matcher and
    prints. *)
Definition debug_matching (folder_name downloads_path : str) : M unit :=
  _ <- os_listdir sys downloads_path ;;
  _ <- find_best_video_match folder_name downloads_path 0.1%Q ;;
  ret tt.

(** [gifs_folders]: the directories of the listing whose name ends with
    ".gifs". *)
Definition gifs_folders_of (all_items : list str) (w : World) : list str :=
  filter (fun item =>
            isdir sys (path_join sys target_directory item) w
            && endswith item (lit ".gifs"))
         all_items.

(** The loop of [cleanup_gifs_folders_and_videos] that fills
    [deletion_pairs]. *)
Fixpoint pairs_loop (gifs_folders : list str) (deletion_pairs : list pair)
  : M (list pair) :=
  match gifs_folders with
  | [] => ret deletion_pairs
  | folder :: rest =>
      r <- find_best_video_match folder downloads_directory 0.65%Q ;;
      r <- (if negb (truthy (fst r))
            then find_videos_by_content_similarity folder downloads_directory
            else ret r) ;;
      match fst r with
      | Some video_file =>
          there <- read (path_exists sys video_file) ;;
          if truthy (fst r) && there
          then pairs_loop rest
                 (deletion_pairs
                  ++ [{| folder := folder;
                         folder_path := path_join sys target_directory folder;
                         video_file := video_file;
                         video_name := basename sys video_file;
                         similarity_score := snd r |}])
          else pairs_loop rest deletion_pairs
      | None => pairs_loop rest deletion_pairs
      end
  end.

(** The loop that deletes: the video of a pair is left alone when the
    folder could not be deleted. *)
Fixpoint deletion_loop (deletion_pairs : list pair)
         (deleted_folder_count deleted_video_count : nat) : M (nat * nat) :=
  match deletion_pairs with
  | [] => ret (deleted_folder_count, deleted_video_count)
  | pair :: rest =>
      deleted <- try_except (_ <- call (rmtree sys (folder_path pair)) ;; ret true)
                            (ret false) ;;
      if deleted
      then
        deleted_video_count <-
          try_except (_ <- call (remove sys (video_file pair)) ;;
                      ret (S deleted_video_count))
                     (ret deleted_video_count) ;;
        deletion_loop rest (S deleted_folder_count) deleted_video_count
      else deletion_loop rest deleted_folder_count deleted_video_count
  end.

Definition cleanup_gifs_folders_and_videos : M (nat * nat) :=
  there <- read (path_exists sys target_directory) ;;
  if negb there then ret (0, 0)
  else
    there <- read (path_exists sys downloads_directory) ;;
    if negb there then ret (0, 0)
    else
      try_except
        (all_items <- os_listdir sys target_directory ;;
         gifs_folders <- read (gifs_folders_of all_items) ;;
         deletion_pairs <- pairs_loop gifs_folders [] ;;
         if length deletion_pairs =? 0
         then
           _ <- for_each (fun folder => debug_matching folder downloads_directory)
                         (firstn 3 gifs_folders) ;;
           ret (0, 0)
         else
           confirmation <- input ;;
           if upper_is_yes (strip confirmation)
           then deletion_loop deletion_pairs 0 0
           else ret (0, 0))
        (ret (0, 0)).

(** The loop of [preview_cleanup] that fills [deletion_pairs] and
    [folders_without_videos]. *)
Fixpoint preview_loop (gifs_folders : list str) (deletion_pairs : list preview_pair)
         (folders_without_videos : list str) : M (list preview_pair * list str) :=
  match gifs_folders with
  | [] => ret (deletion_pairs, folders_without_videos)
  | folder :: rest =>
      r <- find_best_video_match folder downloads_directory 0.65%Q ;;
      r <- (if negb (truthy (fst r))
            then find_videos_by_content_similarity folder downloads_directory
            else ret r) ;;
      match fst r with
      | Some video_file =>
          there <- read (path_exists sys video_file) ;;
          if truthy (fst r) && there
          then preview_loop rest
                 (deletion_pairs
                  ++ [{| preview_folder := folder;
                         preview_video_name := basename sys video_file;
                         preview_score := snd r |}])
                 folders_without_videos
          else preview_loop rest deletion_pairs (folders_without_videos ++ [folder])
      | None => preview_loop rest deletion_pairs (folders_without_videos ++ [folder])
      end
  end.

(** [preview_cleanup] prints and returns nothing: the model returns the two
    lists that it prints, [deletion_pairs] and [folders_without_videos], and
    [None] when it prints an error in their place. *)
Definition preview_cleanup : M (option (list preview_pair * list str)) :=
  there <- read (path_exists sys target_directory) ;;
  if negb there then ret None
  else
    there <- read (path_exists sys downloads_directory) ;;
    if negb there then ret None
    else
      try_except
        (all_items <- os_listdir sys target_directory ;;
         gifs_folders <- read (gifs_folders_of all_items) ;;
         lists <- preview_loop gifs_folders [] [] ;;
         ret (Some lists))
        (ret None).

(** The block that runs the script: it asks whether to preview, then cleans
    up; the model returns the two counts of the summary that it prints. *)
Definition program : M (nat * nat) :=
  preview <- input ;;
  let preview := lower (strip preview) in
  _ <- (if eqs preview (lit "y") || eqs preview (lit "yes")
        then _ <- preview_cleanup ;; ret tt
        else ret tt) ;;
  cleanup_gifs_folders_and_videos.

End Run.

End MainScript.

(** ** upgraded.py: the index, the pairs, the deletion *)

Module UpgradedScript.
Import Py Sys.

Local Open Scope sys_scope.

Definition VIDEO_EXTS : list str :=
  [lit ".mp4"; lit ".avi"; lit ".mkv"; lit ".mov"; lit ".wmv"; lit ".flv";
   lit ".webm"; lit ".m4v"; lit ".3gp"; lit ".mpeg"; lit ".mpg"; lit ".ts";
   lit ".mts"; lit ".m2ts"; lit ".vob"; lit ".ogv"; lit ".divx"; lit ".xvid"].

(** [any(entry.lower().endswith(ext) for ext in VIDEO_EXTS)]. *)
Definition is_video (entry : str) : bool :=
  existsb (fun ext => endswith (lower entry) ext) VIDEO_EXTS.

(** An entry of [pairs]. *)
Record pair : Type := {
  folder : str;
  folder_path : str;
  video_file : str;
  video_name : str;
  score : Q
}.

(** What [parse_args] returns. *)
Record args : Type := {
  target : str;
  downloads : str;
  threshold : Q;
  dry_run : bool;
  yes : bool;
  no_trash : bool;
  log : str
}.

Section Run.

Context {World : Type}.
Variable sys : system World.

(** [index_videos]: the only call that can raise is [os.listdir], before the
    first entry, and the index is returned as it is then, empty. *)
Definition index_videos (downloads_path : str) (w : World) : Upgraded.index :=
  match listdir sys downloads_path w with
  | None => []
  | Some entries =>
      fold_left (fun index entry =>
                   let full := path_join sys downloads_path entry in
                   if isfile sys full w && is_video entry
                   then dict_set index entry full
                   else index)
                entries []
  end.

(** The body of the loop of [gather_pairs]. *)
Definition gather_item (target_directory : str) (video_index : Upgraded.index)
           (threshold : Q) (w : World) (pairs : list pair) (item : str) : list pair :=
  let item_path := path_join sys target_directory item in
  if isdir sys item_path w && endswith (lower item) (lit ".gifs")
  then
    let r := Upgraded.find_best_video_match item video_index threshold in
    let r := if negb (truthy (fst r))
             then Upgraded.find_videos_by_content_similarity item video_index
                    (threshold - 0.05)%Q
             else r in
    match fst r with
    | Some video_file =>
        if truthy (fst r) && path_exists sys video_file w
        then pairs ++ [{| folder := item;
                          folder_path := item_path;
                          video_file := video_file;
                          video_name := basename sys video_file;
                          score := snd r |}]
        else pairs
    | None => pairs
    end
  else pairs.

(** [gather_pairs]: as in [index_videos], the only call that can raise is
    [os.listdir], before the first item. *)
Definition gather_pairs (target_directory downloads_directory : str) (threshold : Q)
           (w : World) : list pair :=
  let video_index := index_videos downloads_directory w in
  if negb (isdir sys target_directory w) then []
  else
    match listdir sys target_directory w with
    | None => []
    | Some items =>
        fold_left (gather_item target_directory video_index threshold w) items []
    end.

(** The loop of [perform_deletion]. *)
Fixpoint deletion_loop (dry_run use_trash : bool) (pairs : list pair)
         (folders_deleted videos_deleted : nat) : M (nat * nat) :=
  match pairs with
  | [] => ret (folders_deleted, videos_deleted)
  | pair :: rest =>
      folders_deleted <-
        try_except
          (if dry_run then ret folders_deleted
           else
             _ <- (if use_trash && SEND_TO_TRASH_AVAILABLE sys
                   then call (send2trash sys (folder_path pair))
                   else call (rmtree sys (folder_path pair))) ;;
             ret (S folders_deleted))
          (ret folders_deleted) ;;
      videos_deleted <-
        try_except
          (if dry_run then ret videos_deleted
           else
             _ <- (if use_trash && SEND_TO_TRASH_AVAILABLE sys
                   then call (send2trash sys (video_file pair))
                   else call (remove sys (video_file pair))) ;;
             ret (S videos_deleted))
          (ret videos_deleted) ;;
      deletion_loop dry_run use_trash rest folders_deleted videos_deleted
  end.

Definition perform_deletion (pairs : list pair) (dry_run use_trash auto_confirm : bool)
  : M (nat * nat) :=
  if is_nil pairs then ret (0, 0)
  else
    proceed <-
      (if negb dry_run && negb auto_confirm
       then confirm <- input ;; ret (upper_is_yes (strip confirm))
       else ret true) ;;
    if proceed then deletion_loop dry_run use_trash pairs 0 0
    else ret (0, 0).

(** [debug_matching] builds the index and prints. *)
Definition debug_matching (folder_name downloads_directory : str) : M unit :=
  _ <- read (index_videos downloads_directory) ;;
  ret tt.

(** [main], from the arguments that [parse_args] returns; it returns
    nothing, and the model returns the two counts of the summary that it
    prints, [None] when it returns before. *)
Definition main (a : args) : M (option (nat * nat)) :=
  _ <- call (setup_logging sys (log a)) ;;
  there <- read (isdir sys (target a)) ;;
  if negb there then ret None
  else
    there <- read (isdir sys (downloads a)) ;;
    if negb there then ret None
    else
      pairs <- read (gather_pairs (target a) (downloads a) (threshold a)) ;;
      if is_nil pairs
      then
        items <- os_listdir sys (target a) ;;
        sample_folders <-
          read (fun w =>
                  firstn 3
                    (filter (fun f =>
                               isdir sys (path_join sys (target a) f) w
                               && endswith (lower f) (lit ".gifs"))
                            items)) ;;
        _ <- for_each (fun f => debug_matching f (downloads a)) sample_folders ;;
        ret None
      else
        counts <- perform_deletion pairs (dry_run a)
                    (negb (no_trash a) && SEND_TO_TRASH_AVAILABLE sys) (yes a) ;;
        ret (Some counts).

End Run.

End UpgradedScript.

(** ** Notions used in the proofs about the scripts *)

Module ScriptAux.
Import Py Sys.

(** What [preview_cleanup] shows of an entry of the [deletion_pairs] of
    [cleanup_gifs_folders_and_videos]. *)
Definition shown (p : MainScript.pair) : MainScript.preview_pair :=
  {| MainScript.preview_folder := MainScript.folder p;
     MainScript.preview_video_name := MainScript.video_name p;
     MainScript.preview_score := MainScript.similarity_score p |}.

(** What the loop of [find_best_video_match] holds after the entries
    [seen]: the first of the best of them, if its score is positive and
    reaches the threshold, and nothing otherwise. *)
Definition held {X : Type} (score : X -> Q) (loc : X -> str) (threshold : Q)
           (seen : list X) (r : option str * Q) : Prop :=
  match r with
  | (Some p, s) =>
      exists x, Spec.first_best score seen x /\ p = loc x /\ s = score x
                /\ (0 < s)%Q /\ (threshold <= s)%Q
  | (None, s) =>
      s = 0%Q /\ forall x, In x seen -> (score x <= 0)%Q \/ (score x < threshold)%Q
  end.

(** The first line of the standard input is not a confirmation: there is
    none, or it is not "YES" once stripped and put in upper case. *)
Definition no_consent (lines : list str) : bool :=
  match lines with
  | [] => true
  | line :: _ => negb (upper_is_yes (strip line))
  end.

End ScriptAux.

(** ** A small file system for the examples *)

Module Disk.
Import Py Sys.

(** The paths of the directories and of the files. *)
Definition disk : Type := list str * list str.

Definition backslash : str := [Latin1 (ascii_of_nat 92)].

Definition join_backslash (d f : str) : str := d ++ backslash ++ f.

(** The name of [p] if [p] lies in the directory [d]. *)
Definition child_of (d p : str) : option str :=
  match strip_prefix (d ++ backslash) p with
  | Some name => if existsb is_sep name || is_nil name then None else Some name
  | None => None
  end.

Fixpoint children_of (d : str) (paths : list str) : list str :=
  match paths with
  | [] => []
  | p :: paths' =>
      match child_of d p with
      | Some name => name :: children_of d paths'
      | None => children_of d paths'
      end
  end.

(** What follows the last separator. *)
Definition base_of (p : str) : str :=
  rev (take_while (fun c => negb (is_sep c)) (rev p)).

Definition under (d p : str) : bool := eqs d p || startswith p (d ++ backslash).

Definition drive : system disk := {|
  listdir := fun d w =>
    if mem d (fst w) then Some (children_of d (fst w ++ snd w)) else None;
  path_exists := fun p w => mem p (fst w) || mem p (snd w);
  isdir := fun p w => mem p (fst w);
  isfile := fun p w => mem p (snd w);
  path_join := join_backslash;
  basename := base_of;
  rmtree := fun p w =>
    if mem p (fst w)
    then ((filter (fun q => negb (under p q)) (fst w),
           filter (fun q => negb (under p q)) (snd w)), true)
    else (w, false);
  remove := fun p w =>
    if mem p (snd w)
    then ((fst w, filter (fun q => negb (eqs p q)) (snd w)), true)
    else (w, false);
  send2trash := fun p w =>
    if mem p (fst w) || mem p (snd w)
    then ((filter (fun q => negb (under p q)) (fst w),
           filter (fun q => negb (under p q)) (snd w)), true)
    else (w, false);
  SEND_TO_TRASH_AVAILABLE := false;
  setup_logging := fun _ w => (w, true)
|}.

(** The two directories of [main.py], a folder "show.gifs" and the video
    "show.mp4". *)
Definition shelf : disk :=
  ([MainScript.target_directory; MainScript.downloads_directory;
    join_backslash MainScript.target_directory (lit "show.gifs")],
   [join_backslash MainScript.downloads_directory (lit "show.mp4");
    join_backslash MainScript.downloads_directory (lit "notes.txt")]).

(** The pair of the folder and the video, as [gather_pairs] has it. *)
Definition show_pair : UpgradedScript.pair :=
  {| UpgradedScript.folder := lit "show.gifs";
     UpgradedScript.folder_path :=
       join_backslash MainScript.target_directory (lit "show.gifs");
     UpgradedScript.video_file :=
       join_backslash MainScript.downloads_directory (lit "show.mp4");
     UpgradedScript.video_name := lit "show.mp4";
     UpgradedScript.score := 1 |}.

(** The arguments of a dry run on the two directories. *)
Definition dry_args : UpgradedScript.args :=
  {| UpgradedScript.target := MainScript.target_directory;
     UpgradedScript.downloads := MainScript.downloads_directory;
     UpgradedScript.threshold := 0.65;
     UpgradedScript.dry_run := true;
     UpgradedScript.yes := true;
     UpgradedScript.no_trash := false;
     UpgradedScript.log := lit "clean_pairs.log" |}.

End Disk.

(** ** binary64 *)

Module Binary64.

Local Open Scope Z_scope.

(** The exponent of a positive [n / d]: the [e] with
    [2 ^ e <= n / d < 2 ^ (e + 1)]. *)
Definition exponent (n d : Z) : Z :=
  let e0 := Z.log2 n - Z.log2 d in
  let below := if 0 <=? e0 then n <? d * 2 ^ e0 else n * 2 ^ (- e0) <? d in
  if below then e0 - 1 else e0.

(** The integer nearest to [a / b], the even one of the two on a tie. *)
Definition nearest_even (a b : Z) : Z :=
  let q := a / b in
  let r := a mod b in
  match 2 * r ?= b with
  | Lt => q
  | Gt => q + 1
  | Eq => if Z.even q then q else q + 1
  end.

(** A positive [n / d] to the nearest number with a significand of 53 bits,
    in lowest terms; the exponents of the scores stay far inside the range
    of binary64. *)
Definition round_pos (n d : Z) : Q :=
  let e := exponent n d in
  let s := 52 - e in
  let m := if 0 <=? s then nearest_even (n * 2 ^ s) d
           else nearest_even n (d * 2 ^ (- s)) in
  Qred (if 0 <=? s then Qmake m (Z.to_pos (2 ^ s)) else Qmake (m * 2 ^ (- s)) 1).

(** The float nearest to [x], ties to even. *)
Definition round64 (x : Q) : Q :=
  match Qnum x with
  | Z0 => 0%Q
  | Zpos n => round_pos (Zpos n) (Zpos (Qden x))
  | Zneg n => Qopp (round_pos (Zpos n) (Zpos (Qden x)))
  end.

End Binary64.

(** ** The scores as floats

    A float is a rational number, and an operation on floats returns the
    rounding [fl] of its exact result; comparisons are exact.  With
    [Binary64.round64] for [fl] the definitions below compute what the
    scripts compute; with the identity for [fl] they are the exact scores
    of [Main] and [Upgraded]. *)

Module Float.
Import Py.

Local Open Scope Q_scope.

Section Rounded.

Variable fl : Q -> Q.

(** [int / int]: the rounding of the exact quotient. *)
Definition int_div (n m : nat) : Q := fl (of_nat n / of_nat m).

(** [_calculate_ratio(matches, length)]: [2.0 * matches / length], and
    [1.0] when [length] is 0. *)
Definition calculate_ratio (m len : nat) : Q :=
  if (len =? 0)%nat then 1
  else fl (fl (2 * fl (of_nat m)) / fl (of_nat len)).

Definition ratio (a b : str) : Q :=
  calculate_ratio (Difflib.matches a b) (length a + length b).

(** [(score1 * 0.5) + (contains_score * 0.3) + (word_overlap * 0.2)]. *)
Definition blend (score1 contains_score word_overlap : Q) : Q :=
  fl (fl (fl (score1 * fl 0.5) + fl (contains_score * fl 0.3))
      + fl (word_overlap * fl 0.2)).

End Rounded.

End Float.

(** ** main.py, with floats *)

Module MainFloat.
Import Py Re.

Local Open Scope Q_scope.

Section Rounded.

Variable fl : Q -> Q.

Definition similarity_score (str1 str2 : str) : Q := Float.ratio fl str1 str2.

Definition contains_score (folder_core video_core : str) : Q :=
  if contains folder_core video_core || contains video_core folder_core
  then fl 0.8 else 0.

Definition word_overlap (folder_core video_core : str) : Q :=
  let folder_words := set_of (split folder_core) in
  let video_words := set_of (split video_core) in
  if negb (is_nil folder_words) && negb (is_nil video_words)
  then Float.int_div fl (length (intersection folder_words video_words))
                        (length (union folder_words video_words))
  else 0.

Definition total_score (folder_core video_core : str) : Q :=
  Float.blend fl (similarity_score folder_core video_core)
                 (contains_score folder_core video_core)
                 (word_overlap folder_core video_core).

(** [os.path.join(downloads_path, filename)]. *)
Variable path_join : str -> str -> str.

(** The loop of [find_best_video_match] over [os.listdir(downloads_path)]. *)
Fixpoint best_loop (folder_core downloads_path : str) (threshold : Q)
         (listing : list str) (best_match : option str) (best_score : Q)
  : option str * Q :=
  match listing with
  | [] => (best_match, best_score)
  | filename :: rest =>
      if negb (Main.is_video filename)
      then best_loop folder_core downloads_path threshold rest best_match best_score
      else
        let video_core := Main.extract_core_name filename in
        let total := total_score folder_core video_core in
        if gt total best_score && ge total threshold
        then best_loop folder_core downloads_path threshold rest
                       (Some (path_join downloads_path filename)) total
        else best_loop folder_core downloads_path threshold rest best_match best_score
  end.

Definition find_best_video_match (folder_name downloads_path : str)
           (listing : list str) (threshold : Q) : option str * Q :=
  best_loop (Main.extract_core_name folder_name) downloads_path threshold listing None 0.

Definition word_similarity (clean_folder clean_video : str) : Q :=
  let folder_words := set_of (split clean_folder) in
  let video_words := set_of (split clean_video) in
  if negb (is_nil folder_words) && negb (is_nil video_words)
  then Float.int_div fl (length (intersection folder_words video_words))
                        (Nat.max (length folder_words) (length video_words))
  else 0.

Definition combined_score (clean_folder clean_video : str) : Q :=
  let similarity := Float.ratio fl clean_folder clean_video in
  let no_space_similarity :=
    Float.ratio fl (re_sub m_spaces [] clean_folder) (re_sub m_spaces [] clean_video) in
  max3 similarity no_space_similarity (word_similarity clean_folder clean_video).

(** [potential_matches]: the path and score of each file that scores above
    0.6, in listing order. *)
Fixpoint potential_matches (folder_name downloads_path : str) (listing : list str)
  : list (str * Q) :=
  match listing with
  | [] => []
  | filename :: rest =>
      if negb (Main.is_video filename)
      then potential_matches folder_name downloads_path rest
      else
        let score := combined_score (Main.clean_folder_of folder_name)
                                    (Main.clean_video_of filename) in
        if gt score (fl 0.6)
        then (path_join downloads_path filename, score)
             :: potential_matches folder_name downloads_path rest
        else potential_matches folder_name downloads_path rest
  end.

Definition find_videos_by_content_similarity (folder_name downloads_path : str)
           (listing : list str) : option str * Q :=
  match potential_matches folder_name downloads_path listing with
  | [] => (None, 0)
  | x :: l =>
      let best_match := Main.max_by_score x l in (Some (fst best_match), snd best_match)
  end.

(** The two calls of [cleanup_gifs_folders_and_videos] and [preview_cleanup]
    for one folder: the main algorithm at threshold 0.65, then the
    alternative one. *)
Definition match_folder (folder downloads_directory : str) (listing : list str)
  : option str * Q :=
  let '(video_file, score) :=
    find_best_video_match folder downloads_directory listing (fl 0.65) in
  if negb (truthy video_file)
  then find_videos_by_content_similarity folder downloads_directory listing
  else (video_file, score).

(** The strict and the relaxed score of a file of the listing. *)
Definition strict (folder_name filename : str) : Q :=
  total_score (Main.extract_core_name folder_name) (Main.extract_core_name filename).

Definition relaxed (folder_name filename : str) : Q :=
  combined_score (Main.clean_folder_of folder_name) (Main.clean_video_of filename).

End Rounded.

End MainFloat.

(** ** upgraded.py, with floats *)

Module UpgradedFloat.
Import Py Re.

Local Open Scope Q_scope.

Section Rounded.

Variable fl : Q -> Q.

Definition similarity_score (a b : str) : Q :=
  if is_nil a || is_nil b then 0 else Float.ratio fl a b.

Definition contains_score (folder_core video_core : str) : Q :=
  if negb (is_nil folder_core) && negb (is_nil video_core)
  then if contains folder_core video_core || contains video_core folder_core
       then fl 0.8 else 0
  else 0.

Definition word_overlap (folder_core video_core : str) : Q :=
  let folder_words := set_of (split folder_core) in
  let video_words := set_of (split video_core) in
  if negb (is_nil folder_words) && negb (is_nil video_words)
  then Float.int_div fl (length (intersection folder_words video_words))
                        (length (union folder_words video_words))
  else 0.

Definition total_score (folder_core video_core : str) : Q :=
  Float.blend fl (similarity_score folder_core video_core)
                 (contains_score folder_core video_core)
                 (word_overlap folder_core video_core).

(** The loop of [find_best_video_match] over [video_index.items()]. *)
Fixpoint best_loop (folder_core : str) (threshold : Q) (items : Upgraded.index)
         (best_match : option str) (best_score : Q) : option str * Q :=
  match items with
  | [] => (best_match, best_score)
  | (filename, full_path) :: rest =>
      let video_core := Upgraded.extract_core_name filename in
      let total := total_score folder_core video_core in
      if gt total best_score && ge total threshold
      then best_loop folder_core threshold rest (Some full_path) total
      else best_loop folder_core threshold rest best_match best_score
  end.

Definition find_best_video_match (folder_name : str) (video_index : Upgraded.index)
           (threshold : Q) : option str * Q :=
  best_loop (Upgraded.extract_core_name folder_name) threshold video_index None 0.

Definition word_similarity (clean_folder clean_video : str) : Q :=
  let folder_words := set_of (split clean_folder) in
  let video_words := set_of (split clean_video) in
  if negb (is_nil folder_words) && negb (is_nil video_words)
  then Float.int_div fl (length (intersection folder_words video_words))
                        (Nat.max (length folder_words) (length video_words))
  else 0.

Definition combined_score (clean_folder clean_video : str) : Q :=
  let sim_direct := similarity_score clean_folder clean_video in
  let sim_no_space :=
    similarity_score (re_sub m_spaces [] clean_folder) (re_sub m_spaces [] clean_video) in
  max3 sim_direct sim_no_space (word_similarity clean_folder clean_video).

(** [candidates]: score and path of each file that scores [low_threshold] or
    more, in index order. *)
Fixpoint candidates_of (clean_folder : str) (low_threshold : Q) (items : Upgraded.index)
  : list (Q * str) :=
  match items with
  | [] => []
  | (filename, full_path) :: rest =>
      let combined := combined_score clean_folder (Upgraded.clean_video_of filename) in
      if ge combined low_threshold
      then (combined, full_path) :: candidates_of clean_folder low_threshold rest
      else candidates_of clean_folder low_threshold rest
  end.

Definition find_videos_by_content_similarity (folder_name : str)
           (video_index : Upgraded.index) (low_threshold : Q) : option str * Q :=
  match Upgraded.sort_desc
          (candidates_of (Upgraded.clean_folder_of folder_name) low_threshold video_index) with
  | [] => (None, 0)
  | (score, full_path) :: _ => (Some full_path, score)
  end.

(** [threshold - 0.05], as [gather_pairs] computes it. *)
Definition low_threshold_of (threshold : Q) : Q := fl (threshold - fl 0.05).

(** The two calls of [gather_pairs] for one folder: the primary method at
    [threshold], then the fallback at [threshold - 0.05]. *)
Definition match_folder (item : str) (video_index : Upgraded.index) (threshold : Q)
  : option str * Q :=
  let '(video_file, score) := find_best_video_match item video_index threshold in
  if negb (truthy video_file)
  then find_videos_by_content_similarity item video_index (low_threshold_of threshold)
  else (video_file, score).

(** The strict and the relaxed score of an entry of the index. *)
Definition strict (folder_name : str) (e : str * str) : Q :=
  total_score (Upgraded.extract_core_name folder_name)
              (Upgraded.extract_core_name (fst e)).

Definition relaxed (folder_name : str) (e : str * str) : Q :=
  combined_score (Upgraded.clean_folder_of folder_name)
                 (Upgraded.clean_video_of (fst e)).

End Rounded.

End UpgradedFloat.

(** ** Further notions used in the statements *)

Module Notions.
Import Py Re Sys.

(** [extract_core_name] of [main.py] after its first step: what becomes of
    a name once the extension is off. *)
Definition main_after_extension (name : str) : str :=
  let name := Main.remove_bracketed name in
  let name := Main.remove_terms name in
  let name := re_sub m_punct (lit " ") name in
  let name := strip (re_sub m_spaces (lit " ") name) in
  lower name.

(** The same for [upgraded.py]. *)
Definition upgraded_after_extension (name : str) : str :=
  let name := Upgraded.remove_bracketed name in
  let name := Upgraded.remove_terms name in
  let name := re_sub m_punct (lit " ") name in
  let name := strip (re_sub m_spaces (lit " ") name) in
  lower name.

(** A space for a punctuation character: [c] itself when it is a word
    character, white space, a full stop, or a character that opens or
    closes a group; a space otherwise. *)
Definition spaced (opening closing : char -> bool) (c : char) : char :=
  if is_word c || is_space c || is_dot c || opening c || closing c then c else space.

(** A letter, a digit or a space. *)
Definition alnum_or_space (c : char) : Prop := is_alnum c = true \/ c = space.

(** A name as a listing has it: without a separator of paths. *)
Definition plain_name (name : str) : Prop := Forall (fun c => is_sep c = false) name.

(** The call that deletes a folder, and the one that deletes a file, in
    [perform_deletion]. *)
Definition delete_folder {World : Type} (sys : system World) (use_trash : bool)
           (path : str) : World -> World * bool :=
  if use_trash && SEND_TO_TRASH_AVAILABLE sys then send2trash sys path
  else rmtree sys path.

Definition delete_file {World : Type} (sys : system World) (use_trash : bool)
           (path : str) : World -> World * bool :=
  if use_trash && SEND_TO_TRASH_AVAILABLE sys then send2trash sys path
  else remove sys path.

(** Every call that deletes returns, in the run of the loop of
    [perform_deletion] over [pairs] that starts in the world [w]. *)
Fixpoint all_return {World : Type} (sys : system World) (use_trash : bool)
         (pairs : list UpgradedScript.pair) (w : World) : bool :=
  match pairs with
  | [] => true
  | p :: rest =>
      let '(w1, folder_gone) :=
        delete_folder sys use_trash (UpgradedScript.folder_path p) w in
      if folder_gone
      then
        let '(w2, video_gone) :=
          delete_file sys use_trash (UpgradedScript.video_file p) w1 in
        if video_gone then all_return sys use_trash rest w2 else false
      else false
  end.

End Notions.

(** ** Further names used in the examples *)

Module Cases.
Import Py.

(** A file whose core is empty in [upgraded.py], before a file of
    [Examples.show_index]. *)
Definition hd_index : Upgraded.index :=
  [(lit "HD.mp4", lit "D/HD.mp4"); (lit "show a.mp4", lit "D/show a.mp4")].



(** A listing of [main.py] with two files that tie and a file that is no
    video. *)
Definition show_listing : list str :=
  [lit "show a.mp4"; lit "notes.txt"; lit "show b.mp4"].

End Cases.

(** * Facts *)

Arguments Py.code : simpl never.
Arguments Py.is_space : simpl never.
Arguments Py.is_alnum : simpl never.
Arguments Py.is_word : simpl never.
Arguments Py.is_dot : simpl never.
Arguments Py.is_sep : simpl never.
Arguments Py.fold_char : simpl never.
Arguments Py.eqc : simpl never.

(** ** Characters *)

Module CharFacts.
Import Py.

Ltac all_chars c :=
  destruct c as [[[] [] [] [] [] [] [] []]| |]; vm_compute;
  try reflexivity; try discriminate.

Lemma word_not_space (c : char) : is_word c = true -> is_space c = false.
Proof. all_chars c. Qed.

Lemma is_word_fold (c : char) : is_word (fold_char c) = is_word c.
Proof. all_chars c. Qed.

Lemma is_space_fold (c : char) : is_space (fold_char c) = is_space c.
Proof. all_chars c. Qed.

Lemma is_dot_fold (c : char) : is_dot (fold_char c) = is_dot c.
Proof. all_chars c. Qed.

Lemma fold_char_idem (c : char) : fold_char (fold_char c) = fold_char c.
Proof. all_chars c. Qed.

Lemma word_not_dot (c : char) : is_word c = true -> is_dot c = false.
Proof. all_chars c. Qed.

Lemma word_not_newline (c : char) : is_word c = true -> (code c =? 10) = false.
Proof. all_chars c. Qed.

Lemma code_inj (c d : char) : code c = code d -> c = d.
Proof.
  destruct c as [a| |], d as [b| |]; unfold code; intro H;
    try reflexivity; try discriminate;
    try (pose proof (nat_ascii_bounded a); lia);
    try (pose proof (nat_ascii_bounded b); lia).
  f_equal. rewrite <- (ascii_nat_embedding a), <- (ascii_nat_embedding b). now rewrite H.
Qed.

Lemma eqc_eq (c d : char) : eqc c d = true <-> c = d.
Proof.
  unfold eqc. rewrite Nat.eqb_eq. split; [apply code_inj|now intros ->].
Qed.

Lemma eqc_refl (c : char) : eqc c c = true.
Proof. unfold eqc. apply Nat.eqb_refl. Qed.

Lemma eqs_eq (s t : str) : eqs s t = true <-> s = t.
Proof.
  revert t; induction s as [|c s IH]; intros [|d t]; cbn; split; intro H;
    try reflexivity; try discriminate.
  - apply andb_true_iff in H as [H1 H2].
    apply eqc_eq in H1. apply IH in H2. now subst.
  - injection H as -> ->. rewrite eqc_refl. cbn. now apply IH.
Qed.

Lemma fold_idem (s : str) : fold (fold s) = fold s.
Proof.
  unfold fold. rewrite map_map. apply map_ext. intro; apply fold_char_idem.
Qed.

Lemma fold_app (s t : str) : fold (s ++ t) = fold s ++ fold t.
Proof. apply map_app. Qed.

Lemma fold_length (s : str) : length (fold s) = length s.
Proof. apply length_map. Qed.

End CharFacts.

(** ** The scan of [re.sub] *)

Module ReFacts.
Import Py Re Aux CharFacts.

Lemma find_none_all {A : Type} (f : A -> bool) (l : list A) :
  (forall x, In x l -> f x = false) -> find f l = None.
Proof.
  induction l as [|x l IH]; cbn; intro H; [reflexivity|].
  rewrite (H x (or_introl eq_refl)). apply IH. intros y Hy. apply H. now right.
Qed.

Lemma find_ext_in {A : Type} (f g : A -> bool) (l : list A) :
  (forall x, In x l -> f x = g x) -> find f l = find g l.
Proof.
  induction l as [|x l IH]; cbn; intro H; [reflexivity|].
  rewrite (H x (or_introl eq_refl)). destruct (g x); [reflexivity|].
  apply IH. intros y Hy. apply H. now right.
Qed.

Lemma find_existsb {A : Type} (f : A -> bool) (l : list A) :
  match find f l with
  | Some x => In x l /\ f x = true /\ existsb f l = true
  | None => existsb f l = false
  end.
Proof.
  induction l as [|x l IH]; cbn; [reflexivity|].
  destruct (f x) eqn:E.
  - repeat split; auto.
  - destruct (find f l); cbn; [|exact IH].
    destruct IH as (H1 & H2 & H3). repeat split; auto.
Qed.

Lemma app_eq_length {A : Type} (x : list A) :
  forall y z t, length x = length z -> x ++ y = z ++ t -> x = z /\ y = t.
Proof.
  induction x as [|a x IH]; intros y [|b z] t Hl H; cbn in *; try discriminate.
  - now split.
  - injection H as -> H. injection Hl as Hl.
    destruct (IH _ _ _ Hl H) as [-> ->]. now split.
Qed.

Lemma last_char_app (prev : option char) (r t : str) :
  last_char prev (r ++ t) = last_char (last_char prev r) t.
Proof. revert prev; induction r as [|c r IH]; intro prev; cbn; auto. Qed.

(** Characters of a match still to be dropped are dropped. *)
Lemma sub_skip m repl (k : nat) :
  forall (s : str) prev,
    sub m repl prev k s = sub m repl (last_char prev (firstn k s)) 0 (skipn k s).
Proof.
  induction k as [|k IH]; intros s prev.
  - reflexivity.
  - destruct s as [|c s]; [reflexivity|]. cbn. apply IH.
Qed.

Lemma sub_skip_app m repl (r rest : str) prev :
  sub m repl prev (length r) (r ++ rest) = sub m repl (last_char prev r) 0 rest.
Proof.
  rewrite sub_skip. rewrite firstn_app, Nat.sub_diag, firstn_all, skipn_app,
    Nat.sub_diag, skipn_all. cbn. now rewrite app_nil_r.
Qed.

(** Where the pattern matches nowhere the string is copied. *)
Lemma sub_no_match m repl (P : char -> Prop) :
  (forall prev c s, P c -> m prev (c :: s) = None) ->
  forall s prev, Forall P s -> sub m repl prev 0 s = s.
Proof.
  intros Hm s. induction s as [|c s IH]; intros prev Hs; [reflexivity|].
  inversion Hs; subst. cbn. rewrite Hm by assumption. f_equal. now apply IH.
Qed.

(** A pattern without look-behind. *)
Lemma sub_prev_irrelevant m repl :
  (forall p p' s, m p s = m p' s) ->
  forall s k p p', sub m repl p k s = sub m repl p' k s.
Proof.
  intros Hm s. induction s as [|c s IH]; intros k p p'; [reflexivity|].
  cbn. destruct k; [|apply IH].
  rewrite (Hm p p'). reflexivity.
Qed.

(** [[^\w\s]] replaced by a space. *)
Lemma sub_punct (s : str) : forall prev, sub m_punct (lit " ") prev 0 s = map punct s.
Proof.
  induction s as [|c s IH]; intro prev; [reflexivity|].
  cbn. unfold punct at 1.
  destruct (is_word c || is_space c); cbn; now rewrite IH.
Qed.

(** [\s+] replaced by a space. *)
Lemma sub_spaces (s : str) :
  (forall prev, sub m_spaces (lit " ") prev 0 s = squeeze false s)
  /\ (forall prev, sub m_spaces (lit " ") prev (length (take_while is_space s)) s
                   = squeeze true s).
Proof.
  induction s as [|c s [IHa IHb]]; [split; reflexivity|].
  assert (Ha : forall prev, sub m_spaces (lit " ") prev 0 (c :: s) = squeeze false (c :: s)).
  { intro prev. cbn. unfold m_spaces. cbn.
    destruct (is_space c); cbn.
    - now rewrite IHb.
    - now rewrite IHa. }
  split; [exact Ha|].
  intro prev. cbn [take_while]. destruct (is_space c) eqn:E.
  - cbn [length sub squeeze]. rewrite E. apply IHb.
  - cbn [length]. rewrite Ha. cbn. now rewrite E.
Qed.

(** A literal matches the strings whose lower-case form it is. *)
Lemma literal_i_spec (p : str) :
  forall s rest, literal_i p s = Some rest <->
                 exists s1, s = s1 ++ rest /\ fold s1 = p.
Proof.
  induction p as [|c p IH]; intros s rest; cbn.
  - split.
    + intros [= ->]. now exists [].
    + intros (s1 & -> & H). destruct s1; [reflexivity|discriminate].
  - destruct s as [|d s].
    + split; [discriminate|]. intros (s1 & H1 & H2).
      destruct s1; discriminate.
    + destruct (eqc c (fold_char d)) eqn:E.
      * apply eqc_eq in E. rewrite IH. split.
        -- intros (s1 & -> & <-). exists (d :: s1). split; [reflexivity|].
           cbn. now rewrite E.
        -- intros (s1 & H1 & H2). destruct s1 as [|d' s1]; [discriminate|].
           cbn in H1, H2. injection H1 as <- ->. injection H2 as _ <-.
           now exists s1.
      * split; [discriminate|]. intros (s1 & H1 & H2).
        destruct s1 as [|d' s1]; [discriminate|].
        cbn in H1, H2. injection H1 as <- ->. injection H2 as H2 _.
        rewrite H2, eqc_refl in E. discriminate.
Qed.

End ReFacts.

(** ** Runs of word characters *)

Module RunFacts.
Import Py Re Aux CharFacts ReFacts.

Lemma fold_word_str (r : str) : word_str (fold r) <-> word_str r.
Proof.
  unfold word_str, fold. rewrite Forall_map. split; apply Forall_impl; intro c;
    now rewrite is_word_fold.
Qed.

Lemma runs_nonword (c : char) (s : str) : is_word c = false -> runs (c :: s) = runs s.
Proof. intro H. unfold runs. cbn. now rewrite H. Qed.

Lemma runs_run (r rest : str) :
  r <> [] -> word_str r -> ends_run rest -> runs (r ++ rest) = r :: runs rest.
Proof.
  induction r as [|c r IH]; intros Hne Hr Hrest; [congruence|].
  inversion Hr as [|? ? Hc Hr']; subst.
  destruct r as [|c2 r].
  - cbn. unfold runs. cbn. rewrite Hc. cbn.
    destruct rest as [|d rest]; [reflexivity|].
    cbn in Hrest. rewrite Hrest. reflexivity.
  - assert (IH' := IH ltac:(discriminate) Hr' Hrest).
    inversion Hr' as [|? ? Hc2 _]; subst.
    unfold runs in *. cbn [app fields] in *. rewrite Hc, Hc2 in *. cbn [negb] in *.
    rewrite IH'. reflexivity.
Qed.

Lemma runs_single (r : str) : r <> [] -> word_str r -> runs r = [r].
Proof.
  intros Hne Hr. rewrite <- (app_nil_r r) at 1. now rewrite runs_run.
Qed.

Lemma runs_nonword_app (t s : str) : nonword_str t -> runs (t ++ s) = runs s.
Proof.
  induction t as [|c t IH]; intro H; [reflexivity|].
  inversion H; subst. cbn [app]. rewrite runs_nonword by assumption. now apply IH.
Qed.

(** A string is a run followed by the end of a run. *)
Lemma run_split (s : str) :
  s = take_while is_word s ++ drop_while is_word s
  /\ word_str (take_while is_word s)
  /\ ends_run (drop_while is_word s).
Proof.
  induction s as [|c s (IH1 & IH2 & IH3)]; cbn; [repeat split; constructor|].
  destruct (is_word c) eqn:E; cbn.
  - repeat split; [now f_equal | now constructor | assumption].
  - repeat split; [constructor | assumption].
Qed.

Lemma take_while_run (r rest : str) :
  word_str r -> ends_run rest ->
  take_while is_word (r ++ rest) = r /\ drop_while is_word (r ++ rest) = rest.
Proof.
  induction r as [|c r IH]; intros Hr Hrest; cbn.
  - destruct rest as [|d rest]; [now split|]. cbn in *. now rewrite Hrest.
  - inversion Hr as [|? ? Hc Hr']; subst. rewrite Hc.
    destruct (IH Hr' Hrest) as [-> ->]. now split.
Qed.

Lemma runs_are_runs (s : str) :
  Forall (fun r => r <> [] /\ word_str r) (runs s).
Proof.
  unfold runs. induction s as [|c s IH]; cbn; [constructor|].
  destruct (is_word c) eqn:E; cbn; [|assumption].
  destruct s as [|d s].
  - constructor; [|constructor]. split; [discriminate|]. now repeat constructor.
  - destruct (is_word d) eqn:Ed; cbn [negb].
    + destruct (fields _ (d :: s)) as [|r rs].
      * constructor; [|constructor]. split; [discriminate|]. now repeat constructor.
      * inversion IH as [|? ? [H1 H2] H3]; subst.
        constructor; [|assumption]. split; [discriminate|]. now constructor.
    + constructor; [|assumption]. split; [discriminate|]. now repeat constructor.
Qed.

Lemma runs_join (ws : list str) :
  Forall (fun r => r <> [] /\ word_str r) ws -> runs (join (lit " ") ws) = ws.
Proof.
  induction ws as [|w ws IH]; intro H; [reflexivity|].
  inversion H as [|? ? [Hne Hw] H']; subst.
  destruct ws as [|w2 ws].
  - cbn. rewrite <- (app_nil_r w) at 1. now rewrite runs_run.
  - change (join (lit " ") (w :: w2 :: ws))
      with (w ++ space :: join (lit " ") (w2 :: ws)).
    rewrite runs_run; auto; [|reflexivity].
    rewrite runs_nonword by reflexivity. now rewrite IH.
Qed.

Lemma fold_join (ws : list str) :
  fold (join (lit " ") ws) = join (lit " ") (map fold ws).
Proof.
  induction ws as [|w ws IH]; [reflexivity|].
  destruct ws as [|w2 ws]; [reflexivity|].
  change (join (lit " ") (w :: w2 :: ws))
    with (w ++ space :: join (lit " ") (w2 :: ws)).
  rewrite fold_app.
  change (fold (space :: join (lit " ") (w2 :: ws)))
    with (space :: fold (join (lit " ") (w2 :: ws))).
  rewrite IH. reflexivity.
Qed.

(** *** Steps four to six: white space and case *)

Lemma rstrip_cons_nonspace (c : char) (s : str) :
  is_space c = false -> rstrip (c :: s) = c :: rstrip s.
Proof. intro H. cbn. rewrite H. now destruct (rstrip s). Qed.

Lemma rstrip_cons_space (c : char) (s : str) :
  is_space c = true ->
  rstrip (c :: s) = if is_nil (rstrip s) then [] else c :: rstrip s.
Proof. intro H. cbn. rewrite H. now destruct (rstrip s). Qed.

Lemma punct_word (c : char) : is_word c = true -> punct c = c /\ is_space c = false.
Proof.
  intro H. unfold punct. rewrite H. split; [reflexivity|]. now apply word_not_space.
Qed.

Lemma punct_nonword (c : char) : is_word c = false -> is_space (punct c) = true.
Proof.
  intro H. unfold punct. rewrite H. cbn. destruct (is_space c) eqn:E; auto.
Qed.

Lemma join_nonempty (ws : list str) :
  Forall (fun r => r <> [] /\ word_str r) ws -> ws <> [] -> join (lit " ") ws <> [].
Proof.
  intros H Hne. destruct ws as [|w ws]; [congruence|].
  inversion H as [|? ? [Hw _] _]; subst.
  destruct ws; cbn; destruct w; cbn; congruence.
Qed.

(** The squeezed and right-stripped string, by the runs of the string. *)
Lemma squeeze_runs (s : str) :
  rstrip (squeeze true (map punct s)) = join (lit " ") (runs s)
  /\ rstrip (squeeze false (map punct s))
     = if starts_nonword s
       then if is_nil (runs s) then [] else space :: join (lit " ") (runs s)
       else join (lit " ") (runs s).
Proof.
  induction s as [|c s [IHt IHf]]; [split; reflexivity|].
  cbn [map squeeze starts_nonword].
  destruct (is_word c) eqn:E.
  - destruct (punct_word c E) as [-> Hs]. rewrite Hs. cbn [negb].
    rewrite rstrip_cons_nonspace by assumption. rewrite IHf.
    assert (Hgoal : c :: (if starts_nonword s
                          then if is_nil (runs s) then [] else space :: join (lit " ") (runs s)
                          else join (lit " ") (runs s))
                    = join (lit " ") (runs (c :: s))).
    { destruct s as [|d s].
      - unfold runs. cbn. now rewrite E.
      - cbn [starts_nonword]. destruct (is_word d) eqn:Ed; cbn [negb].
        + destruct (run_split (d :: s)) as (Hsplit & Hw & He).
          assert (Hne : take_while is_word (d :: s) <> []).
          { cbn. rewrite Ed. discriminate. }
          rewrite Hsplit at 2.
          change (c :: take_while is_word (d :: s) ++ drop_while is_word (d :: s))
            with ((c :: take_while is_word (d :: s)) ++ drop_while is_word (d :: s)).
          rewrite runs_run; [|discriminate|constructor; assumption|assumption].
          rewrite Hsplit at 1. rewrite runs_run by assumption.
          destruct (runs (drop_while is_word (d :: s))); reflexivity.
        + change (c :: d :: s) with ([c] ++ d :: s).
          rewrite runs_run; [|discriminate|now repeat constructor|exact Ed].
          destruct (runs (d :: s)) eqn:Er; reflexivity. }
    split; exact Hgoal.
  - rewrite (punct_nonword c E). cbn [negb].
    rewrite runs_nonword by assumption. split; [exact IHt|].
    rewrite rstrip_cons_space by reflexivity. rewrite IHt.
    destruct (runs s) as [|r rs] eqn:Er; [reflexivity|].
    pose proof (runs_are_runs s) as Hr. rewrite Er in Hr.
    destruct (join (lit " ") (r :: rs)) eqn:Ej; [|reflexivity].
    exfalso. revert Ej. apply join_nonempty; [assumption|discriminate].
Qed.

Lemma squeeze_true_no_leading (s : str) :
  drop_while is_space (squeeze true s) = squeeze true s.
Proof.
  induction s as [|c s IH]; [reflexivity|].
  cbn. destruct (is_space c) eqn:E; [exact IH|]. cbn. now rewrite E.
Qed.

Lemma lstrip_squeeze (s : str) : lstrip (squeeze false s) = squeeze true s.
Proof.
  unfold lstrip. destruct s as [|c s]; [reflexivity|].
  cbn. destruct (is_space c) eqn:E.
  - cbn. apply squeeze_true_no_leading.
  - cbn. now rewrite E.
Qed.

(** Steps four to six of the normalizer leave the runs, in lower case,
    joined by single spaces. *)
Lemma finish_runs (s : str) :
  fold (strip (re_sub m_spaces (lit " ") (re_sub m_punct (lit " ") s)))
  = join (lit " ") (map fold (runs s)).
Proof.
  unfold re_sub. rewrite sub_punct. rewrite (proj1 (sub_spaces _)).
  unfold strip. rewrite lstrip_squeeze. rewrite (proj1 (squeeze_runs s)).
  apply fold_join.
Qed.

End RunFacts.

(** ** The common terms *)

Module TermFacts.
Import Py Re Aux CharFacts ReFacts RunFacts.

Section Terms.

Variable terms : list str.
Variable trepl : str.

(** The terms are non-empty strings of word characters, and the replacement
    has no word character. *)
Hypothesis terms_ok : Forall (fun t => t <> [] /\ word_str t) terms.
Hypothesis trepl_ok : nonword_str trepl.

(** Inside a run there is no word boundary. *)
Lemma m_terms_inside prev (c : char) (s : str) :
  is_word_opt prev = true -> is_word c = true -> m_terms terms prev (c :: s) = None.
Proof.
  intros Hp Hc. unfold m_terms, word_boundary. cbn. now rewrite Hp, Hc.
Qed.

(** No term starts at a character that is not a word character. *)
Lemma m_terms_nonword prev (c : char) (s : str) :
  is_word c = false -> m_terms terms prev (c :: s) = None.
Proof.
  intro Hc. unfold m_terms. destruct (word_boundary _ _); [|reflexivity].
  rewrite find_none_all; [reflexivity|].
  intros t Ht. rewrite Forall_forall in terms_ok.
  destruct (terms_ok t Ht) as [Hne Hw].
  destruct t as [|t0 t]; [congruence|]. cbn.
  destruct (eqc t0 (fold_char c)) eqn:E; [|reflexivity].
  apply eqc_eq in E. inversion Hw as [|? ? H0 _]; subst.
  rewrite is_word_fold in H0. congruence.
Qed.

Lemma nth_error_last (r rest : str) (c : char) :
  nth_error ((r ++ [c]) ++ rest) (length (r ++ [c]) - 1) = Some c.
Proof.
  rewrite length_app. cbn. replace (length r + 1 - 1) with (length r) by lia.
  rewrite <- app_assoc. rewrite nth_error_app2 by lia. now rewrite Nat.sub_diag.
Qed.

Lemma word_str_last (r : str) :
  r <> [] -> word_str r -> exists r' c, r = r' ++ [c] /\ is_word c = true.
Proof.
  intros Hne Hw. destruct (exists_last Hne) as (r' & c & ->).
  exists r', c. split; [reflexivity|].
  unfold word_str in Hw. rewrite Forall_app in Hw. destruct Hw as [_ Hc].
  now inversion Hc.
Qed.

(** At the start of a run the pattern matches exactly when the run is a
    term, and then it matches the run. *)
Lemma m_terms_run prev (r rest : str) :
  is_word_opt prev = false -> r <> [] -> word_str r -> ends_run rest ->
  m_terms terms prev (r ++ rest)
  = if is_term terms r then Some (length r) else None.
Proof.
  intros Hp Hne Hr Hrest. unfold m_terms, word_boundary.
  destruct r as [|c r0] eqn:Er; [congruence|]. rewrite <- Er in *.
  assert (Hhd : hd_error (r ++ rest) = Some c) by (now rewrite Er).
  rewrite Hhd. cbn [is_word_opt]. rewrite Hp.
  assert (Hc : is_word c = true) by (rewrite Er in Hr; now inversion Hr).
  rewrite Hc. cbn [xorb].
  rewrite (find_ext_in _ (fun t => eqs t (fold r))).
  - unfold is_term. pose proof (find_existsb (fun t => eqs t (fold r)) terms) as H.
    destruct (find _ terms) as [t|].
    + destruct H as (_ & H2 & H3). rewrite H3.
      apply eqs_eq in H2. subst t. now rewrite fold_length.
    + now rewrite H.
  - intros t Ht. rewrite Forall_forall in terms_ok.
    destruct (terms_ok t Ht) as [Htne Htw].
    destruct (literal_i t (r ++ rest)) as [rest'|] eqn:El.
    + apply literal_i_spec in El as (s1 & Hs & Hl).
      assert (Hs1 : word_str s1) by (apply fold_word_str; now rewrite Hl).
      assert (Hs1ne : s1 <> []) by (intros ->; cbn in Hl; congruence).
      destruct (word_str_last s1 Hs1ne Hs1) as (s1' & d & -> & Hd).
      assert (Hlen : length t = length (s1' ++ [d])) by (now rewrite <- Hl, fold_length).
      rewrite Hs, Hlen, nth_error_last. cbn [is_word_opt]. rewrite Hd.
      destruct (eqs t (fold r)) eqn:Ee.
      * apply eqs_eq in Ee.
        assert (Hlr : length r = length (s1' ++ [d])) by (now rewrite <- Hlen, Ee, fold_length).
        assert (r = s1' ++ [d] /\ rest = rest') as [_ <-].
        { now apply app_eq_length. }
        destruct rest as [|e rest]; cbn in *; [reflexivity|]. now rewrite Hrest.
      * destruct rest' as [|e rest']; [|cbn; destruct (is_word e) eqn:Ew; [reflexivity|]];
          exfalso.
        -- (* the match ends the string, so it is the run *)
           rewrite app_nil_r in Hs.
           assert (rest = []).
           { destruct rest as [|e rest]; [reflexivity|]. cbn in Hrest.
             assert (Hin : In e (s1' ++ [d])) by (rewrite <- Hs; apply in_or_app; right; now left).
             unfold word_str in Hs1. rewrite Forall_forall in Hs1.
             rewrite (Hs1 e Hin) in Hrest. discriminate. }
           subst rest. rewrite app_nil_r in Hs.
           rewrite Hs, Hl in Ee. assert (eqs t t = true) by now apply eqs_eq. congruence.
        -- (* the match is followed by the end of a run, so it is the run *)
           destruct (take_while_run r rest Hr Hrest) as [H1 _].
           destruct (take_while_run (s1' ++ [d]) (e :: rest') Hs1 Ew) as [H2 _].
           rewrite Hs, H2 in H1.
           rewrite <- H1, Hl in Ee. assert (eqs t t = true) by now apply eqs_eq. congruence.
    + destruct (eqs t (fold r)) eqn:Ee; [|reflexivity].
      apply eqs_eq in Ee. exfalso.
      assert (literal_i t (r ++ rest) = Some rest) as H.
      { apply literal_i_spec. exists r. now split. }
      congruence.
Qed.

(** The scan at a character that is not a word character. *)
Lemma sub_terms_nonword prev (c : char) (s : str) :
  is_word c = false ->
  sub (m_terms terms) trepl prev 0 (c :: s) = c :: sub (m_terms terms) trepl (Some c) 0 s.
Proof. intro H. cbn [sub]. now rewrite m_terms_nonword. Qed.

(** The scan inside a run. *)
Lemma sub_terms_inside (r rest : str) :
  forall prev, is_word_opt prev = true -> word_str r ->
  sub (m_terms terms) trepl prev 0 (r ++ rest)
  = r ++ sub (m_terms terms) trepl (last_char prev r) 0 rest.
Proof.
  induction r as [|c r IH]; intros prev Hp Hr; [reflexivity|].
  inversion Hr as [|? ? Hc Hr']; subst.
  cbn [app sub]. rewrite m_terms_inside by assumption.
  cbn [last_char]. f_equal. apply IH; [exact Hc|assumption].
Qed.

(** The scan at the start of a run. *)
Lemma sub_terms_run prev (r rest : str) :
  is_word_opt prev = false -> r <> [] -> word_str r -> ends_run rest ->
  sub (m_terms terms) trepl prev 0 (r ++ rest)
  = (if is_term terms r then trepl else r)
      ++ sub (m_terms terms) trepl (last_char prev r) 0 rest.
Proof.
  intros Hp Hne Hr Hrest.
  pose proof (m_terms_run prev r rest Hp Hne Hr Hrest) as Hm.
  destruct r as [|c r]; [congruence|].
  inversion Hr as [|? ? Hc Hr']; subst.
  cbn [app sub] in *. rewrite Hm.
  destruct (is_term terms (c :: r)).
  - cbn [length]. rewrite sub_skip_app. reflexivity.
  - cbn [last_char app]. f_equal. now apply sub_terms_inside.
Qed.

(** Removing the terms removes the runs that are terms, and no other. *)
Lemma runs_sub_terms (n : nat) :
  forall (s : str) prev,
    length s <= n -> is_word_opt prev = false ->
    runs (sub (m_terms terms) trepl prev 0 s)
    = filter (fun r => negb (is_term terms r)) (runs s).
Proof.
  induction n as [|n IH]; intros s prev Hlen Hp.
  - destruct s; [reflexivity|cbn in Hlen; lia].
  - destruct s as [|c s]; [reflexivity|].
    destruct (is_word c) eqn:Ec.
    + destruct (run_split (c :: s)) as (Hsplit & Hw & He).
      set (r := take_while is_word (c :: s)) in *.
      set (rest := drop_while is_word (c :: s)) in *.
      assert (Hne : r <> []) by (subst r; cbn; rewrite Ec; discriminate).
      assert (Hlr : length r + length rest = length (c :: s)).
      { rewrite <- length_app. rewrite <- Hsplit. reflexivity. }
      rewrite Hsplit. rewrite sub_terms_run by assumption.
      rewrite (runs_run r rest) by assumption. cbn [filter].
      destruct rest as [|d rest'].
      * cbn [sub]. rewrite app_nil_r. cbn [runs fields].
        destruct (is_term terms r); cbn [negb].
        -- rewrite <- (app_nil_r trepl). now rewrite runs_nonword_app.
        -- cbn [filter]. now apply runs_single.
      * cbn in He. rewrite sub_terms_nonword by assumption.
        assert (Hrec : runs (sub (m_terms terms) trepl (Some d) 0 rest')
                       = filter (fun r => negb (is_term terms r)) (runs rest')).
        { apply IH; [|cbn; now rewrite He].
          destruct r; [congruence|]. cbn in Hlr, Hlen. lia. }
        rewrite (runs_nonword d rest') by assumption.
        destruct (is_term terms r); cbn [negb].
        -- rewrite runs_nonword_app by assumption.
           rewrite runs_nonword by assumption. exact Hrec.
        -- rewrite runs_run by assumption.
           rewrite runs_nonword by assumption. now rewrite Hrec.
    + rewrite sub_terms_nonword by assumption.
      rewrite !runs_nonword by assumption.
      apply IH; [cbn in Hlen; lia|]. cbn. now rewrite Ec.
Qed.

Lemma re_sub_terms_runs (s : str) :
  runs (re_sub (m_terms terms) trepl s)
  = filter (fun r => negb (is_term terms r)) (runs s).
Proof. unfold re_sub. now apply (runs_sub_terms (length s)). Qed.

End Terms.

End TermFacts.

(** ** The normalizer *)

Module NormFacts.
Import Py Re Aux CharFacts ReFacts RunFacts TermFacts.

Section Normalizer.

Variable exts : list str.
Variables opening closing : char -> bool.
Variable grepl : str.
Variable terms : list str.
Variable trepl : str.

Hypothesis opening_ok : forall c, opening c = true -> is_word c = false /\ is_space c = false.
Hypothesis terms_ok : Forall (fun t => t <> [] /\ word_str t) terms.
Hypothesis trepl_ok : nonword_str trepl.

(** The core is made of the runs of the name that are left after the first
    two steps and that are no terms, in lower case, joined by spaces. *)
Lemma fold_normalize_runs (name : str) :
  fold_normalize exts opening closing grepl terms trepl name
  = join (lit " ")
      (map fold
         (filter (fun r => negb (is_term terms r))
            (runs (re_sub (m_group opening closing) grepl (re_sub (m_ext exts) [] name))))).
Proof.
  unfold fold_normalize. rewrite finish_runs. now rewrite re_sub_terms_runs.
Qed.

Lemma is_term_fold (r : str) : is_term terms (fold r) = is_term terms r.
Proof. unfold is_term. now rewrite fold_idem. Qed.

Lemma core_words_of_runs (s : str) :
  core_words terms (map fold (filter (fun r => negb (is_term terms r)) (runs s))).
Proof.
  unfold core_words. rewrite Forall_map. rewrite Forall_forall.
  intros r Hr. apply filter_In in Hr as [Hin Hnt].
  pose proof (runs_are_runs s) as H. rewrite Forall_forall in H.
  destruct (H r Hin) as [Hne Hw]. repeat split.
  - destruct r; [congruence|discriminate].
  - now apply fold_word_str.
  - apply fold_idem.
  - rewrite is_term_fold. now apply negb_true_iff.
Qed.

Lemma core_chars (ws : list str) :
  core_words terms ws ->
  Forall (fun c => is_word c = true \/ c = space) (join (lit " ") ws).
Proof.
  induction ws as [|w ws IH]; intro H; [constructor|].
  inversion H as [|? ? [[_ Hw] _] H']; subst.
  assert (Hw' : Forall (fun c => is_word c = true \/ c = space) w).
  { revert Hw. apply Forall_impl. now left. }
  destruct ws as [|w2 ws]; [exact Hw'|].
  change (join (lit " ") (w :: w2 :: ws))
    with (w ++ space :: join (lit " ") (w2 :: ws)).
  apply Forall_app. split; [exact Hw'|]. constructor; [now right|]. now apply IH.
Qed.

(** No extension is found in a core, and no bracket. *)
Lemma ext_core (ws : list str) :
  core_words terms ws -> re_sub (m_ext exts) [] (join (lit " ") ws) = join (lit " ") ws.
Proof.
  intro H. unfold re_sub.
  apply (sub_no_match _ _ (fun c => is_word c = true \/ c = space)).
  - intros prev c s [Hc| ->]; unfold m_ext.
    + now rewrite word_not_dot.
    + reflexivity.
  - now apply core_chars.
Qed.

Lemma group_core (ws : list str) :
  core_words terms ws ->
  re_sub (m_group opening closing) grepl (join (lit " ") ws) = join (lit " ") ws.
Proof.
  intro H. unfold re_sub.
  apply (sub_no_match _ _ (fun c => is_word c = true \/ c = space)).
  - intros prev c s Hc. unfold m_group.
    destruct (opening c) eqn:E; [|reflexivity].
    destruct (opening_ok c E) as [H1 H2].
    destruct Hc as [Hc| ->]; [congruence|]. discriminate H2.
  - now apply core_chars.
Qed.

Lemma filter_all {A : Type} (f : A -> bool) (l : list A) :
  Forall (fun x => f x = true) l -> filter f l = l.
Proof.
  induction l as [|x l IH]; intro H; [reflexivity|].
  inversion H; subst. cbn. rewrite H2. f_equal. now apply IH.
Qed.

Lemma map_id_on {A : Type} (f : A -> A) (l : list A) :
  Forall (fun x => f x = x) l -> map f l = l.
Proof.
  induction l as [|x l IH]; intro H; [reflexivity|].
  inversion H; subst. cbn. rewrite H2. f_equal. now apply IH.
Qed.

(** A core is its own core. *)
Lemma fold_normalize_core (ws : list str) :
  core_words terms ws ->
  fold_normalize exts opening closing grepl terms trepl (join (lit " ") ws)
  = join (lit " ") ws.
Proof.
  intro H. rewrite fold_normalize_runs. rewrite ext_core, group_core by assumption.
  rewrite runs_join.
  - rewrite filter_all.
    + now rewrite map_id_on; [|revert H; apply Forall_impl; intros w (_ & Hl & _)].
    + revert H. apply Forall_impl. intros w (_ & _ & Ht). now rewrite Ht.
  - revert H. apply Forall_impl. now intros w (Hw & _).
Qed.

Lemma fold_normalize_idempotent (name : str) :
  fold_normalize exts opening closing grepl terms trepl
    (fold_normalize exts opening closing grepl terms trepl name)
  = fold_normalize exts opening closing grepl terms trepl name.
Proof.
  rewrite (fold_normalize_runs name). apply fold_normalize_core. apply core_words_of_runs.
Qed.

(** *** The full lower-case form *)

Lemma lower_single (s : str) : Forall single_lower s -> lower s = fold s.
Proof.
  induction s as [|c s IH]; intro H; [reflexivity|].
  inversion H as [|? ? Hc Hs]; subst. cbn [lower flat_map fold map].
  fold (lower s). fold (fold s). rewrite (IH Hs).
  destruct c as [a| |]; [reflexivity|now elim Hc|reflexivity].
Qed.

Lemma fold_is_single (s : str) : Forall single_lower (fold s).
Proof.
  unfold fold. rewrite Forall_map. apply Forall_forall. intros c _.
  unfold single_lower, fold_char. destruct c as [a| |]; try discriminate.
  cbv zeta. destruct (_ || _); discriminate.
Qed.

Lemma sub_forall (P : char -> Prop) m (repl : str) :
  Forall P repl ->
  forall s prev k, Forall P s -> Forall P (sub m repl prev k s).
Proof.
  intros Hr s. induction s as [|c s IH]; intros prev k Hs; [constructor|].
  inversion Hs as [|? ? Hc Hs']; subst. cbn [sub]. destruct k as [|k]; [|now apply IH].
  destruct (m prev (c :: s)) as [[|n]|].
  - constructor; [assumption|now apply IH].
  - apply Forall_app. split; [assumption|now apply IH].
  - constructor; [assumption|now apply IH].
Qed.

Lemma drop_while_forall (P : char -> Prop) (f : char -> bool) (s : str) :
  Forall P s -> Forall P (drop_while f s).
Proof.
  induction s as [|c s IH]; intro H; [constructor|].
  inversion H; subst. cbn [drop_while]. destruct (f c); auto.
Qed.

Lemma rstrip_forall (P : char -> Prop) (s : str) : Forall P s -> Forall P (rstrip s).
Proof.
  induction s as [|c s IH]; intro H; [constructor|].
  inversion H as [|? ? Hc Hs]; subst. cbn [rstrip].
  specialize (IH Hs). destruct (rstrip s).
  - destruct (is_space c); repeat constructor; assumption.
  - now constructor.
Qed.

Lemma strip_forall (P : char -> Prop) (s : str) : Forall P s -> Forall P (strip s).
Proof. intro H. unfold strip, lstrip. now apply rstrip_forall, drop_while_forall. Qed.

Hypothesis grepl_single : Forall single_lower grepl.
Hypothesis trepl_single : Forall single_lower trepl.

(** On a name whose characters have one-character lower-case forms, the
    last step takes the lower-case character of each character. *)
Lemma normalize_fold (name : str) :
  Forall single_lower name ->
  normalize exts opening closing grepl terms trepl name
  = fold_normalize exts opening closing grepl terms trepl name.
Proof.
  intro H. unfold normalize, fold_normalize. apply lower_single.
  apply strip_forall. unfold re_sub.
  repeat (apply sub_forall;
          [first [assumption | solve [constructor] | solve [repeat constructor; discriminate]]|]).
  exact H.
Qed.

Lemma normalize_idempotent (name : str) :
  Forall single_lower name ->
  normalize exts opening closing grepl terms trepl
    (normalize exts opening closing grepl terms trepl name)
  = normalize exts opening closing grepl terms trepl name.
Proof.
  intro H. rewrite (normalize_fold name H).
  rewrite normalize_fold.
  - apply fold_normalize_idempotent.
  - apply fold_is_single.
Qed.

End Normalizer.

(** The side conditions, for the two scripts, by computation. *)
Lemma all_latin1_from_spec (f : char -> bool) (n : nat) :
  all_latin1_from n f = true -> forall a, nat_of_ascii a < n -> f (Latin1 a) = true.
Proof.
  induction n as [|n IH]; intros H a Ha; [lia|].
  cbn in H. apply andb_true_iff in H as [H1 H2].
  destruct (Nat.eq_dec (nat_of_ascii a) n) as [<-|Hne].
  - now rewrite ascii_nat_embedding in H1.
  - apply IH; [assumption|lia].
Qed.

Lemma all_chars (f : char -> bool) :
  all_chars_check f = true -> forall c, f c = true.
Proof.
  unfold all_chars_check. intros H c.
  apply andb_true_iff in H as [H H3]. apply andb_true_iff in H as [H1 H2].
  destruct c as [a| |]; [|assumption|assumption].
  apply (all_latin1_from_spec f 256 H1). apply nat_ascii_bounded.
Qed.

Lemma word_strb_spec (t : str) : word_strb t = true -> word_str t.
Proof. unfold word_strb, word_str. rewrite forallb_forall, Forall_forall. auto. Qed.

Lemma terms_ok_of (terms : list str) :
  forallb (fun t => negb (is_nil t) && word_strb t) terms = true ->
  Forall (fun t => t <> [] /\ word_str t) terms.
Proof.
  rewrite forallb_forall, Forall_forall. intros H t Ht.
  specialize (H t Ht). apply andb_true_iff in H as [H1 H2]. split.
  - destruct t; [discriminate|discriminate].
  - now apply word_strb_spec.
Qed.

Lemma opening_ok_of (opening : char -> bool) :
  all_chars_check (fun c => negb (opening c) || (negb (is_word c) && negb (is_space c))) = true ->
  forall c, opening c = true -> is_word c = false /\ is_space c = false.
Proof.
  intros H c Hc. pose proof (all_chars _ H c) as Hx. cbv beta in Hx.
  rewrite Hc in Hx. cbn [negb orb] in Hx. apply andb_true_iff in Hx as [H1 H2].
  split; now apply negb_true_iff.
Qed.

Lemma main_is_normalize (name : str) :
  Main.extract_core_name name
  = normalize Main.extensions Main.is_open Main.is_close [] Main.common_terms [] name.
Proof. reflexivity. Qed.

Lemma upgraded_is_normalize (name : str) :
  Upgraded.extract_core_name name
  = normalize Upgraded.extensions Upgraded.is_open Upgraded.is_close (lit " ")
      Upgraded.common_terms (lit " ") name.
Proof. reflexivity. Qed.

Lemma main_opening_ok c : Main.is_open c = true -> is_word c = false /\ is_space c = false.
Proof. apply opening_ok_of. vm_compute. reflexivity. Qed.

Lemma upgraded_opening_ok c :
  Upgraded.is_open c = true -> is_word c = false /\ is_space c = false.
Proof. apply opening_ok_of. vm_compute. reflexivity. Qed.

Lemma main_terms_ok : Forall (fun t => t <> [] /\ word_str t) Main.common_terms.
Proof. apply terms_ok_of. vm_compute. reflexivity. Qed.

Lemma upgraded_terms_ok : Forall (fun t => t <> [] /\ word_str t) Upgraded.common_terms.
Proof. apply terms_ok_of. vm_compute. reflexivity. Qed.

Lemma space_nonword : nonword_str (lit " ").
Proof. repeat constructor. Qed.

Lemma nil_nonword : nonword_str [].
Proof. constructor. Qed.

Lemma space_single : Forall single_lower (lit " ").
Proof. repeat constructor. discriminate. Qed.

End NormFacts.

(** ** Extensions and bracketed groups *)

Module StepFacts.
Import Py Re Aux CharFacts ReFacts RunFacts.

Section Extensions.

Variable exts : list str.
Hypothesis exts_ok : Forall word_str exts.

Lemma dot_not_word : is_word full_stop = false.
Proof. reflexivity. Qed.

(** No extension matches where a dot comes later in the name: the match
    would have to reach the end of the name over that dot. *)
Lemma m_ext_dot_later prev (c : char) (s1 s2 : str) :
  m_ext exts prev (c :: s1 ++ full_stop :: s2) = None.
Proof.
  unfold m_ext. destruct (is_dot c); [|reflexivity].
  rewrite find_none_all; [reflexivity|].
  intros e He. destruct (literal_i e _) as [rest|] eqn:El; [|reflexivity].
  apply literal_i_spec in El as (x & Hx & Hl).
  rewrite Forall_forall in exts_ok. pose proof (exts_ok e He) as Hw.
  assert (Hin : In full_stop (x ++ rest)).
  { rewrite <- Hx. apply in_or_app. right. now left. }
  apply in_app_or in Hin as [Hin|Hin].
  - exfalso. rewrite <- Hl in Hw. apply (proj1 (fold_word_str x)) in Hw.
    unfold word_str in Hw. rewrite Forall_forall in Hw.
    specialize (Hw _ Hin). vm_compute in Hw. discriminate.
  - destruct rest as [|d [|d' rest]]; [destruct Hin| |reflexivity].
    destruct Hin as [->|[]]. reflexivity.
Qed.

(** At the last dot, an extension of the list matches to the end. *)
Lemma m_ext_last prev (e : str) :
  In (fold e) exts -> m_ext exts prev (full_stop :: e) = Some (S (length e)).
Proof.
  intro He. unfold m_ext. change (is_dot full_stop) with true. cbv iota.
  set (pred := fun e0 => match literal_i e0 e with
                          | Some rest => at_end rest
                          | None => false
                          end).
  pose proof (find_existsb pred exts) as H.
  destruct (find pred exts) as [e'|].
  - destruct H as (Hin & Hp & _). unfold pred in Hp.
    destruct (literal_i e' e) as [rest|] eqn:El; [|discriminate].
    apply literal_i_spec in El as (x & Hx & Hl).
    destruct rest as [|d [|d' rest]]; [| |discriminate].
    + rewrite app_nil_r in Hx. subst x. now rewrite <- Hl, fold_length.
    + exfalso. simpl in Hp.
      rewrite Forall_forall in exts_ok. pose proof (exts_ok _ He) as Hw.
      apply (proj1 (fold_word_str e)) in Hw. rewrite Hx in Hw.
      unfold word_str in Hw. rewrite Forall_app in Hw. destruct Hw as [_ Hw].
      inversion Hw as [|? ? Hd _]; subst.
      rewrite (word_not_newline d Hd) in Hp. discriminate.
  - exfalso. assert (Hex : existsb pred exts = true).
    { apply existsb_exists. exists (fold e). split; [assumption|].
      unfold pred. assert (Hl : literal_i (fold e) e = Some []).
      { apply literal_i_spec. exists e. now rewrite app_nil_r. }
      now rewrite Hl. }
    congruence.
Qed.

Lemma m_ext_prev p p' (s : str) : m_ext exts p s = m_ext exts p' s.
Proof. reflexivity. Qed.

(** A trailing extension of the list is stripped, whatever its case. *)
Lemma strip_known_extension (s e : str) :
  In (fold e) exts -> re_sub (m_ext exts) [] (s ++ full_stop :: e) = s.
Proof.
  intro He. unfold re_sub. generalize (@None char) as prev.
  induction s as [|c s IH]; intro prev.
  - cbn [app sub]. rewrite m_ext_last by assumption.
    cbn [app]. rewrite sub_skip. rewrite skipn_all. reflexivity.
  - cbn [app sub]. rewrite m_ext_dot_later. f_equal. apply IH.
Qed.

(** A tail without a known extension stays, when the name has no
    extension before it either. *)
Lemma keep_unknown_extension (s tail : str) :
  (forall prev, sub (m_ext exts) [] prev 0 (full_stop :: tail) = full_stop :: tail) ->
  re_sub (m_ext exts) [] (s ++ full_stop :: tail) = s ++ full_stop :: tail.
Proof.
  intro Ht. unfold re_sub. generalize (@None char) as prev.
  induction s as [|c s IH]; intro prev.
  - apply Ht.
  - cbn [app sub]. rewrite m_ext_dot_later. f_equal. apply IH.
Qed.

End Extensions.

Section Groups.

Variables opening closing : char -> bool.
Variable grepl : str.

Lemma lazy_dots_group (t : str) (c : char) (s : str) :
  Forall (fun x => closing x = false /\ (code x =? 10) = false) t ->
  closing c = true ->
  lazy_dots closing (t ++ c :: s) = Some (length t).
Proof.
  intros Ht Hc. induction t as [|x t IH]; cbn [app lazy_dots length].
  - now rewrite Hc.
  - inversion Ht as [|? ? [H1 H2] Ht']; subst. rewrite H1, H2.
    now rewrite IH.
Qed.

(** A group that opens after a prefix without opening character, and that
    has no closing character and no newline inside, is replaced as a
    whole. *)
Lemma remove_group (p t s : str) (o c : char) :
  Forall (fun x => opening x = false) p ->
  opening o = true ->
  Forall (fun x => closing x = false /\ (code x =? 10) = false) t ->
  closing c = true ->
  re_sub (m_group opening closing) grepl (p ++ o :: t ++ c :: s)
  = p ++ grepl ++ re_sub (m_group opening closing) grepl s.
Proof.
  intros Hp Ho Ht Hc. unfold re_sub.
  enough (H : forall prev,
             sub (m_group opening closing) grepl prev 0 (p ++ o :: t ++ c :: s)
             = p ++ grepl ++ sub (m_group opening closing) grepl None 0 s) by apply H.
  induction p as [|x p IH]; intro prev.
  - cbn [app sub]. unfold m_group at 1. rewrite Ho.
    rewrite lazy_dots_group by assumption. cbn [option_map].
    f_equal. change (t ++ c :: s) with (t ++ [c] ++ s). rewrite app_assoc.
    replace (S (length t)) with (length (t ++ [c])) by (rewrite length_app; simpl; lia).
    rewrite sub_skip_app. now apply sub_prev_irrelevant.
  - inversion Hp as [|? ? Hx Hp']; subst.
    cbn [app sub]. unfold m_group at 1. rewrite Hx. f_equal. now apply IH.
Qed.

End Groups.

(** [[^\w\s]] on a name without underscore: what is neither alphanumeric
    nor white space becomes a space, the rest stays. *)
Lemma punct_no_underscore (s : str) :
  Forall (fun c => code c <> 95) s ->
  re_sub m_punct (lit " ") s
  = map (fun c => if is_alnum c || is_space c then c else space) s.
Proof.
  intro H. unfold re_sub. rewrite sub_punct. apply map_ext_in.
  intros c Hc. rewrite Forall_forall in H. specialize (H c Hc).
  unfold punct, is_word. apply Nat.eqb_neq in H. rewrite H.
  now rewrite orb_false_r.
Qed.

Lemma main_exts_ok : Forall word_str Main.extensions.
Proof.
  apply Forall_forall. intros e He. apply NormFacts.word_strb_spec.
  revert e He. apply forallb_forall. vm_compute. reflexivity.
Qed.

Lemma upgraded_exts_ok : Forall word_str Upgraded.extensions.
Proof.
  apply Forall_forall. intros e He. apply NormFacts.word_strb_spec.
  revert e He. apply forallb_forall. vm_compute. reflexivity.
Qed.

Lemma upgraded_keeps_gifs (s : str) :
  Upgraded.strip_extension (s ++ lit ".gifs") = s ++ lit ".gifs".
Proof.
  unfold Upgraded.strip_extension.
  apply (keep_unknown_extension _ upgraded_exts_ok s (lit "gifs")).
  intro prev. rewrite (sub_prev_irrelevant _ _ (m_ext_prev _) _ _ prev None).
  vm_compute. reflexivity.
Qed.

End StepFacts.

(** ** The sequence matcher *)

Module DiffFacts.
Import Py Difflib Aux CharFacts.

(** *** Where the longest match lies *)

Lemma j2len_pred_le (d : j2len_t) (m : nat) :
  (forall x, d x <= m) -> forall j, j2len_pred d j <= m.
Proof. intros H [|j]; simpl; [lia|apply H]. Qed.

Lemma scan_row_ok (alo blo bhi i : nat) (d : j2len_t) :
  alo <= i -> row_ok alo blo bhi i d ->
  forall js newd best,
    row_ok alo blo bhi (S i) newd -> block_in alo (S i) blo bhi best ->
    row_ok alo blo bhi (S i) (fst (scan_row blo bhi i d js newd best))
    /\ block_in alo (S i) blo bhi (snd (scan_row blo bhi i d js newd best)).
Proof.
  intros Hi Hd js. induction js as [|j js IH]; intros newd best Hn Hb; [now split|].
  cbn [scan_row]. destruct (j <? blo) eqn:E1; [now apply IH|].
  destruct (bhi <=? j) eqn:E2; [now split|].
  apply Nat.ltb_ge in E1. apply Nat.leb_gt in E2.
  destruct best as [[bi bj] bk].
  set (k := j2len_pred d j + 1).
  assert (Hk1 : k <= S i - alo).
  { subst k. pose proof (j2len_pred_le d (i - alo) (fun x => proj1 (Hd x)) j). lia. }
  assert (Hk2 : k <= j + 1 - blo).
  { subst k. destruct j as [|j']; cbn [j2len_pred]; [lia|].
    destruct (Nat.eq_dec (d j') 0) as [->|Hne]; [lia|].
    destruct (Hd j') as [_ H]. specialize (H Hne). lia. }
  apply IH.
  - intro x. unfold j2len_set. destruct (x =? j) eqn:Ex; [|apply Hn].
    apply Nat.eqb_eq in Ex. subst x. split; [assumption|]. intros _. lia.
  - destruct (bk <? k); [|assumption]. unfold block_in. lia.
Qed.

Lemma row_ok_empty (alo blo bhi i : nat) : row_ok alo blo bhi i j2len_empty.
Proof. intro x. unfold j2len_empty. split; [lia|congruence]. Qed.

Lemma block_in_mono (alo ahi ahi' blo bhi : nat) (t : block) :
  ahi <= ahi' -> block_in alo ahi blo bhi t -> block_in alo ahi' blo bhi t.
Proof. destruct t as [[i j] k]. unfold block_in. lia. Qed.

Lemma scan_rows_ok (a b : str) (alo blo bhi : nat) (n : nat) :
  forall i d best,
    alo <= i -> row_ok alo blo bhi i d -> block_in alo i blo bhi best ->
    block_in alo (i + n) blo bhi (scan_rows a b blo bhi (seq i n) d best).
Proof.
  induction n as [|n IH]; intros i d best Hi Hd Hb.
  - simpl. now rewrite Nat.add_0_r.
  - cbn [seq scan_rows].
    pose proof (scan_row_ok alo blo bhi i d Hi Hd (b2j b (at_ a i)) j2len_empty best
                  (row_ok_empty _ _ _ _) (block_in_mono _ _ _ _ _ _ (Nat.le_succ_diag_r i) Hb))
      as [H1 H2].
    destruct (scan_row blo bhi i d (b2j b (at_ a i)) j2len_empty best) as [newd best'].
    replace (i + S n) with (S i + n) by lia. apply IH; [lia|assumption|assumption].
Qed.

Lemma extend_left_ok (a b : str) (alo ahi blo bhi : nat) :
  forall i j k, block_in alo ahi blo bhi (i, j, k) ->
                block_in alo ahi blo bhi (extend_left a b alo blo i j k).
Proof.
  induction i as [|i IH]; intros j k H; [exact H|].
  destruct j as [|j]; [exact H|]. cbn [extend_left].
  destruct (_ && _) eqn:E; [|exact H].
  apply andb_true_iff in E as [E _]. apply andb_true_iff in E as [E1 E2].
  apply Nat.ltb_lt in E1, E2. apply IH. unfold block_in in *. lia.
Qed.

Lemma extend_right_ok (a b : str) (alo ahi blo bhi : nat) (n : nat) :
  forall i j k, block_in alo ahi blo bhi (i, j, k) ->
                block_in alo ahi blo bhi (extend_right n a b ahi bhi i j k).
Proof.
  induction n as [|n IH]; intros i j k H; [exact H|].
  cbn [extend_right]. destruct (_ && _) eqn:E; [|exact H].
  apply andb_true_iff in E as [E _]. apply andb_true_iff in E as [E1 E2].
  apply Nat.ltb_lt in E1, E2. apply IH. unfold block_in in *. lia.
Qed.

(** The rounds given to the second [while] are enough: it ends where its
    condition fails. *)
Lemma extend_right_stops (a b : str) (ahi bhi : nat) (n : nat) :
  forall i j k,
    ahi <= i + k + n ->
    let '(i', j', k') := extend_right n a b ahi bhi i j k in
    (i' + k' <? ahi) && (j' + k' <? bhi) && eqc (at_ a (i' + k')) (at_ b (j' + k'))
    = false.
Proof.
  induction n as [|n IH]; intros i j k H; cbn [extend_right].
  - assert (E : (i + k <? ahi) = false) by (apply Nat.ltb_ge; lia). now rewrite E.
  - destruct (_ && _) eqn:E; [|exact E]. apply IH.
    apply andb_true_iff in E as [E _]. apply andb_true_iff in E as [E _].
    apply Nat.ltb_lt in E. lia.
Qed.

(** The longest match of a region lies in the region. *)
Lemma find_longest_match_in (a b : str) (alo ahi blo bhi : nat) :
  alo <= ahi -> blo <= bhi ->
  block_in alo ahi blo bhi (find_longest_match a b alo ahi blo bhi).
Proof.
  intros Ha Hb. unfold find_longest_match.
  pose proof (scan_rows_ok a b alo blo bhi (ahi - alo) alo j2len_empty (alo, blo, 0)
                (Nat.le_refl _) (row_ok_empty _ _ _ _)) as H.
  replace (alo + (ahi - alo)) with ahi in H by lia.
  specialize (H ltac:(unfold block_in; lia)).
  destruct (scan_rows _ _ _ _ _ _ _) as [[i j] k].
  pose proof (extend_left_ok a b alo ahi blo bhi i j k H) as H'.
  destruct (extend_left _ _ _ _ _ _ _) as [[i' j'] k'].
  now apply extend_right_ok.
Qed.

(** *** The loop of [get_matching_blocks] *)

Lemma total_app {A : Type} (f : A -> nat) (l1 l2 : list A) :
  total f (l1 ++ l2) = total f l1 + total f l2.
Proof. induction l1 as [|x l1 IH]; simpl; [reflexivity|]. rewrite IH. lia. Qed.

(** The regions pushed for a match lie in the region, and weigh and hold
    less than it. *)
Lemma pushed_regions (alo ahi blo bhi i j k : nat) (rest : list region) :
  block_in alo ahi blo bhi (i, j, k) -> k <> 0 -> Forall region_ok rest ->
  let q1 := if (alo <? i) && (blo <? j) then (alo, i, blo, j) :: rest else rest in
  let q2 := if (i + k <? ahi) && (j + k <? bhi) then (i + k, ahi, j + k, bhi) :: q1 else q1 in
  Forall region_ok q2
  /\ k + total capacity q2 <= capacity (alo, ahi, blo, bhi) + total capacity rest
  /\ total weight q2 < weight (alo, ahi, blo, bhi) + total weight rest.
Proof.
  intros H Hk Hrest. unfold block_in in H.
  destruct ((alo <? i) && (blo <? j)); destruct ((i + k <? ahi) && (j + k <? bhi));
    cbn zeta; repeat split; repeat constructor; try assumption;
    unfold total; cbn [fold_right capacity weight]; try lia.
Qed.

(** The blocks found cover no more than the regions of the queue can hold. *)
Lemma blocks_loop_bound (a b : str) (n : nat) :
  forall queue acc,
    Forall region_ok queue ->
    total snd (snd (blocks_loop n a b queue acc))
    <= total snd acc + total capacity queue.
Proof.
  induction n as [|n IH]; intros queue acc Hq; [simpl; lia|].
  destruct queue as [|r rest]; [simpl; lia|].
  destruct r as [[[alo ahi] blo] bhi].
  inversion Hq as [|? ? Hr Hrest]; subst. destruct Hr as [Ha Hb].
  cbn [blocks_loop].
  pose proof (find_longest_match_in a b alo ahi blo bhi Ha Hb) as Hin.
  destruct (find_longest_match a b alo ahi blo bhi) as [[i j] k].
  destruct (k =? 0) eqn:Ek.
  - specialize (IH rest acc Hrest). unfold total in *. cbn [fold_right] in *. lia.
  - apply Nat.eqb_neq in Ek.
    destruct (pushed_regions alo ahi blo bhi i j k rest Hin Ek Hrest) as (H1 & H2 & _).
    cbv zeta in H1, H2.
    match goal with |- context [blocks_loop n a b ?q ?acc'] =>
      specialize (IH q acc' H1) end.
    rewrite total_app in IH. unfold total in *. cbn [fold_right snd] in *. lia.
Qed.

(** The rounds of [rounds] empty the queue: the loop ends by itself. *)
Lemma blocks_loop_ends (a b : str) (n : nat) :
  forall queue acc,
    Forall region_ok queue -> total weight queue <= n ->
    fst (blocks_loop n a b queue acc) = [].
Proof.
  induction n as [|n IH]; intros queue acc Hq Hw.
  - destruct queue as [|r rest]; [reflexivity|].
    destruct r as [[[alo ahi] blo] bhi].
    unfold total in Hw. cbn [fold_right weight] in Hw. lia.
  - destruct queue as [|r rest]; [reflexivity|].
    destruct r as [[[alo ahi] blo] bhi].
    inversion Hq as [|? ? Hr Hrest]; subst. destruct Hr as [Ha Hb].
    cbn [blocks_loop].
    pose proof (find_longest_match_in a b alo ahi blo bhi Ha Hb) as Hin.
    destruct (find_longest_match a b alo ahi blo bhi) as [[i j] k].
    destruct (k =? 0) eqn:Ek.
    + apply IH; [assumption|]. unfold total in *. cbn [fold_right weight] in Hw. lia.
    + apply Nat.eqb_neq in Ek.
      destruct (pushed_regions alo ahi blo bhi i j k rest Hin Ek Hrest) as (H1 & _ & H3).
      cbv zeta in H1, H3. apply IH; [assumption|].
      unfold total in *. cbn [fold_right] in Hw. lia.
Qed.

Lemma blocks_loop_empties (a b : str) :
  fst (blocks_loop (rounds a) a b [(0, length a, 0, length b)] []) = [].
Proof.
  apply blocks_loop_ends.
  - repeat constructor; lia.
  - unfold rounds, total. cbn [fold_right weight]. lia.
Qed.

(** No more characters match than the shorter string has. *)
Lemma matches_le_min (a b : str) : matches a b <= Nat.min (length a) (length b).
Proof.
  unfold matches, get_matching_blocks.
  pose proof (blocks_loop_bound a b (rounds a) [(0, length a, 0, length b)] []
                ltac:(repeat constructor; lia)) as H.
  unfold total in H. cbn [fold_right capacity] in H.
  rewrite !Nat.sub_0_r, Nat.add_0_r in H. exact H.
Qed.

Local Open Scope Q_scope.

Lemma of_nat_nonneg (n : nat) : 0 <= of_nat n.
Proof. unfold of_nat, Qle. simpl. lia. Qed.

Lemma of_nat_pos (n : nat) : (0 < n)%nat -> 0 < of_nat n.
Proof. unfold of_nat, Qlt. simpl. lia. Qed.

Lemma of_nat_le (n m : nat) : (n <= m)%nat -> of_nat n <= of_nat m.
Proof. unfold of_nat, Qle. simpl. lia. Qed.

Lemma of_nat_add (n m : nat) : of_nat (n + m) == of_nat n + of_nat m.
Proof. unfold of_nat. rewrite Nat2Z.inj_add, inject_Z_plus. reflexivity. Qed.

Lemma calculate_ratio_range (m len : nat) :
  (2 * m <= len)%nat -> 0 <= calculate_ratio m len /\ calculate_ratio m len <= 1.
Proof.
  intro H. unfold calculate_ratio. destruct (len =? 0)%nat eqn:E.
  - split; [discriminate|apply Qle_refl].
  - apply Nat.eqb_neq in E.
    assert (Hl : 0 < of_nat len) by (apply of_nat_pos; lia).
    assert (Hm : 0 <= of_nat m) by apply of_nat_nonneg.
    assert (H2 : 2 * of_nat m <= of_nat len).
    { apply of_nat_le in H. replace (2 * m)%nat with (m + m)%nat in H by lia.
      rewrite of_nat_add in H. lra. }
    split.
    + apply Qle_shift_div_l; [assumption|]. lra.
    + apply Qle_shift_div_r; [assumption|]. lra.
Qed.

(** The ratio is between 0 and 1. *)
Lemma ratio_range (a b : str) : 0 <= ratio a b /\ ratio a b <= 1.
Proof.
  unfold ratio. apply calculate_ratio_range.
  pose proof (matches_le_min a b). lia.
Qed.

(** Against the empty string nothing matches. *)
Lemma matches_nil_r (a : str) : matches a [] = 0%nat.
Proof. pose proof (matches_le_min a []). simpl in H. lia. Qed.

Lemma matches_nil_l (b : str) : matches [] b = 0%nat.
Proof. pose proof (matches_le_min [] b). simpl in H. lia. Qed.

Lemma ratio_nil_r (a : str) : a <> [] -> ratio a [] == 0.
Proof.
  intro H. unfold ratio, calculate_ratio. rewrite matches_nil_r.
  destruct a as [|c a]; [congruence|]. cbn [length Nat.add Nat.eqb].
  unfold of_nat at 1. change (inject_Z (Z.of_nat 0)) with 0.
  unfold Qdiv. now rewrite Qmult_0_r, Qmult_0_l.
Qed.

Lemma ratio_nil_l (b : str) : b <> [] -> ratio [] b == 0.
Proof.
  intro H. unfold ratio, calculate_ratio. rewrite matches_nil_l.
  destruct b as [|c b]; [congruence|]. cbn [length Nat.add Nat.eqb].
  unfold of_nat at 1. change (inject_Z (Z.of_nat 0)) with 0.
  unfold Qdiv. now rewrite Qmult_0_r, Qmult_0_l.
Qed.

Lemma ratio_nil_nil : ratio [] [] == 1.
Proof. reflexivity. Qed.

End DiffFacts.

(** ** A string against itself *)

Module DiagFacts.
Import Py Difflib Aux CharFacts DiffFacts.

Lemma diag_eq (a : str) (j : nat) :
  diag a j = if popular a (at_ a j) then 0 else diag_pred a j + 1.
Proof. destruct j; reflexivity. Qed.

Lemma indices_from_in (c : char) (b : str) :
  forall i0 j, In j (indices_from i0 c b) <->
               i0 <= j /\ j < i0 + length b /\ at_ b (j - i0) = c.
Proof.
  induction b as [|d b IH]; intros i0 j; cbn [indices_from length].
  - split; [intros []|lia].
  - assert (Hrec : In j (indices_from (S i0) c b) <->
                   i0 < j /\ j < i0 + S (length b) /\ at_ (d :: b) (j - i0) = c).
    { rewrite IH. unfold at_. split.
      - intros (H1 & H2 & H3). repeat split; try lia.
        replace (j - i0) with (S (j - S i0)) by lia. exact H3.
      - intros (H1 & H2 & H3). repeat split; try lia.
        replace (j - i0) with (S (j - S i0)) in H3 by lia. exact H3. }
    destruct (eqc c d) eqn:E.
    + apply eqc_eq in E. subst d. cbn [In]. rewrite Hrec. split.
      * intros [<-|(H1 & H2 & H3)].
        -- repeat split; try lia. now rewrite Nat.sub_diag.
        -- repeat split; try lia. assumption.
      * intros (H1 & H2 & H3). destruct (Nat.eq_dec i0 j) as [->|Hne]; [now left|].
        right. repeat split; try lia. assumption.
    + rewrite Hrec. split.
      * intros (H1 & H2 & H3). repeat split; try lia. assumption.
      * intros (H1 & H2 & H3). destruct (Nat.eq_dec i0 j) as [->|Hne].
        -- rewrite Nat.sub_diag in H3. unfold at_ in H3. simpl in H3. subst d.
           rewrite eqc_refl in E. discriminate.
        -- repeat split; try lia. assumption.
Qed.

Lemma indices_from_sorted (c : char) (b : str) :
  forall i0, StronglySorted lt (indices_from i0 c b).
Proof.
  induction b as [|d b IH]; intro i0; cbn [indices_from]; [constructor|].
  destruct (eqc c d); [|apply IH].
  constructor; [apply IH|]. apply Forall_forall. intros j Hj.
  apply indices_from_in in Hj. lia.
Qed.

Section Diagonal.

Variable a : str.

(** One row of the scan of [a] against [a]: the best match stays on the
    diagonal, and no shorter than the diagonal runs met so far. *)
Lemma scan_row_diag (i : nat) (d : j2len_t) :
  i < length a -> popular a (at_ a i) = false ->
  (forall y, d y <= diag_pred a i) -> j2len_pred d i = diag_pred a i ->
  (forall y, d y <= diag a y) ->
  forall js newd bi bk,
    StronglySorted lt js ->
    (forall j, In j js -> j < length a /\ at_ a j = at_ a i) ->
    (forall j', j' < i -> diag a j' <= bk) ->
    (In i js \/ (diag a i <= bk /\ newd i = diag a i)) ->
    (forall y, newd y <= diag a i) -> (forall y, newd y <= diag a y) ->
    exists newd' bi' bk',
      scan_row 0 (length a) i d js newd (bi, bi, bk) = (newd', (bi', bi', bk'))
      /\ (forall j', j' <= i -> diag a j' <= bk')
      /\ (forall y, newd' y <= diag a i) /\ newd' i = diag a i
      /\ (forall y, newd' y <= diag a y).
Proof.
  intros Hi Hpop Hd1 Hd2 Hd3 js.
  assert (Hdi : diag a i = diag_pred a i + 1) by (now rewrite diag_eq, Hpop).
  induction js as [|j js IH]; intros newd bi bk Hs Hjs Hbk Hin Hn1 Hn3.
  - destruct Hin as [[]|[H1 H2]]. exists newd, bi, bk. repeat split; auto.
    intros j' Hj'. destruct (Nat.eq_dec j' i) as [->|]; [assumption|apply Hbk; lia].
  - cbn [scan_row]. change (j <? 0) with false. cbv iota.
    destruct (Hjs j (or_introl eq_refl)) as [Hjn Hjc].
    destruct (length a <=? j) eqn:E; [apply Nat.leb_le in E; lia|].
    inversion Hs as [|? ? Hs' Hall]; subst.
    set (k := j2len_pred d j + 1).
    assert (Hk1 : k <= diag a i).
    { subst k. pose proof (j2len_pred_le d _ Hd1 j). lia. }
    assert (Hk2 : k <= diag a j).
    { subst k. rewrite (diag_eq a j), Hjc, Hpop.
      destruct j as [|j']; cbn [j2len_pred diag_pred]; [lia|].
      specialize (Hd3 j'). lia. }
    assert (Hn1' : forall y, j2len_set newd j k y <= diag a i).
    { intro y. unfold j2len_set. destruct (y =? j); [assumption|apply Hn1]. }
    assert (Hn3' : forall y, j2len_set newd j k y <= diag a y).
    { intro y. unfold j2len_set. destruct (y =? j) eqn:Ey; [|apply Hn3].
      apply Nat.eqb_eq in Ey. now subst y. }
    assert (Hjs' : forall j0, In j0 js -> j0 < length a /\ at_ a j0 = at_ a i).
    { intros j0 H0. apply Hjs. now right. }
    destruct (Nat.lt_trichotomy j i) as [Hlt|[Heq|Hgt]].
    + (* before the diagonal *)
      assert (Hno : (bk <? k) = false).
      { apply Nat.ltb_ge. specialize (Hbk j Hlt). lia. }
      rewrite Hno. apply IH; auto.
      destruct Hin as [[H|H]|[H1 H2]]; [lia|now left|right].
      split; [assumption|]. unfold j2len_set.
      destruct (i =? j) eqn:Ei; [apply Nat.eqb_eq in Ei; lia|assumption].
    + (* on the diagonal *)
      subst j. assert (Hk : k = diag a i) by (subst k; lia).
      assert (Hset : j2len_set newd i k i = diag a i).
      { unfold j2len_set. now rewrite Nat.eqb_refl. }
      destruct (bk <? k) eqn:Eb.
      * apply Nat.ltb_lt in Eb. apply IH; auto.
        -- intros j' Hj'. specialize (Hbk j' Hj'). lia.
        -- right. split; [lia|assumption].
      * apply Nat.ltb_ge in Eb. apply IH; auto.
        right. split; [lia|assumption].
    + (* after the diagonal: the diagonal has been met *)
      assert (Hdone : diag a i <= bk /\ newd i = diag a i).
      { destruct Hin as [[H|H]|H]; [lia| |assumption].
        rewrite Forall_forall in Hall. specialize (Hall i H). lia. }
      destruct Hdone as [H1 H2].
      assert (Hno : (bk <? k) = false) by (apply Nat.ltb_ge; lia).
      rewrite Hno. apply IH; auto.
      right. split; [assumption|]. unfold j2len_set.
      destruct (i =? j) eqn:Ei; [apply Nat.eqb_eq in Ei; lia|assumption].
Qed.

Lemma scan_rows_diag (m : nat) :
  forall i d bi bk,
    i + m = length a ->
    (forall y, d y <= diag_pred a i) -> j2len_pred d i = diag_pred a i ->
    (forall y, d y <= diag a y) ->
    (forall j', j' < i -> diag a j' <= bk) ->
    exists bi' bk',
      scan_rows a a 0 (length a) (seq i m) d (bi, bi, bk) = (bi', bi', bk').
Proof.
  induction m as [|m IH]; intros i d bi bk Hm Hd1 Hd2 Hd3 Hbk.
  - now exists bi, bk.
  - cbn [seq scan_rows]. unfold b2j.
    destruct (popular a (at_ a i)) eqn:Hpop.
    + cbn [scan_row]. apply IH; try lia.
      * intro y. unfold j2len_empty. lia.
      * cbn [j2len_pred diag_pred]. rewrite diag_eq, Hpop. reflexivity.
      * intro y. unfold j2len_empty. lia.
      * intros j' Hj'. destruct (Nat.eq_dec j' i) as [->|].
        -- rewrite diag_eq, Hpop. lia.
        -- apply Hbk. lia.
    + destruct (scan_row_diag i d ltac:(lia) Hpop Hd1 Hd2 Hd3
                  (indices_from 0 (at_ a i) a) j2len_empty bi bk)
        as (newd' & bi' & bk' & Hr & H1 & H2 & H3 & H4).
      * apply indices_from_sorted.
      * intros j Hj. apply indices_from_in in Hj as (_ & Hj2 & Hj3).
        rewrite Nat.sub_0_r in Hj3. split; [lia|assumption].
      * assumption.
      * left. apply indices_from_in. rewrite Nat.sub_0_r. repeat split; lia.
      * intro y. unfold j2len_empty. lia.
      * intro y. unfold j2len_empty. lia.
      * rewrite Hr. apply IH; try lia; auto.
        intros j' Hj'. apply H1. lia.
Qed.

Lemma extend_left_diag :
  forall i k, extend_left a a 0 0 i i k = (0, 0, i + k).
Proof.
  induction i as [|i IH]; intro k; [reflexivity|].
  cbn [extend_left]. change (0 <? S i) with true. rewrite eqc_refl. cbn [andb].
  rewrite IH. f_equal. lia.
Qed.

Lemma extend_right_diag (m : nat) :
  forall k, k + m = length a ->
            extend_right m a a (length a) (length a) 0 0 k = (0, 0, length a).
Proof.
  induction m as [|m IH]; intros k Hk.
  - cbn [extend_right]. repeat f_equal. lia.
  - cbn [extend_right]. cbn [Nat.add].
    assert (E : (k <? length a) = true) by (apply Nat.ltb_lt; lia).
    rewrite E, eqc_refl. cbn [andb]. apply IH. lia.
Qed.

(** The longest match of a string with itself is the whole string. *)
Lemma find_longest_match_self :
  find_longest_match a a 0 (length a) 0 (length a) = (0, 0, length a).
Proof.
  pose proof (find_longest_match_in a a 0 (length a) 0 (length a)
                (Nat.le_0_l _) (Nat.le_0_l _)) as Hin.
  unfold find_longest_match in *. rewrite Nat.sub_0_r in *.
  pose proof (scan_rows_ok a a 0 0 (length a) (length a) 0 j2len_empty (0, 0, 0)
                (Nat.le_refl _) (row_ok_empty _ _ _ _) ltac:(unfold block_in; lia)) as Hb.
  destruct (scan_rows_diag (length a) 0 j2len_empty 0 0) as (bi & bk & Hr); try lia.
  - intro y. unfold j2len_empty. cbn [diag_pred]. lia.
  - reflexivity.
  - intro y. unfold j2len_empty. lia.
  - rewrite Hr in *. cbn [Nat.add] in Hb. unfold block_in in Hb.
    rewrite extend_left_diag. cbn [Nat.add].
    apply extend_right_diag. lia.
Qed.

Lemma blocks_loop_nil (m : nat) (b : str) (acc : list block) :
  blocks_loop m a b [] acc = ([], acc).
Proof. destruct m; reflexivity. Qed.

Lemma matches_self : matches a a = length a.
Proof.
  unfold matches, get_matching_blocks, rounds.
  replace (2 * length a + 1) with (S (2 * length a)) by lia.
  cbn [blocks_loop]. rewrite find_longest_match_self. cbv iota beta.
  destruct (length a =? 0) eqn:E.
  - rewrite blocks_loop_nil. apply Nat.eqb_eq in E. now rewrite E.
  - change (0 <? 0) with false. cbn [andb Nat.add]. rewrite Nat.ltb_irrefl.
    rewrite blocks_loop_nil. cbn. lia.
Qed.

Local Open Scope Q_scope.

(** A non-empty string is wholly similar to itself. *)
Lemma ratio_self : a <> [] -> ratio a a == 1.
Proof.
  intro H. unfold ratio, calculate_ratio. rewrite matches_self.
  destruct a as [|c a']; [congruence|].
  cbn [length Nat.add Nat.eqb].
  set (n := S (length a')). replace (S (length a' + n))%nat with (n + n)%nat by (subst n; lia).
  rewrite of_nat_add.
  assert (0 < of_nat n) by (apply of_nat_pos; subst n; lia).
  field. lra.
Qed.

End Diagonal.

End DiagFacts.

(** ** Word sets *)

Module SetFacts.
Import Py Aux.

Lemma mem_in (w : str) (A : list str) : mem w A = true <-> In w A.
Proof. unfold mem. destruct (in_dec str_dec w A); split; auto; discriminate. Qed.

Lemma mem_nodup (w : str) (A : list str) : mem w (nodup str_dec A) = mem w A.
Proof.
  destruct (mem w A) eqn:E.
  - apply mem_in. apply nodup_In. now apply mem_in.
  - destruct (mem w (nodup str_dec A)) eqn:E'; [|reflexivity].
    apply mem_in in E'. apply nodup_In in E'. apply mem_in in E'. congruence.
Qed.

Lemma is_nil_nodup (A : list str) : is_nil (nodup str_dec A) = is_nil A.
Proof.
  destruct A as [|w A]; [reflexivity|].
  destruct (nodup str_dec (w :: A)) eqn:E; [|reflexivity].
  exfalso. assert (H : In w (nodup str_dec (w :: A))) by (apply nodup_In; now left).
  now rewrite E in H.
Qed.

Lemma nodup_filter (f : str -> bool) (A : list str) :
  nodup str_dec (filter f A) = filter f (nodup str_dec A).
Proof.
  induction A as [|w A IH]; [reflexivity|].
  cbn [filter nodup]. destruct (f w) eqn:E.
  - cbn [nodup]. destruct (in_dec str_dec w (filter f A)) as [H|H];
      destruct (in_dec str_dec w A) as [H'|H'].
    + exact IH.
    + apply filter_In in H as [H _]. contradiction.
    + exfalso. apply H. apply filter_In. now split.
    + cbn [filter]. rewrite E. now f_equal.
  - destruct (in_dec str_dec w A); [exact IH|]. cbn [filter]. now rewrite E.
Qed.

Lemma same_elements_length (A B : list str) :
  NoDup A -> NoDup B -> (forall w, In w A <-> In w B) -> length A = length B.
Proof.
  intros HA HB H. apply Nat.le_antisymm; apply NoDup_incl_length; auto;
    intros w Hw; now apply H.
Qed.

Lemma union_length (A B : list str) :
  length (union (set_of A) (set_of B)) = length (nodup str_dec (A ++ B)).
Proof.
  unfold union, set_of. apply same_elements_length; try apply NoDup_nodup.
  intro w. rewrite !nodup_In, !in_app_iff, !nodup_In. reflexivity.
Qed.

Lemma intersection_length (A B : list str) :
  length (intersection (set_of A) (set_of B))
  = length (nodup str_dec (filter (fun w => mem w B) A)).
Proof.
  unfold intersection, set_of. rewrite nodup_filter. f_equal.
  apply filter_ext. intro w. apply mem_nodup.
Qed.

(** The common words are among the words of either set. *)
Lemma intersection_le_union (A B : list str) :
  length (intersection (set_of A) (set_of B)) <= length (union (set_of A) (set_of B)).
Proof.
  unfold intersection, union, set_of.
  transitivity (length (nodup str_dec A)); [apply filter_length_le|].
  apply NoDup_incl_length; [apply NoDup_nodup|].
  intros w Hw. apply nodup_In. apply in_or_app. now left.
Qed.

Lemma max_le_union (A B : list str) :
  Nat.max (length (set_of A)) (length (set_of B)) <= length (union (set_of A) (set_of B)).
Proof.
  unfold union, set_of. apply Nat.max_lub.
  - apply NoDup_incl_length; [apply NoDup_nodup|].
    intros w Hw. apply nodup_In. apply in_or_app. now left.
  - apply NoDup_incl_length; [apply NoDup_nodup|].
    intros w Hw. apply nodup_In. apply in_or_app. now right.
Qed.

Lemma set_of_length_pos (A : list str) : is_nil (set_of A) = false -> 0 < length (set_of A).
Proof. destruct (set_of A); [discriminate|simpl; lia]. Qed.

End SetFacts.

(** ** Scores *)

Module ScoreFacts.
Import Py Aux DiffFacts DiagFacts SetFacts.

Local Open Scope Q_scope.

Lemma gt_spec (x y : Q) : gt x y = true <-> y < x.
Proof.
  unfold gt. rewrite negb_true_iff. split.
  - intro H. apply Qnot_le_lt. intro Hle. apply Qle_bool_iff in Hle. congruence.
  - intro H. destruct (Qle_bool x y) eqn:E; [|reflexivity].
    apply Qle_bool_iff in E. apply Qlt_not_le in H. contradiction.
Qed.

Lemma gt_false (x y : Q) : gt x y = false <-> x <= y.
Proof.
  unfold gt. rewrite negb_false_iff. apply Qle_bool_iff.
Qed.

Lemma ge_spec (x y : Q) : ge x y = true <-> y <= x.
Proof. unfold ge. apply Qle_bool_iff. Qed.

Lemma ge_false (x y : Q) : ge x y = false <-> x < y.
Proof.
  unfold ge. split.
  - intro H. apply Qnot_le_lt. intro Hle. apply Qle_bool_iff in Hle. congruence.
  - intro H. destruct (Qle_bool y x) eqn:E; [|reflexivity].
    apply Qle_bool_iff in E. apply Qlt_not_le in H. contradiction.
Qed.

Lemma max2_ub (x y : Q) : x <= max2 x y /\ y <= max2 x y.
Proof.
  unfold max2. destruct (gt y x) eqn:E.
  - apply gt_spec in E. split; lra.
  - apply gt_false in E. split; lra.
Qed.

Lemma max2_cases (x y : Q) : max2 x y = x \/ max2 x y = y.
Proof. unfold max2. destruct (gt y x); auto. Qed.

Lemma div_range (n m : nat) : (n <= m)%nat -> 0 <= of_nat n / of_nat m <= 1.
Proof.
  intro H. destruct m as [|m].
  - assert (n = 0)%nat by lia. subst n. split; discriminate.
  - assert (Hm : 0 < of_nat (S m)) by (apply of_nat_pos; lia).
    pose proof (of_nat_nonneg n). pose proof (of_nat_le n (S m) H). split.
    + apply Qle_shift_div_l; [assumption|]. lra.
    + apply Qle_shift_div_r; [assumption|]. lra.
Qed.

(** The three strict signals, in both scripts. *)
Lemma main_similarity_range (a b : str) :
  0 <= Main.similarity_score a b <= 1.
Proof. apply ratio_range. Qed.

Lemma upgraded_similarity_range (a b : str) :
  0 <= Upgraded.similarity_score a b <= 1.
Proof.
  unfold Upgraded.similarity_score. destruct (is_nil a || is_nil b).
  - split; discriminate.
  - apply ratio_range.
Qed.

Lemma main_contains_range (a b : str) :
  0 <= Main.contains_score a b <= 0.8.
Proof. unfold Main.contains_score. destruct (_ || _); split; discriminate. Qed.

Lemma upgraded_contains_range (a b : str) :
  0 <= Upgraded.contains_score a b <= 0.8.
Proof.
  unfold Upgraded.contains_score.
  destruct (_ && _); [destruct (_ || _)|]; split; discriminate.
Qed.

Lemma main_overlap_range (a b : str) : 0 <= Main.word_overlap a b <= 1.
Proof.
  unfold Main.word_overlap. cbv zeta. destruct (_ && _); [|split; discriminate].
  apply div_range. apply intersection_le_union.
Qed.

Lemma upgraded_overlap_range (a b : str) : 0 <= Upgraded.word_overlap a b <= 1.
Proof.
  unfold Upgraded.word_overlap. cbv zeta. destruct (_ && _); [|split; discriminate].
  apply div_range. apply intersection_le_union.
Qed.

Lemma blend_range (s c w : Q) :
  0 <= s <= 1 -> 0 <= c <= 0.8 -> 0 <= w <= 1 ->
  0 <= s * 0.5 + c * 0.3 + w * 0.2 <= 0.94.
Proof. intros. split; lra. Qed.

Lemma main_total_range (a b : str) : 0 <= Main.total_score a b <= 0.94.
Proof.
  unfold Main.total_score. apply blend_range;
    [apply main_similarity_range|apply main_contains_range|apply main_overlap_range].
Qed.

Lemma upgraded_total_range (a b : str) : 0 <= Upgraded.total_score a b <= 0.94.
Proof.
  unfold Upgraded.total_score. apply blend_range;
    [apply upgraded_similarity_range|apply upgraded_contains_range
    |apply upgraded_overlap_range].
Qed.

End ScoreFacts.

(** ** Selection *)

Module SelectFacts.
Import Py Aux Spec ScoreFacts.

Local Open Scope Q_scope.

Section Loop.

Context {X : Type}.
Variable score : X -> Q.
Variable loc : X -> str.
Variable threshold : Q.

(** Entries below the threshold change nothing. *)
Lemma select_loop_below (items : list X) :
  forall bm bs,
    (forall x, In x items -> score x < threshold) ->
    select_loop score loc threshold items bm bs = (bm, bs).
Proof.
  induction items as [|x items IH]; intros bm bs H; [reflexivity|].
  cbn [select_loop].
  assert (E : ge (score x) threshold = false).
  { apply ge_false. apply H. now left. }
  rewrite E, andb_false_r. apply IH. intros y Hy. apply H. now right.
Qed.

(** Entries no better than the incumbent change nothing. *)
Lemma select_loop_no_better (items : list X) :
  forall bm bs,
    (forall x, In x items -> score x <= bs) ->
    select_loop score loc threshold items bm bs = (bm, bs).
Proof.
  induction items as [|x items IH]; intros bm bs H; [reflexivity|].
  cbn [select_loop].
  assert (E : gt (score x) bs = false).
  { apply gt_false. apply H. now left. }
  rewrite E. cbn [andb]. apply IH. intros y Hy. apply H. now right.
Qed.

(** Entries worse than [m] leave an incumbent worse than [m]. *)
Lemma select_loop_worse (m : Q) (pre rest : list X) :
  forall bm bs,
    bs < m -> (forall y, In y pre -> score y < m) ->
    exists bm' bs',
      select_loop score loc threshold (pre ++ rest) bm bs
      = select_loop score loc threshold rest bm' bs'
      /\ bs' < m.
Proof.
  induction pre as [|y pre IH]; intros bm bs Hbs Hpre.
  - now exists bm, bs.
  - cbn [app select_loop]. destruct (_ && _).
    + apply IH; [apply Hpre; now left|]. intros z Hz. apply Hpre. now right.
    + apply IH; [assumption|]. intros z Hz. apply Hpre. now right.
Qed.

(** The first of the best entries wins, when its score is positive and
    reaches the threshold. *)
Lemma select_loop_first_best (items : list X) (x : X) :
  first_best score items x -> 0 < score x -> threshold <= score x ->
  select_loop score loc threshold items None 0 = (Some (loc x), score x).
Proof.
  intros (pre & post & -> & Hpre & Hpost) Hpos Ht.
  destruct (select_loop_worse (score x) pre (x :: post) None 0 Hpos Hpre)
    as (bm' & bs' & -> & Hbs').
  cbn [select_loop].
  assert (E1 : gt (score x) bs' = true) by now apply gt_spec.
  assert (E2 : ge (score x) threshold = true) by now apply ge_spec.
  rewrite E1, E2. cbn [andb]. now apply select_loop_no_better.
Qed.



End Loop.

(** The loops of the two scripts are this loop. *)
Lemma upgraded_best_loop (folder_name : str) (threshold : Q) (items : Upgraded.index) :
  forall bm bs,
    Upgraded.best_loop (Upgraded.extract_core_name folder_name) threshold items bm bs
    = select_loop (upgraded_strict folder_name) snd threshold items bm bs.
Proof.
  induction items as [|[f p] items IH]; intros bm bs; [reflexivity|].
  cbn [Upgraded.best_loop select_loop]. unfold upgraded_strict at 1 2 3. cbn [fst snd].
  destruct (_ && _); apply IH.
Qed.

Lemma main_best_loop (path_join : str -> str -> str) (folder_name d : str)
      (threshold : Q) (listing : list str) :
  forall bm bs,
    Main.best_loop path_join (Main.extract_core_name folder_name) d threshold listing bm bs
    = select_loop (main_strict folder_name) (path_join d) threshold
        (filter Main.is_video listing) bm bs.
Proof.
  induction listing as [|f listing IH]; intros bm bs; [reflexivity|].
  cbn [Main.best_loop filter]. destruct (Main.is_video f); cbn [negb].
  - cbn [select_loop]. unfold main_strict at 1 2 3. destruct (_ && _); apply IH.
  - apply IH.
Qed.

(** The best of a list is no worse than any entry. *)
Lemma first_best_max {X : Type} (score : X -> Q) (l : list X) (x : X) :
  first_best score l x -> forall y, In y l -> score y <= score x.
Proof.
  intros (pre & post & -> & Hpre & Hpost) y Hy.
  apply in_app_or in Hy as [Hy|[<-|Hy]].
  - apply Qlt_le_weak. now apply Hpre.
  - apply Qle_refl.
  - now apply Hpost.
Qed.

Lemma first_best_cons_worse {X : Type} (score : X -> Q) (l : list X) (x y : X) :
  first_best score l x -> score y < score x -> first_best score (y :: l) x.
Proof.
  intros (pre & post & -> & Hpre & Hpost) Hy.
  exists (y :: pre), post. repeat split; auto.
  intros z [<-|Hz]; auto.
Qed.

Lemma first_best_head {X : Type} (score : X -> Q) (l : list X) (x : X) :
  (forall y, In y l -> score y <= score x) -> first_best score (x :: l) x.
Proof. intro H. exists [], l. repeat split; auto. intros y []. Qed.

(** The relaxed strategy of [upgraded.py]: the head of the sorted
    candidates is the first of the best entries of the index. *)
Lemma upgraded_sorted_head (folder_name : str) (low : Q) (video_index : Upgraded.index) :
  match Upgraded.sort_desc
          (Upgraded.candidates_of (Upgraded.clean_folder_of folder_name) low video_index) with
  | [] => forall e, In e video_index -> upgraded_relaxed folder_name e < low
  | (s, p) :: _ =>
      exists e, first_best (upgraded_relaxed folder_name) video_index e
                /\ p = snd e /\ s = upgraded_relaxed folder_name e /\ low <= s
  end.
Proof.
  induction video_index as [|[f p] idx IH];
    [cbn; intros e He; contradiction|].
  cbn [Upgraded.candidates_of fst].
  change (Upgraded.combined_score (Upgraded.clean_folder_of folder_name)
                                 (Upgraded.clean_video_of f))
    with (upgraded_relaxed folder_name (f, p)).
  set (ce := upgraded_relaxed folder_name (f, p)) in *.
  destruct (ge ce low) eqn:E.
  - apply ge_spec in E. cbn [Upgraded.sort_desc].
    destruct (Upgraded.sort_desc _) as [|[s q] rest].
    + cbn [Upgraded.insert_desc]. exists (f, p). repeat split; auto.
      apply first_best_head. intros y Hy. specialize (IH y Hy). fold ce. lra.
    + destruct IH as (e & Hb & -> & -> & Hlow).
      cbn [Upgraded.insert_desc fst]. destruct (gt _ ce) eqn:Eg.
      * apply gt_spec in Eg. exists e. repeat split; auto.
        now apply first_best_cons_worse.
      * apply gt_false in Eg. exists (f, p). repeat split; auto.
        apply first_best_head. intros y Hy.
        pose proof (first_best_max _ _ _ Hb y Hy). fold ce. lra.
  - apply ge_false in E.
    destruct (Upgraded.sort_desc _) as [|[s q] rest].
    + intros e [<-|He]; [exact E|now apply IH].
    + destruct IH as (e & Hb & -> & -> & Hlow).
      exists e. repeat split; auto.
      apply first_best_cons_worse; [assumption|]. fold ce. lra.
Qed.

End SelectFacts.

(** ** The word-overlap signals and the specification's indices *)

Module OverlapFacts.
Import Py Aux Spec DiffFacts SetFacts ScoreFacts.

Local Open Scope Q_scope.

Lemma main_overlap_jaccard (a b : str) :
  Main.word_overlap a b = jaccard (split a) (split b).
Proof.
  unfold Main.word_overlap, jaccard. cbv zeta.
  unfold set_of at 1 2. rewrite !is_nil_nodup.
  destruct (is_nil (split a)), (is_nil (split b)); cbn [negb andb orb]; try reflexivity.
  now rewrite intersection_length, union_length.
Qed.

Lemma upgraded_overlap_jaccard (a b : str) :
  Upgraded.word_overlap a b = jaccard (split a) (split b).
Proof.
  unfold Upgraded.word_overlap, jaccard. cbv zeta.
  unfold set_of at 1 2. rewrite !is_nil_nodup.
  destruct (is_nil (split a)), (is_nil (split b)); cbn [negb andb orb]; try reflexivity.
  now rewrite intersection_length, union_length.
Qed.

Lemma main_similarity_larger (a b : str) :
  Main.word_similarity a b = common_over_larger (split a) (split b).
Proof.
  unfold Main.word_similarity, common_over_larger. cbv zeta.
  unfold set_of at 1 2. rewrite !is_nil_nodup.
  destruct (is_nil (split a)), (is_nil (split b)); cbn [negb andb orb]; try reflexivity.
  now rewrite intersection_length.
Qed.

Lemma upgraded_similarity_larger (a b : str) :
  Upgraded.word_similarity a b = common_over_larger (split a) (split b).
Proof.
  unfold Upgraded.word_similarity, common_over_larger. cbv zeta.
  unfold set_of at 1 2. rewrite !is_nil_nodup.
  destruct (is_nil (split a)), (is_nil (split b)); cbn [negb andb orb]; try reflexivity.
  now rewrite intersection_length.
Qed.

Lemma of_nat_lt (n m : nat) : (n < m)%nat -> of_nat n < of_nat m.
Proof. unfold of_nat, Qlt. simpl. lia. Qed.

Lemma div_antitone (a m u : nat) :
  (0 < m)%nat -> (m <= u)%nat -> of_nat a / of_nat u <= of_nat a / of_nat m.
Proof.
  intros Hm Hu. pose proof (of_nat_nonneg a) as Ha.
  assert (Hm' : 0 < of_nat m) by now apply of_nat_pos.
  assert (Hu' : 0 < of_nat u) by (apply of_nat_pos; lia).
  apply Qle_shift_div_l; [assumption|].
  unfold Qdiv. rewrite <- Qmult_assoc, (Qmult_comm (/ of_nat u)), Qmult_assoc.
  apply Qle_shift_div_r; [assumption|].
  pose proof (of_nat_le m u Hu). nra.
Qed.

(** The Jaccard index is no more than the share of the larger set. *)
Lemma jaccard_le_larger (ws1 ws2 : list str) :
  jaccard ws1 ws2 <= common_over_larger ws1 ws2.
Proof.
  unfold jaccard, common_over_larger.
  destruct (is_nil ws1 || is_nil ws2) eqn:E; [apply Qle_refl|].
  apply orb_false_iff in E as [E1 E2].
  apply div_antitone.
  - apply Nat.max_lt_iff. left. rewrite <- is_nil_nodup in E1.
    now apply set_of_length_pos.
  - rewrite <- union_length. apply max_le_union.
Qed.

End OverlapFacts.

(** ** What the selectors return *)

Module ResultFacts.
Import Py Aux Spec ScriptAux ScoreFacts SelectFacts.

Local Open Scope Q_scope.

Lemma first_best_snoc_worse {X : Type} (score : X -> Q) (l : list X) (x y : X) :
  first_best score l x -> score y <= score x -> first_best score (l ++ [y]) x.
Proof.
  intros (pre & post & -> & Hpre & Hpost) Hy.
  exists pre, (post ++ [y]). rewrite <- app_assoc. repeat split; auto.
  intros z Hz. apply in_app_or in Hz as [Hz|[<-|[]]]; auto.
Qed.

Lemma first_best_snoc_better {X : Type} (score : X -> Q) (l : list X) (y : X) :
  (forall z, In z l -> score z < score y) -> first_best score (l ++ [y]) y.
Proof. intro H. exists l, []. repeat split; auto. intros z []. Qed.

(** The best of a part of the list is the best of the list when what was
    left out is worse. *)
Lemma first_best_filter {X : Type} (score : X -> Q) (keep : X -> bool) (l : list X) :
  forall x,
    first_best score (filter keep l) x ->
    (forall y, In y l -> keep y = false -> score y < score x) ->
    first_best score l x.
Proof.
  induction l as [|y l IH]; intros x Hb Hout; [exact Hb|].
  cbn [filter] in Hb. destruct (keep y) eqn:Ek.
  - destruct Hb as (pre & post & E & Hpre & Hpost).
    destruct pre as [|y' pre]; cbn [app] in E; injection E as <- E.
    + apply first_best_head. intros z Hz.
      destruct (keep z) eqn:Ez.
      * apply Hpost. rewrite <- E. apply filter_In. now split.
      * apply Qlt_le_weak. apply Hout; [now right|assumption].
    + apply first_best_cons_worse; [|apply Hpre; now left].
      apply IH.
      * exists pre, post. repeat split; auto. intros z Hz. apply Hpre. now right.
      * intros z Hz. apply Hout. now right.
  - apply first_best_cons_worse; [|apply Hout; [now left|assumption]].
    apply IH; [assumption|]. intros z Hz. apply Hout. now right.
Qed.

Section Loop.

Context {X : Type}.
Variable score : X -> Q.
Variable loc : X -> str.
Variable threshold : Q.

Lemma select_loop_held (items : list X) :
  forall seen bm bs,
    held score loc threshold seen (bm, bs) ->
    held score loc threshold (seen ++ items) (select_loop score loc threshold items bm bs).
Proof.
  induction items as [|y items IH]; intros seen bm bs H.
  - rewrite app_nil_r. exact H.
  - cbn [select_loop].
    replace (seen ++ y :: items) with ((seen ++ [y]) ++ items)
      by (rewrite <- app_assoc; reflexivity).
    destruct (gt (score y) bs) eqn:Eg; cbn [andb].
    + apply gt_spec in Eg. destruct (ge (score y) threshold) eqn:Et.
      * apply ge_spec in Et. apply IH. cbn [held].
        exists y. repeat split; auto.
        -- apply first_best_snoc_better. intros z Hz.
           destruct bm as [p|]; cbn [held] in H.
           ++ destruct H as (x & Hb & _ & -> & _).
              pose proof (first_best_max _ _ _ Hb z Hz). lra.
           ++ destruct H as [-> H]. destruct (H z Hz); lra.
        -- destruct bm as [p|]; cbn [held] in H.
           ++ destruct H as (x & _ & _ & -> & Hp & _). lra.
           ++ destruct H as [-> _]. exact Eg.
      * apply ge_false in Et. apply IH.
        destruct bm as [p|]; cbn [held] in H |- *.
        -- destruct H as (x & Hb & Hp & -> & Hpos & Hth). lra.
        -- destruct H as [-> H]. split; [reflexivity|].
           intros z Hz. apply in_app_or in Hz as [Hz|[<-|[]]]; auto.
    + apply gt_false in Eg. apply IH.
      destruct bm as [p|]; cbn [held] in H |- *.
      * destruct H as (x & Hb & Hp & -> & Hpos & Hth).
        exists x. repeat split; auto. now apply first_best_snoc_worse.
      * destruct H as [-> H]. split; [reflexivity|].
        intros z Hz. apply in_app_or in Hz as [Hz|[<-|[]]]; auto.
Qed.

Lemma select_loop_result (items : list X) :
  held score loc threshold items (select_loop score loc threshold items None 0).
Proof.
  apply (select_loop_held items [] None 0). cbn. split; [reflexivity|]. intros x [].
Qed.

End Loop.

(** [max(..., key=score)] returns the first of the best. *)
Lemma max_by_score_first_best {X : Type} (score : X -> Q) (loc : X -> str) (l : list X) :
  forall seen b,
    first_best score seen b ->
    exists z, first_best score (seen ++ l) z
              /\ Main.max_by_score (loc b, score b) (map (fun x => (loc x, score x)) l)
                 = (loc z, score z).
Proof.
  induction l as [|x l IH]; intros seen b Hb.
  - exists b. rewrite app_nil_r. now split.
  - cbn [map Main.max_by_score snd].
    replace (seen ++ x :: l) with ((seen ++ [x]) ++ l)
      by (rewrite <- app_assoc; reflexivity).
    destruct (gt (score x) (score b)) eqn:Eg.
    + apply gt_spec in Eg. apply IH. apply first_best_snoc_better.
      intros z Hz. pose proof (first_best_max _ _ _ Hb z Hz). lra.
    + apply gt_false in Eg. apply IH. now apply first_best_snoc_worse.
Qed.

(** The files that the relaxed strategy of [main.py] keeps. *)
Lemma main_potential_matches (path_join : str -> str -> str) (folder_name d : str)
      (listing : list str) :
  Main.potential_matches path_join folder_name d listing
  = map (fun f => (path_join d f, main_relaxed folder_name f))
        (filter (fun f => gt (main_relaxed folder_name f) 0.6)
                (filter Main.is_video listing)).
Proof.
  induction listing as [|f listing IH]; [reflexivity|].
  cbn [Main.potential_matches filter]. destruct (Main.is_video f); cbn [negb filter].
  - change (Main.combined_score (Main.clean_folder_of folder_name) (Main.clean_video_of f))
      with (main_relaxed folder_name f).
    destruct (gt (main_relaxed folder_name f) 0.6); cbn [map]; now rewrite IH.
  - exact IH.
Qed.

Lemma main_relaxed_result (path_join : str -> str -> str) (folder_name d : str)
      (listing : list str) :
  match Main.find_videos_by_content_similarity path_join folder_name d listing with
  | (Some p, s) =>
      exists f, first_best (main_relaxed folder_name) (filter Main.is_video listing) f
                /\ p = path_join d f /\ s = main_relaxed folder_name f /\ 0.6 < s
  | (None, s) =>
      s = 0 /\ forall f, In f listing -> Main.is_video f = true ->
                         main_relaxed folder_name f <= 0.6
  end.
Proof.
  unfold Main.find_videos_by_content_similarity. rewrite main_potential_matches.
  set (keep := fun f => gt (main_relaxed folder_name f) 0.6).
  destruct (filter keep (filter Main.is_video listing)) as [|x l] eqn:E; cbn [map].
  - split; [reflexivity|]. intros f Hf Hv. apply gt_false.
    destruct (gt (main_relaxed folder_name f) 0.6) eqn:Eg; [|reflexivity].
    assert (Hin : In f (filter keep (filter Main.is_video listing))).
    { apply filter_In. split; [apply filter_In; now split|exact Eg]. }
    rewrite E in Hin. destruct Hin.
  - destruct (max_by_score_first_best (main_relaxed folder_name) (path_join d) l [x] x)
      as (z & Hz & ->).
    { apply first_best_head. intros y []. }
    cbn [fst snd]. exists z. cbn [app] in Hz. rewrite <- E in Hz.
    assert (Hzin : In z (filter keep (filter Main.is_video listing))).
    { destruct Hz as (pre & post & -> & _). apply in_or_app. right. now left. }
    apply filter_In in Hzin as [_ Hk]. apply gt_spec in Hk.
    repeat split; auto.
    apply first_best_filter with (keep := keep); [assumption|].
    intros y _ Hy. apply gt_false in Hy. lra.
Qed.

(** The ranges of the relaxed signals. *)
Lemma max3_range (x y z lo hi : Q) :
  lo <= x <= hi -> lo <= y <= hi -> lo <= z <= hi -> lo <= max3 x y z <= hi.
Proof.
  intros Hx Hy Hz. unfold max3.
  destruct (max2_cases x y) as [E|E], (max2_cases (max2 x y) z) as [E'|E'];
    rewrite E', ?E; assumption.
Qed.

Lemma common_le_larger (A B : list str) :
  (length (intersection A B) <= Nat.max (length A) (length B))%nat.
Proof.
  unfold intersection. pose proof (filter_length_le (fun w => mem w B) A). lia.
Qed.

Lemma main_word_similarity_range (a b : str) : 0 <= Main.word_similarity a b <= 1.
Proof.
  unfold Main.word_similarity. destruct (_ && _); [|lra].
  apply div_range. apply common_le_larger.
Qed.

Lemma upgraded_word_similarity_range (a b : str) : 0 <= Upgraded.word_similarity a b <= 1.
Proof.
  unfold Upgraded.word_similarity. destruct (_ && _); [|lra].
  apply div_range. apply common_le_larger.
Qed.

Lemma main_combined_range (a b : str) : 0 <= Main.combined_score a b <= 1.
Proof.
  unfold Main.combined_score. apply max3_range.
  - apply DiffFacts.ratio_range.
  - apply DiffFacts.ratio_range.
  - apply main_word_similarity_range.
Qed.

Lemma upgraded_combined_range (a b : str) : 0 <= Upgraded.combined_score a b <= 1.
Proof.
  unfold Upgraded.combined_score. apply max3_range.
  - apply upgraded_similarity_range.
  - apply upgraded_similarity_range.
  - apply upgraded_word_similarity_range.
Qed.

(** The set operations do not look at the order of their arguments. *)
Lemma intersection_comm_length (A B : list str) :
  NoDup A -> NoDup B -> length (intersection A B) = length (intersection B A).
Proof.
  intros HA HB. apply SetFacts.same_elements_length.
  - now apply NoDup_filter.
  - now apply NoDup_filter.
  - intro w. unfold intersection. rewrite !filter_In, !SetFacts.mem_in. tauto.
Qed.

Lemma union_comm_length (A B : list str) : length (union A B) = length (union B A).
Proof.
  apply SetFacts.same_elements_length.
  - apply NoDup_nodup.
  - apply NoDup_nodup.
  - intro w. unfold union. rewrite !nodup_In, !in_app_iff. tauto.
Qed.

(** Equal strings: the containment holds, and the word overlap is 1 when
    there is a word. *)
Lemma strip_prefix_refl (a : str) : strip_prefix a a = Some [].
Proof.
  induction a as [|c a IH]; [reflexivity|].
  cbn [strip_prefix]. now rewrite CharFacts.eqc_refl.
Qed.

Lemma contains_refl (a : str) : contains a a = true.
Proof.
  assert (H : startswith a a = true) by (unfold startswith; now rewrite strip_prefix_refl).
  destruct a; cbn [contains]; now rewrite H.
Qed.

Lemma overlap_self (ws : list str) :
  ws <> [] ->
  of_nat (length (intersection (set_of ws) (set_of ws)))
  / of_nat (length (union (set_of ws) (set_of ws))) == 1.
Proof.
  intro Hne. unfold set_of.
  assert (Hi : intersection (nodup str_dec ws) (nodup str_dec ws) = nodup str_dec ws).
  { unfold intersection. apply NormFacts.filter_all. apply Forall_forall.
    intros w Hw. now apply SetFacts.mem_in. }
  assert (Hu : length (union (nodup str_dec ws) (nodup str_dec ws))
               = length (nodup str_dec ws)).
  { apply SetFacts.same_elements_length.
    - apply NoDup_nodup.
    - apply NoDup_nodup.
    - intro w. unfold union. rewrite nodup_In, in_app_iff. tauto. }
  rewrite Hi, Hu.
  assert (Hpos : 0 < of_nat (length (nodup str_dec ws))).
  { apply DiffFacts.of_nat_pos. destruct ws as [|w ws]; [congruence|].
    assert (Hin : In w (nodup str_dec (w :: ws))) by (apply nodup_In; now left).
    destruct (nodup str_dec (w :: ws)); [destruct Hin|cbn; lia]. }
  field. intro H0. rewrite H0 in Hpos. apply (Qlt_irrefl 0 Hpos).
Qed.

End ResultFacts.

(** ** The scripts *)

Module ScriptFacts.
Import Py Sys Aux Spec ScriptAux CharFacts ScoreFacts SelectFacts ResultFacts.

(** *** The index *)

Lemma dict_set_key (d : list (str * str)) (k v k0 : str) :
  In k0 (map fst (dict_set d k v)) <-> k0 = k \/ In k0 (map fst d).
Proof.
  induction d as [|[k' v'] d IH]; cbn [dict_set map fst In].
  - intuition.
  - destruct (eqs k' k) eqn:E; cbn [map fst In].
    + apply eqs_eq in E. subst k'. intuition.
    + rewrite IH. intuition.
Qed.

Lemma dict_set_keys (d : list (str * str)) (k v : str) :
  NoDup (map fst d) -> NoDup (map fst (dict_set d k v)).
Proof.
  induction d as [|[k' v'] d IH]; cbn [dict_set map fst]; intro H.
  - constructor; [intros []|constructor].
  - inversion H as [|? ? Hn Hd]; subst. destruct (eqs k' k) eqn:E; cbn [map fst].
    + constructor; assumption.
    + constructor; [|now apply IH].
      rewrite dict_set_key. intros [->|Hin]; [|contradiction].
      assert (Et : eqs k k = true) by now apply eqs_eq.
      congruence.
Qed.

Lemma dict_set_in (d : list (str * str)) (k v k0 v0 : str) :
  NoDup (map fst d) ->
  In (k0, v0) (dict_set d k v)
  <-> (k0 = k /\ v0 = v) \/ (k0 <> k /\ In (k0, v0) d).
Proof.
  induction d as [|[k' v'] d IH]; cbn [dict_set map fst]; intro H.
  - cbn [In]. split.
    + intros [E|[]]. injection E as <- <-. now left.
    + intros [[-> ->]|[_ []]]. now left.
  - inversion H as [|? ? Hn Hd]; subst. destruct (eqs k' k) eqn:E.
    + apply eqs_eq in E. subst k'. cbn [In]. split.
      * intros [E1|Hin]; [injection E1 as <- <-; now left|].
        right. split; [|now right]. intros ->. apply Hn.
        change k with (fst (k, v0)). now apply in_map.
      * intros [[-> ->]|[Hne [E1|Hin]]]; [now left| |now right].
        injection E1 as <- _. contradiction.
    + assert (Hne : k' <> k).
      { intros ->. assert (Et : eqs k k = true) by now apply eqs_eq. congruence. }
      cbn [In]. rewrite (IH Hd). split.
      * intros [E1|[[-> ->]|[Hk Hin]]].
        -- injection E1 as <- <-. right. split; [assumption|now left].
        -- now left.
        -- right. split; [assumption|now right].
      * intros [[-> ->]|[Hk [E1|Hin]]].
        -- right. now left.
        -- now left.
        -- right. right. now split.
Qed.

Section Index.

Context {World : Type}.
Variable sys : system World.
Variable downloads_path : str.
Variable w : World.

Lemma index_fold (entries : list str) :
  forall index : Upgraded.index,
    NoDup (map fst index) ->
    (forall k v, In (k, v) index -> v = path_join sys downloads_path k) ->
    let r := fold_left
               (fun index entry =>
                  let full := path_join sys downloads_path entry in
                  if isfile sys full w && UpgradedScript.is_video entry
                  then dict_set index entry full
                  else index)
               entries index in
    NoDup (map fst r)
    /\ forall k v,
        In (k, v) r
        <-> In (k, v) index
            \/ (In k entries
                /\ isfile sys (path_join sys downloads_path k) w = true
                /\ UpgradedScript.is_video k = true
                /\ v = path_join sys downloads_path k).
Proof.
  induction entries as [|e entries IH]; intros index Hnd Hval; cbn [fold_left].
  - split; [assumption|]. intros k v. cbn [In]. intuition.
  - cbv zeta.
    destruct (isfile sys (path_join sys downloads_path e) w && UpgradedScript.is_video e)
      eqn:Ea.
    + apply andb_prop in Ea as [Ef Ev].
      destruct (IH (dict_set index e (path_join sys downloads_path e))) as [H1 H2].
      * now apply dict_set_keys.
      * intros k v Hin. apply dict_set_in in Hin; [|assumption].
        destruct Hin as [[-> ->]|[_ Hin]]; [reflexivity|now apply Hval].
      * split; [exact H1|]. intros k v. rewrite H2, (dict_set_in _ _ _ _ _ Hnd).
        cbn [In]. split.
        -- intros [[[-> ->]|[Hk Hin]]|(Hin & Hf & Hv & ->)];
             try solve [auto | right; repeat split; auto].
        -- intros [Hin|([<-|Hin] & Hf & Hv & ->)];
             try solve [auto | right; repeat split; auto].
           destruct (str_dec k e) as [->|Hne].
           ++ left. left. split; [reflexivity|now apply Hval].
           ++ left. right. now split.
    + destruct (IH index Hnd Hval) as [H1 H2].
      split; [exact H1|]. intros k v. rewrite H2. cbn [In]. split.
      * intros [Hin|(Hin & Hf & Hv & ->)];
          try solve [auto | right; repeat split; auto].
      * intros [Hin|([<-|Hin] & Hf & Hv & ->)];
          try solve [auto | right; repeat split; auto].
        rewrite Hf, Hv in Ea. discriminate.
Qed.

Lemma index_videos_spec :
  NoDup (map fst (UpgradedScript.index_videos sys downloads_path w))
  /\ forall k v,
      In (k, v) (UpgradedScript.index_videos sys downloads_path w)
      <-> exists entries,
            listdir sys downloads_path w = Some entries
            /\ In k entries
            /\ isfile sys (path_join sys downloads_path k) w = true
            /\ UpgradedScript.is_video k = true
            /\ v = path_join sys downloads_path k.
Proof.
  unfold UpgradedScript.index_videos.
  destruct (listdir sys downloads_path w) as [entries|].
  - destruct (index_fold entries []) as [H1 H2].
    + constructor.
    + intros k v [].
    + split; [exact H1|]. intros k v. rewrite H2. cbn [In]. split.
      * intros [[]|H]. now exists entries.
      * intros (entries' & E & H). injection E as <-. now right.
  - split; [constructor|]. intros k v. cbn [In]. split; [intros []|].
    intros (entries & E & _). discriminate.
Qed.

End Index.

(** *** The strict and the relaxed result *)

Local Open Scope Q_scope.

Lemma first_best_in {X : Type} (score : X -> Q) (l : list X) (x : X) :
  first_best score l x -> In x l.
Proof. intros (pre & post & -> & _). apply in_or_app. right. now left. Qed.

Lemma upgraded_strict_result (item : str) (video_index : Upgraded.index) (threshold : Q) :
  held (upgraded_strict item) snd threshold video_index
       (Upgraded.find_best_video_match item video_index threshold).
Proof.
  unfold Upgraded.find_best_video_match. rewrite upgraded_best_loop.
  apply select_loop_result.
Qed.

Lemma main_strict_result (path_join : str -> str -> str) (folder d : str)
      (listing : list str) (threshold : Q) :
  held (main_strict folder) (path_join d) threshold (filter Main.is_video listing)
       (Main.find_best_video_match path_join folder d listing threshold).
Proof.
  unfold Main.find_best_video_match. rewrite main_best_loop.
  apply select_loop_result.
Qed.

Lemma upgraded_relaxed_result (item : str) (video_index : Upgraded.index) (low : Q) :
  match Upgraded.find_videos_by_content_similarity item video_index low with
  | (Some p, s) =>
      exists e, first_best (upgraded_relaxed item) video_index e
                /\ p = snd e /\ s = upgraded_relaxed item e /\ low <= s
  | (None, s) =>
      s = 0 /\ forall e, In e video_index -> upgraded_relaxed item e < low
  end.
Proof.
  unfold Upgraded.find_videos_by_content_similarity.
  pose proof (upgraded_sorted_head item low video_index) as H.
  destruct (Upgraded.sort_desc _) as [|[s p] rest]; [now split|exact H].
Qed.

(** The two calls of [gather_pairs] for one folder. *)
Lemma upgraded_match_result (item : str) (video_index : Upgraded.index) (threshold : Q) :
  let r := Upgraded.find_best_video_match item video_index threshold in
  let r := if negb (truthy (fst r))
           then Upgraded.find_videos_by_content_similarity item video_index
                  (threshold - 0.05)
           else r in
  forall p, fst r = Some p ->
            (exists k, In (k, p) video_index) /\ threshold - 0.05 <= snd r <= 1.
Proof.
  cbv zeta.
  pose proof (upgraded_strict_result item video_index threshold) as Hs.
  pose proof (upgraded_relaxed_result item video_index (threshold - 0.05)) as Hr.
  destruct (Upgraded.find_best_video_match item video_index threshold) as [bm bs].
  cbn [fst]. destruct (negb (truthy bm)).
  - destruct (Upgraded.find_videos_by_content_similarity _ _ _) as [[q|] s];
      cbn [fst snd]; intros p E; [|discriminate].
    injection E as <-. destruct Hr as (e & Hb & -> & -> & Hlow).
    split.
    + exists (fst e). rewrite <- surjective_pairing. now apply first_best_in in Hb.
    + split; [assumption|]. apply upgraded_combined_range.
  - cbn [fst snd]. intros p ->. cbn [held] in Hs.
    destruct Hs as (e & Hb & -> & -> & Hpos & Hth). split.
    + exists (fst e). rewrite <- surjective_pairing. now apply first_best_in in Hb.
    + pose proof (upgraded_total_range (Upgraded.extract_core_name item)
                                       (Upgraded.extract_core_name (fst e))) as Hrange.
      unfold upgraded_strict in *. lra.
Qed.

(** The two calls of [cleanup_gifs_folders_and_videos] and of
    [preview_cleanup] for one folder. *)
Lemma main_match_result (path_join : str -> str -> str) (folder d : str)
      (listing : list str) :
  let r := Main.find_best_video_match path_join folder d listing 0.65 in
  let r := if negb (truthy (fst r))
           then Main.find_videos_by_content_similarity path_join folder d listing
           else r in
  forall p, fst r = Some p ->
            (exists f, In f listing /\ Main.is_video f = true /\ p = path_join d f)
            /\ 0.6 < snd r <= 1.
Proof.
  cbv zeta.
  pose proof (main_strict_result path_join folder d listing 0.65) as Hs.
  pose proof (main_relaxed_result path_join folder d listing) as Hr.
  destruct (Main.find_best_video_match path_join folder d listing 0.65) as [bm bs].
  cbn [fst]. destruct (negb (truthy bm)).
  - destruct (Main.find_videos_by_content_similarity _ _ _ _) as [[q|] s];
      cbn [fst snd]; intros p E; [|discriminate].
    injection E as <-. destruct Hr as (f & Hb & -> & -> & Hlow).
    apply first_best_in, filter_In in Hb as [Hin Hv].
    split; [now exists f|]. split; [assumption|]. apply main_combined_range.
  - cbn [fst snd]. intros p ->. cbn [held] in Hs.
    destruct Hs as (f & Hb & -> & -> & Hpos & Hth).
    apply first_best_in, filter_In in Hb as [Hin Hv].
    split; [now exists f|].
    pose proof (main_total_range (Main.extract_core_name folder)
                                 (Main.extract_core_name f)) as Hrange.
    unfold main_strict in *. lra.
Qed.

(** *** The pairs of [upgraded.py] *)

Section Gather.

Context {World : Type}.
Variable sys : system World.
Variable target_directory : str.
Variable video_index : Upgraded.index.
Variable threshold : Q.
Variable w : World.

Lemma gather_item_app (pairs : list UpgradedScript.pair) (item : str) :
  UpgradedScript.gather_item sys target_directory video_index threshold w pairs item
  = pairs ++ UpgradedScript.gather_item sys target_directory video_index threshold w [] item.
Proof.
  unfold UpgradedScript.gather_item. cbv zeta.
  destruct (_ && _); [|now rewrite app_nil_r].
  destruct (fst _) as [p|]; [|now rewrite app_nil_r].
  destruct (_ && _); [reflexivity|now rewrite app_nil_r].
Qed.

Lemma gather_item_one (item : str) :
  UpgradedScript.gather_item sys target_directory video_index threshold w [] item = []
  \/ exists p,
      UpgradedScript.gather_item sys target_directory video_index threshold w [] item = [p]
      /\ UpgradedScript.folder p = item
      /\ UpgradedScript.folder_path p = path_join sys target_directory item
      /\ isdir sys (path_join sys target_directory item) w = true
      /\ endswith (lower item) (lit ".gifs") = true
      /\ (exists k, In (k, UpgradedScript.video_file p) video_index)
      /\ UpgradedScript.video_file p <> []
      /\ path_exists sys (UpgradedScript.video_file p) w = true
      /\ UpgradedScript.video_name p = basename sys (UpgradedScript.video_file p)
      /\ threshold - 0.05 <= UpgradedScript.score p <= 1.
Proof.
  unfold UpgradedScript.gather_item. cbv zeta.
  destruct (isdir sys _ w && _) eqn:Ed; [|now left].
  apply andb_prop in Ed as [Ed Eg].
  pose proof (upgraded_match_result item video_index threshold) as Hm. cbv zeta in Hm.
  destruct (fst _) as [p|] eqn:Ep; [|now left].
  destruct (truthy (Some p) && path_exists sys p w) eqn:Et; [|now left].
  apply andb_prop in Et as [Et Ee].
  destruct (Hm p eq_refl) as [Hk Hs].
  right. eexists. split; [reflexivity|]. cbn.
  repeat split; try assumption; try apply Hs.
  intros ->. discriminate Et.
Qed.

Lemma gather_fold (items : list str) :
  forall pairs,
    fold_left (UpgradedScript.gather_item sys target_directory video_index threshold w)
              items pairs
    = pairs
      ++ flat_map (UpgradedScript.gather_item sys target_directory video_index threshold w [])
                  items.
Proof.
  induction items as [|item items IH]; intro pairs; cbn [fold_left flat_map].
  - now rewrite app_nil_r.
  - rewrite IH, gather_item_app, app_assoc. reflexivity.
Qed.

End Gather.

(** *** Deleting *)

Local Open Scope nat_scope.
Local Open Scope sys_scope.

Section Deleting.

Context {World : Type}.
Variable sys : system World.

(** One guarded deletion: the count goes up by one at most, and nothing is
    read. *)
Lemma try_delete (dry_run : bool) (del : World -> World * bool) (n : nat)
      (st : state World) :
  exists st' n',
    try_except (if dry_run then ret n else _ <- call del ;; ret (S n)) (ret n) st
    = (st', Returned n')
    /\ n <= n' <= S n /\ stdin st' = stdin st
    /\ (dry_run = true -> st' = st /\ n' = n)
    /\ (snd (del (world st)) = true -> dry_run = false -> n' = S n).
Proof.
  destruct dry_run.
  - exists st, n. cbv [try_except ret]. repeat split; auto; discriminate.
  - cbv [try_except bind call ret]. destruct (del (world st)) as [w1 [|]]; cbn [snd].
    + eexists _, (S n). split; [reflexivity|]. cbn [stdin].
      repeat split; auto; discriminate.
    + eexists _, n. split; [reflexivity|]. cbn [stdin].
      repeat split; auto; discriminate.
Qed.

Lemma upgraded_deletion_loop (dry_run use_trash : bool)
      (pairs : list UpgradedScript.pair) :
  forall f v st,
  exists st' f' v',
    UpgradedScript.deletion_loop sys dry_run use_trash pairs f v st
    = (st', Returned (f', v'))
    /\ f <= f' <= f + length pairs /\ v <= v' <= v + length pairs
    /\ stdin st' = stdin st
    /\ (dry_run = true -> st' = st /\ f' = f /\ v' = v)
    /\ ((forall p x, snd (rmtree sys p x) = true /\ snd (remove sys p x) = true
                     /\ snd (send2trash sys p x) = true) ->
        dry_run = false -> f' = f + length pairs /\ v' = v + length pairs).
Proof.
  induction pairs as [|pair rest IH]; intros f v st.
  - exists st, f, v. cbn. repeat split; auto; lia.
  - cbn [UpgradedScript.deletion_loop length]. unfold bind at 1.
    set (delf := if use_trash && SEND_TO_TRASH_AVAILABLE sys
                 then send2trash sys (UpgradedScript.folder_path pair)
                 else rmtree sys (UpgradedScript.folder_path pair)).
    set (delv := if use_trash && SEND_TO_TRASH_AVAILABLE sys
                 then send2trash sys (UpgradedScript.video_file pair)
                 else remove sys (UpgradedScript.video_file pair)).
    assert (Ef : (if use_trash && SEND_TO_TRASH_AVAILABLE sys
                  then call (send2trash sys (UpgradedScript.folder_path pair))
                  else call (rmtree sys (UpgradedScript.folder_path pair)))
                 = call delf)
      by (unfold delf; now destruct (_ && _)).
    assert (Ev : (if use_trash && SEND_TO_TRASH_AVAILABLE sys
                  then call (send2trash sys (UpgradedScript.video_file pair))
                  else call (remove sys (UpgradedScript.video_file pair)))
                 = call delv)
      by (unfold delv; now destruct (_ && _)).
    rewrite Ef.
    destruct (try_delete dry_run delf f st) as (st1 & f1 & -> & Hf1 & Hs1 & Hd1 & Ha1).
    unfold bind at 1. rewrite Ev.
    destruct (try_delete dry_run delv v st1) as (st2 & v2 & -> & Hv2 & Hs2 & Hd2 & Ha2).
    destruct (IH f1 v2 st2) as (st' & f' & v' & -> & Hf & Hv & Hs & Hd & Ha).
    exists st', f', v'. split; [reflexivity|].
    split; [lia|]. split; [lia|]. split; [congruence|]. split.
    + intro E. destruct (Hd E) as (-> & -> & ->).
      destruct (Hd2 E) as (-> & ->). destruct (Hd1 E) as (-> & ->). auto.
    + intros Hall E. destruct (Ha Hall E) as (-> & ->).
      rewrite Ha1, Ha2; try assumption; [lia| |].
      * unfold delv. destruct (_ && _); apply Hall.
      * unfold delf. destruct (_ && _); apply Hall.
Qed.

Lemma main_deletion_loop (pairs : list MainScript.pair) :
  forall f v st,
  exists st' f' v',
    MainScript.deletion_loop sys pairs f v st = (st', Returned (f', v'))
    /\ f <= f' <= f + length pairs /\ v <= v' /\ v' + f <= f' + v
    /\ stdin st' = stdin st.
Proof.
  induction pairs as [|pair rest IH]; intros f v st.
  - exists st, f, v. cbn. repeat split; auto; lia.
  - cbn [MainScript.deletion_loop length]. unfold bind at 1.
    cbv [try_except bind call ret].
    destruct (rmtree sys (MainScript.folder_path pair) (world st)) as [w1 [|]].
    + cbn [world]. destruct (remove sys (MainScript.video_file pair) w1) as [w2 [|]].
      * destruct (IH (S f) (S v) {| world := w2; stdin := stdin st |})
          as (st' & f' & v' & E & Hf & Hv & Hvf & Hs).
        exists st', f', v'. split; [exact E|]. cbn [stdin] in Hs.
        repeat split; auto; lia.
      * destruct (IH (S f) v {| world := w2; stdin := stdin st |})
          as (st' & f' & v' & E & Hf & Hv & Hvf & Hs).
        exists st', f', v'. split; [exact E|]. cbn [stdin] in Hs.
        repeat split; auto; lia.
    + destruct (IH f v {| world := w1; stdin := stdin st |})
        as (st' & f' & v' & E & Hf & Hv & Hvf & Hs).
      exists st', f', v'. split; [exact E|]. cbn [stdin] in Hs.
      repeat split; auto; lia.
Qed.

End Deleting.

(** *** The pairs of [main.py] *)

Section MainPairs.

Context {World : Type}.
Variable sys : system World.

Lemma bind_read {A B : Type} (f : World -> A) (k : A -> M B) (st : state World) :
  bind (read f) k st = k (f (world st)) st.
Proof. reflexivity. Qed.

Lemma bind_listdir {B : Type} (path : str) (k : list str -> M B) (st : state World) :
  bind (os_listdir sys path) k st
  = match listdir sys path (world st) with
    | Some entries => k entries st
    | None => (st, Raised)
    end.
Proof. cbv [bind os_listdir]. now destruct (listdir sys path (world st)). Qed.

Lemma main_first_call {B : Type} (folder : str) (threshold : Q)
      (k : option str * Q -> M B) (st : state World) (listing : list str) :
  listdir sys MainScript.downloads_directory (world st) = Some listing ->
  bind (MainScript.find_best_video_match sys folder MainScript.downloads_directory threshold)
       k st
  = k (Main.find_best_video_match (path_join sys) folder MainScript.downloads_directory
         listing threshold) st.
Proof.
  intro E. unfold MainScript.find_best_video_match, bind at 1. rewrite bind_listdir, E.
  reflexivity.
Qed.

Lemma main_first_call_raises {B : Type} (folder : str) (threshold : Q)
      (k : option str * Q -> M B) (st : state World) :
  listdir sys MainScript.downloads_directory (world st) = None ->
  bind (MainScript.find_best_video_match sys folder MainScript.downloads_directory threshold)
       k st
  = (st, Raised).
Proof.
  intro E. unfold MainScript.find_best_video_match, bind at 1. rewrite bind_listdir, E.
  reflexivity.
Qed.

Lemma main_second_call {B : Type} (folder : str) (b : bool) (r : option str * Q)
      (k : option str * Q -> M B) (st : state World) (listing : list str) :
  listdir sys MainScript.downloads_directory (world st) = Some listing ->
  bind (if b
        then MainScript.find_videos_by_content_similarity sys folder
               MainScript.downloads_directory
        else ret r) k st
  = k (if b
       then Main.find_videos_by_content_similarity (path_join sys) folder
              MainScript.downloads_directory listing
       else r) st.
Proof.
  intro E. destruct b; [|reflexivity].
  unfold MainScript.find_videos_by_content_similarity, bind at 1. rewrite bind_listdir, E.
  reflexivity.
Qed.

(** The loops of the cleanup and of the preview go the same way, which the
    file system settles: both raise, or both return, the preview what it
    shows of the pairs of the cleanup. *)
Lemma main_loops (gifs_folders : list str) (w : World) :
  exists res : option (list MainScript.pair * list str),
    (forall lines deletion_pairs preview_pairs without,
        MainScript.pairs_loop sys gifs_folders deletion_pairs
          {| world := w; stdin := lines |}
        = ({| world := w; stdin := lines |},
           match res with
           | Some (pairs, _) => Returned (deletion_pairs ++ pairs)
           | None => Raised
           end)
        /\ MainScript.preview_loop sys gifs_folders preview_pairs without
             {| world := w; stdin := lines |}
           = ({| world := w; stdin := lines |},
              match res with
              | Some (pairs, others) =>
                  Returned (preview_pairs ++ map shown pairs, without ++ others)
              | None => Raised
              end))
    /\ match res with
       | Some (pairs, _) =>
           (length pairs <= length gifs_folders)%nat
           /\ Forall (fun p =>
                        In (MainScript.folder p) gifs_folders
                        /\ MainScript.folder_path p
                           = path_join sys MainScript.target_directory (MainScript.folder p)
                        /\ (exists listing f,
                               listdir sys MainScript.downloads_directory w = Some listing
                               /\ In f listing /\ Main.is_video f = true
                               /\ MainScript.video_file p
                                  = path_join sys MainScript.downloads_directory f)
                        /\ MainScript.video_file p <> []
                        /\ path_exists sys (MainScript.video_file p) w = true
                        /\ MainScript.video_name p = basename sys (MainScript.video_file p)
                        /\ (0.6 < MainScript.similarity_score p <= 1)%Q)
                     pairs
       | None =>
           listdir sys MainScript.downloads_directory w = None /\ gifs_folders <> []
       end.
Proof.
  induction gifs_folders as [|folder rest IH].
  - exists (Some ([], [])). split.
    + intros. cbn. now rewrite !app_nil_r.
    + split; [apply Nat.le_refl|constructor].
  - destruct (listdir sys MainScript.downloads_directory w) as [listing|] eqn:El.
    + pose proof (main_match_result (path_join sys) folder
                    MainScript.downloads_directory listing) as Hm.
      cbv zeta in Hm.
      set (r := Main.find_best_video_match (path_join sys) folder
                  MainScript.downloads_directory listing 0.65) in *.
      set (r' := if negb (truthy (fst r))
                 then Main.find_videos_by_content_similarity (path_join sys) folder
                        MainScript.downloads_directory listing
                 else r) in *.
      assert (Hstep : forall lines acc accp without,
                 MainScript.pairs_loop sys (folder :: rest) acc
                   {| world := w; stdin := lines |}
                 = match fst r' with
                   | Some video_file =>
                       if truthy (fst r') && path_exists sys video_file w
                       then MainScript.pairs_loop sys rest
                              (acc ++ [{| MainScript.folder := folder;
                                          MainScript.folder_path :=
                                            path_join sys MainScript.target_directory folder;
                                          MainScript.video_file := video_file;
                                          MainScript.video_name := basename sys video_file;
                                          MainScript.similarity_score := snd r' |}])
                              {| world := w; stdin := lines |}
                       else MainScript.pairs_loop sys rest acc
                              {| world := w; stdin := lines |}
                   | None => MainScript.pairs_loop sys rest acc
                               {| world := w; stdin := lines |}
                   end
                 /\ MainScript.preview_loop sys (folder :: rest) accp without
                      {| world := w; stdin := lines |}
                    = match fst r' with
                      | Some video_file =>
                          if truthy (fst r') && path_exists sys video_file w
                          then MainScript.preview_loop sys rest
                                 (accp ++ [{| MainScript.preview_folder := folder;
                                              MainScript.preview_video_name :=
                                                basename sys video_file;
                                              MainScript.preview_score := snd r' |}])
                                 without {| world := w; stdin := lines |}
                          else MainScript.preview_loop sys rest accp (without ++ [folder])
                                 {| world := w; stdin := lines |}
                      | None => MainScript.preview_loop sys rest accp (without ++ [folder])
                                  {| world := w; stdin := lines |}
                      end).
      { intros lines acc accp without.
        cbn [MainScript.pairs_loop MainScript.preview_loop].
        rewrite !(main_first_call _ _ _ {| world := w; stdin := lines |} listing El),
                !(main_second_call _ _ _ _ {| world := w; stdin := lines |} listing El).
        fold r. fold r'. destruct (fst r') as [p|]; [|now split].
        rewrite !bind_read. cbn [world].
        destruct (truthy (Some p) && path_exists sys p w); now split. }
      destruct IH as (res & Hrun & Hres).
      destruct (fst r') as [p|] eqn:Ep.
      * destruct (truthy (Some p) && path_exists sys p w) eqn:Et.
        -- destruct res as [[pairs others]|].
           ++ exists (Some ({| MainScript.folder := folder;
                              MainScript.folder_path :=
                                path_join sys MainScript.target_directory folder;
                              MainScript.video_file := p;
                              MainScript.video_name := basename sys p;
                              MainScript.similarity_score := snd r' |} :: pairs, others)).
              split.
              ** intros lines acc accp without.
                 destruct (Hstep lines acc accp without) as [-> ->].
                 destruct (Hrun lines
                             (acc ++ [{| MainScript.folder := folder;
                                         MainScript.folder_path :=
                                           path_join sys MainScript.target_directory folder;
                                         MainScript.video_file := p;
                                         MainScript.video_name := basename sys p;
                                         MainScript.similarity_score := snd r' |}])
                             (accp ++ [{| MainScript.preview_folder := folder;
                                          MainScript.preview_video_name := basename sys p;
                                          MainScript.preview_score := snd r' |}])
                             without) as [-> ->].
                 rewrite <- !app_assoc. now split.
              ** destruct Hres as [Hlen HP]. split; [cbn [length]; lia|].
                 apply andb_prop in Et as [Et Ee].
                 destruct (Hm p eq_refl) as [(f & Hf & Hv & Hp) Hs].
                 constructor.
                 --- cbn. repeat split; auto; try apply Hs.
                     +++ exists listing, f. auto.
                     +++ intros ->. discriminate Et.
                 --- eapply Forall_impl; [|exact HP]. cbn beta.
                     intros q [Hq1 Hq2]. split; [now right|exact Hq2].
           ++ destruct Hres as [Hres _]. discriminate Hres.
        -- destruct res as [[pairs others]|].
           ++ exists (Some (pairs, folder :: others)). split.
              ** intros lines acc accp without.
                 destruct (Hstep lines acc accp without) as [-> ->].
                 destruct (Hrun lines acc accp (without ++ [folder])) as [-> ->].
                 rewrite <- !app_assoc. now split.
              ** destruct Hres as [Hlen HP]. split; [cbn [length]; lia|].
                 eapply Forall_impl; [|exact HP]. cbn beta.
                 intros q [Hq1 Hq2]. split; [now right|exact Hq2].
           ++ destruct Hres as [Hres _]. discriminate Hres.
      * destruct res as [[pairs others]|].
        -- exists (Some (pairs, folder :: others)). split.
           ++ intros lines acc accp without.
              destruct (Hstep lines acc accp without) as [-> ->].
              destruct (Hrun lines acc accp (without ++ [folder])) as [-> ->].
              rewrite <- !app_assoc. now split.
           ++ destruct Hres as [Hlen HP]. split; [cbn [length]; lia|].
              eapply Forall_impl; [|exact HP]. cbn beta.
              intros q [Hq1 Hq2]. split; [now right|exact Hq2].
        -- destruct Hres as [Hres _]. discriminate Hres.
    + exists None. split; [|split; [reflexivity|discriminate]].
      intros lines acc accp without.
      cbn [MainScript.pairs_loop MainScript.preview_loop].
      now rewrite !(main_first_call_raises _ _ _ {| world := w; stdin := lines |} El).
Qed.

(** The debugging of [main.py] changes nothing. *)
Lemma main_debug_state (folders : list str) (st : state World) :
  fst (for_each (fun folder =>
                   MainScript.debug_matching sys folder MainScript.downloads_directory)
                folders st) = st.
Proof.
  induction folders as [|folder folders IH]; [reflexivity|].
  cbn [for_each]. unfold bind at 1, MainScript.debug_matching.
  rewrite bind_listdir.
  destruct (listdir sys MainScript.downloads_directory (world st)) eqn:El; [|reflexivity].
  rewrite (main_first_call _ _ _ _ _ El). cbv [ret]. exact IH.
Qed.

(** [cleanup_gifs_folders_and_videos], step by step. *)
Lemma cleanup_run (st : state World) :
  MainScript.cleanup_gifs_folders_and_videos sys st
  = if negb (path_exists sys MainScript.target_directory (world st))
    then (st, Returned (0, 0))
    else if negb (path_exists sys MainScript.downloads_directory (world st))
    then (st, Returned (0, 0))
    else
      match listdir sys MainScript.target_directory (world st) with
      | None => (st, Returned (0, 0))
      | Some all_items =>
          match MainScript.pairs_loop sys
                  (MainScript.gifs_folders_of sys all_items (world st)) [] st with
          | (_, Raised) => (st, Returned (0, 0))
          | (_, Returned deletion_pairs) =>
              if length deletion_pairs =? 0 then (st, Returned (0, 0))
              else
                match stdin st with
                | [] => (st, Returned (0, 0))
                | confirmation :: rest =>
                    if upper_is_yes (strip confirmation)
                    then MainScript.deletion_loop sys deletion_pairs 0 0
                           {| world := world st; stdin := rest |}
                    else ({| world := world st; stdin := rest |}, Returned (0, 0))
                end
          end
      end.
Proof.
  unfold MainScript.cleanup_gifs_folders_and_videos.
  rewrite bind_read. destruct (negb (path_exists sys MainScript.target_directory _));
    [reflexivity|].
  rewrite bind_read. destruct (negb (path_exists sys MainScript.downloads_directory _));
    [reflexivity|].
  unfold try_except. rewrite bind_listdir.
  destruct (listdir sys MainScript.target_directory (world st)) as [all_items|];
    [|reflexivity].
  rewrite bind_read. unfold bind at 1.
  destruct (main_loops (MainScript.gifs_folders_of sys all_items (world st)) (world st))
    as (res & Hrun & _).
  destruct st as [w lines]. cbn [world stdin] in *.
  destruct (Hrun lines [] [] []) as [-> _].
  destruct res as [[pairs others]|]; [|reflexivity].
  cbn [app]. destruct (length pairs =? 0).
  - unfold bind at 1.
    pose proof (main_debug_state
                  (firstn 3 (MainScript.gifs_folders_of sys all_items w))
                  {| world := w; stdin := lines |}) as Hd.
    destruct (for_each _ _ _) as [st' [[]|]]; cbn [fst] in Hd; subst st'; reflexivity.
  - unfold bind at 1, input. cbn [stdin world].
    destruct lines as [|line rest]; [reflexivity|].
    destruct (upper_is_yes (strip line)); [|reflexivity].
    destruct (main_deletion_loop sys pairs 0 0 {| world := w; stdin := rest |})
      as (st' & f' & v' & -> & _). reflexivity.
Qed.

(** [preview_cleanup], step by step. *)
Lemma preview_run (st : state World) :
  MainScript.preview_cleanup sys st
  = if negb (path_exists sys MainScript.target_directory (world st))
    then (st, Returned None)
    else if negb (path_exists sys MainScript.downloads_directory (world st))
    then (st, Returned None)
    else
      match listdir sys MainScript.target_directory (world st) with
      | None => (st, Returned None)
      | Some all_items =>
          match MainScript.preview_loop sys
                  (MainScript.gifs_folders_of sys all_items (world st)) [] [] st with
          | (_, Raised) => (st, Returned None)
          | (_, Returned lists) => (st, Returned (Some lists))
          end
      end.
Proof.
  unfold MainScript.preview_cleanup.
  rewrite bind_read. destruct (negb (path_exists sys MainScript.target_directory _));
    [reflexivity|].
  rewrite bind_read. destruct (negb (path_exists sys MainScript.downloads_directory _));
    [reflexivity|].
  unfold try_except. rewrite bind_listdir.
  destruct (listdir sys MainScript.target_directory (world st)) as [all_items|];
    [|reflexivity].
  rewrite bind_read. unfold bind at 1.
  destruct (main_loops (MainScript.gifs_folders_of sys all_items (world st)) (world st))
    as (res & Hrun & _).
  destruct st as [w lines]. cbn [world stdin] in *.
  destruct (Hrun lines [] [] []) as [_ ->].
  destruct res as [[pairs others]|]; reflexivity.
Qed.

(** The preview returns and changes nothing. *)
Lemma preview_inert (st : state World) :
  exists lists, MainScript.preview_cleanup sys st = (st, Returned lists).
Proof.
  rewrite preview_run.
  destruct (negb _); [now exists None|].
  destruct (negb _); [now exists None|].
  destruct (listdir sys MainScript.target_directory (world st)); [|now exists None].
  destruct (MainScript.preview_loop _ _ _ _ _) as [st1 [lists|]];
    [now exists (Some lists)|now exists None].
Qed.

(** Without a confirmation the cleanup deletes nothing. *)
Lemma cleanup_without_consent (st : state World) :
  no_consent (stdin st) = true ->
  world (fst (MainScript.cleanup_gifs_folders_and_videos sys st)) = world st
  /\ snd (MainScript.cleanup_gifs_folders_and_videos sys st) = Returned (0, 0).
Proof.
  intro H. rewrite cleanup_run.
  destruct (negb _); [now split|].
  destruct (negb _); [now split|].
  destruct (listdir sys MainScript.target_directory (world st)); [|now split].
  destruct (MainScript.pairs_loop _ _ _ _) as [st1 [pairs|]]; [|now split].
  destruct (length pairs =? 0)%nat; [now split|].
  destruct (stdin st) as [|line rest]; [now split|].
  cbn [no_consent] in H. apply negb_true_iff in H. rewrite H. now split.
Qed.

End MainPairs.

(** *** [main] of [upgraded.py] *)

Section UpgradedMain.

Context {World : Type}.
Variable sys : system World.

Lemma upgraded_debug_state (downloads : str) (folders : list str) (st : state World) :
  for_each (fun f => UpgradedScript.debug_matching sys f downloads) folders st
  = (st, Returned tt).
Proof.
  induction folders as [|f folders IH]; [reflexivity|].
  cbn [for_each]. unfold bind at 1, UpgradedScript.debug_matching.
  rewrite bind_read. cbv [ret]. exact IH.
Qed.

Lemma perform_deletion_dry (pairs : list UpgradedScript.pair)
      (use_trash auto_confirm : bool) (st : state World) :
  UpgradedScript.perform_deletion sys pairs true use_trash auto_confirm st
  = (st, Returned (0, 0)).
Proof.
  unfold UpgradedScript.perform_deletion. destruct (is_nil pairs); [reflexivity|].
  cbn [negb andb]. unfold bind, ret.
  destruct (upgraded_deletion_loop sys true use_trash pairs 0 0 st)
    as (st' & f' & v' & -> & _ & _ & _ & Hd & _).
  destruct (Hd eq_refl) as (-> & -> & ->). reflexivity.
Qed.

End UpgradedMain.

End ScriptFacts.

(** ** Letter case *)

Module CaseFacts.
Import Py Re Aux CharFacts ReFacts RunFacts TermFacts NormFacts.

Lemma newline_fold (c : char) : (code (fold_char c) =? 10) = (code c =? 10).
Proof. all_chars c. Qed.

Lemma fold_char_dot (c : char) : fold_char c = full_stop -> c = full_stop.
Proof. all_chars c. Qed.

Lemma literal_i_fold (p : str) :
  forall s, literal_i p (fold s) = option_map fold (literal_i p s).
Proof.
  induction p as [|c p IH]; intro s; [reflexivity|].
  destruct s as [|d s]; [reflexivity|].
  cbn [fold map literal_i]. rewrite fold_char_idem. fold (fold s).
  destruct (eqc c (fold_char d)); [apply IH|reflexivity].
Qed.

Lemma at_end_fold (s : str) : at_end (fold s) = at_end s.
Proof.
  destruct s as [|c [|d s]]; [reflexivity| |reflexivity].
  cbn [fold map at_end]. apply newline_fold.
Qed.

Lemma m_ext_fold (exts : list str) (prev prev' : option char) (s : str) :
  m_ext exts prev' (fold s) = m_ext exts prev s.
Proof.
  destruct s as [|c s]; [reflexivity|].
  cbn [fold map m_ext]. fold (fold s). rewrite is_dot_fold.
  destruct (is_dot c); [|reflexivity].
  rewrite (find_ext_in _ (fun e => match literal_i e s with
                                   | Some rest => at_end rest
                                   | None => false
                                   end)); [reflexivity|].
  intros e _. rewrite literal_i_fold. destruct (literal_i e s); [apply at_end_fold|reflexivity].
Qed.

Section Groups.

Variables opening closing : char -> bool.
Hypothesis opening_fold : forall c, opening (fold_char c) = opening c.
Hypothesis closing_fold : forall c, closing (fold_char c) = closing c.

Lemma lazy_dots_fold (s : str) : lazy_dots closing (fold s) = lazy_dots closing s.
Proof.
  induction s as [|c s IH]; [reflexivity|].
  cbn [fold map lazy_dots]. fold (fold s). rewrite closing_fold, newline_fold, IH.
  reflexivity.
Qed.

Lemma m_group_fold (prev prev' : option char) (s : str) :
  m_group opening closing prev' (fold s) = m_group opening closing prev s.
Proof.
  destruct s as [|c s]; [reflexivity|].
  cbn [fold map m_group]. fold (fold s). now rewrite opening_fold, lazy_dots_fold.
Qed.

End Groups.

(** A substitution whose matcher does not look at the case commutes with
    the lower-casing of the characters. *)
Lemma sub_fold (m : option char -> str -> option nat) (repl : str) :
  (forall prev prev' s, m prev' (fold s) = m prev s) ->
  fold repl = repl ->
  forall s prev prev' k,
    fold (sub m repl prev k s) = sub m repl prev' k (fold s).
Proof.
  intros Hm Hr s. induction s as [|c s IH]; intros prev prev' k; [reflexivity|].
  cbn [fold map sub]. fold (fold s). destruct k as [|k]; [|apply IH].
  change (fold_char c :: fold s) with (fold (c :: s)). rewrite (Hm prev prev').
  destruct (m prev (c :: s)) as [[|n]|].
  - cbn [fold map]. f_equal. apply IH.
  - rewrite fold_app, Hr. f_equal. apply IH.
  - cbn [fold map]. f_equal. apply IH.
Qed.

Lemma fields_map (sep : char -> bool) (f : char -> char) :
  (forall c, sep (f c) = sep c) ->
  forall s, fields sep (map f s) = map (map f) (fields sep s).
Proof.
  intros H s. induction s as [|c s IH]; [reflexivity|].
  cbn [map fields]. rewrite H. destruct (sep c); [exact IH|].
  destruct s as [|d s]; [reflexivity|].
  cbn [map] in *. rewrite H. destruct (sep d); [now rewrite IH|].
  rewrite IH. destruct (fields sep (d :: s)); reflexivity.
Qed.

Lemma runs_fold (s : str) : runs (fold s) = map fold (runs s).
Proof.
  unfold runs, fold. apply fields_map. intro c. now rewrite is_word_fold.
Qed.

Lemma fields_ext (f g : char -> bool) (s : str) :
  Forall (fun c => f c = g c) s -> fields f s = fields g s.
Proof.
  induction s as [|c s IH]; intro H; [reflexivity|].
  inversion H as [|? ? Hc Hs]; subst. cbn [fields]. rewrite Hc, (IH Hs).
  destruct (g c); [reflexivity|]. destruct s as [|d s]; [reflexivity|].
  inversion Hs as [|? ? Hd _]; subst. now rewrite Hd.
Qed.

Section Normalizer.

Variable exts : list str.
Variables opening closing : char -> bool.
Variable grepl : str.
Variable terms : list str.
Variable trepl : str.

Hypothesis opening_ok : forall c, opening c = true -> is_word c = false /\ is_space c = false.
Hypothesis terms_ok : Forall (fun t => t <> [] /\ word_str t) terms.
Hypothesis trepl_ok : nonword_str trepl.
Hypothesis grepl_single : Forall single_lower grepl.
Hypothesis trepl_single : Forall single_lower trepl.
Hypothesis opening_fold : forall c, opening (fold_char c) = opening c.
Hypothesis closing_fold : forall c, closing (fold_char c) = closing c.
Hypothesis grepl_fold : fold grepl = grepl.

(** The words of the core, from the lower-cased name. *)
Lemma normalize_of_fold (name : str) :
  Forall single_lower name ->
  normalize exts opening closing grepl terms trepl name
  = join (lit " ")
      (filter (fun r => negb (is_term terms r))
         (runs (re_sub (m_group opening closing) grepl
                  (re_sub (m_ext exts) [] (fold name))))).
Proof.
  intro H.
  rewrite normalize_fold by assumption.
  rewrite fold_normalize_runs by assumption.
  f_equal. unfold re_sub.
  rewrite <- (sub_fold (m_ext exts) [] (m_ext_fold exts) eq_refl name None None 0).
  rewrite <- (sub_fold (m_group opening closing) grepl
                (m_group_fold opening closing opening_fold closing_fold) grepl_fold
                _ None None 0).
  rewrite runs_fold.
  generalize (runs (sub (m_group opening closing) grepl None 0
                      (sub (m_ext exts) [] None 0 name))) as l.
  induction l as [|r l IH]; [reflexivity|].
  cbn [filter map]. rewrite is_term_fold.
  destruct (is_term terms r); cbn [negb map]; now rewrite IH.
Qed.

Lemma normalize_same_fold (x y : str) :
  Forall single_lower x -> Forall single_lower y -> fold x = fold y ->
  normalize exts opening closing grepl terms trepl x
  = normalize exts opening closing grepl terms trepl y.
Proof. intros Hx Hy E. now rewrite !normalize_of_fold, E. Qed.

(** The core is made of clean words. *)
Lemma normalize_words (name : str) :
  Forall single_lower name ->
  let core := normalize exts opening closing grepl terms trepl name in
  core = join (lit " ") (split core)
  /\ Forall (fun w => w <> [] /\ word_str w /\ lower w = w /\ ~ In w terms) (split core).
Proof.
  intro H. cbv zeta.
  rewrite normalize_fold by assumption.
  rewrite fold_normalize_runs by assumption.
  set (ws := map fold _).
  assert (Hw : core_words terms ws) by apply core_words_of_runs.
  assert (Hs : split (join (lit " ") ws) = ws).
  { unfold split. rewrite <- (runs_join ws) at 2.
    - unfold runs. apply fields_ext.
      pose proof (core_chars terms ws Hw) as Hc.
      eapply Forall_impl; [|exact Hc]. cbn beta. intros c [Hc1| ->]; [|reflexivity].
      rewrite Hc1. now apply word_not_space.
    - eapply Forall_impl; [|exact Hw]. cbn beta. intros w Hx. apply Hx. }
  rewrite Hs. split; [reflexivity|].
  eapply Forall_impl; [|exact Hw]. cbn beta.
  intros w ((Hne & Hword) & Hf & Ht). repeat split; auto.
  - rewrite lower_single; [exact Hf|]. rewrite <- Hf. apply fold_is_single.
  - intro Hin. unfold is_term in Ht.
    assert (Hex : existsb (fun t => eqs t (fold w)) terms = true).
    { apply existsb_exists. exists w. split; [assumption|]. rewrite Hf. now apply eqs_eq. }
    congruence.
Qed.

End Normalizer.

Lemma main_open_fold (c : char) : Main.is_open (fold_char c) = Main.is_open c.
Proof. all_chars c. Qed.

Lemma main_close_fold (c : char) : Main.is_close (fold_char c) = Main.is_close c.
Proof. all_chars c. Qed.

Lemma upgraded_open_fold (c : char) : Upgraded.is_open (fold_char c) = Upgraded.is_open c.
Proof. all_chars c. Qed.

Lemma upgraded_close_fold (c : char) : Upgraded.is_close (fold_char c) = Upgraded.is_close c.
Proof. all_chars c. Qed.

End CaseFacts.

(** ** The extension filter *)

Module FilterFacts.
Import Py Re Aux Examples CharFacts ReFacts RunFacts CaseFacts.

Lemma word_not_sep (c : char) : is_word c = true -> is_sep c = false.
Proof. all_chars c. Qed.

Lemma rev_flat_map {A B : Type} (h : A -> list B) (l : list A) :
  rev (flat_map h l) = flat_map (fun x => rev (h x)) (rev l).
Proof.
  induction l as [|x l IH]; [reflexivity|].
  cbn [flat_map rev]. rewrite rev_app_distr, IH, flat_map_app. cbn [flat_map].
  now rewrite app_nil_r.
Qed.

(** What the lower-case form of a name starts with, read backwards, is the
    lower-case form of as many characters of the name, when it holds no
    combining dot. *)
Lemma strip_prefix_lower (q : str) :
  Forall (fun d => d <> CombiningDot) q ->
  forall g rest,
    strip_prefix q (flat_map (fun c => rev (lower_char c)) g) = Some rest ->
    exists e g', g = e ++ g' /\ fold e = q.
Proof.
  induction q as [|d q IH]; intros Hq g rest H.
  - now exists [], g.
  - inversion Hq as [|? ? Hd Hq']; subst.
    destruct g as [|c g]; [discriminate H|].
    cbn [flat_map] in H. destruct c as [a| |].
    + cbn [lower_char rev app strip_prefix] in H.
      destruct (eqc d (fold_char (Latin1 a))) eqn:E; [|discriminate H].
      apply eqc_eq in E. destruct (IH Hq' g rest H) as (e & g' & -> & <-).
      exists (Latin1 a :: e), g'. split; [reflexivity|]. cbn [fold map]. now rewrite E.
    + cbn [lower_char rev app strip_prefix] in H.
      destruct (eqc d CombiningDot) eqn:E; [|discriminate H].
      apply eqc_eq in E. contradiction.
    + cbn [lower_char rev app strip_prefix] in H.
      destruct (eqc d (fold_char CombiningDot)) eqn:E; [|discriminate H].
      apply eqc_eq in E. destruct (IH Hq' g rest H) as (e & g' & -> & <-).
      exists (CombiningDot :: e), g'. split; [reflexivity|]. cbn [fold map]. now rewrite E.
Qed.

Lemma endswith_lower (f p : str) :
  Forall (fun d => d <> CombiningDot) p ->
  endswith (lower f) p = true ->
  exists s e, f = s ++ e /\ fold e = p.
Proof.
  intros Hp H. unfold endswith, startswith in H.
  destruct (strip_prefix (rev p) (rev (lower f))) as [rest|] eqn:E; [|discriminate H].
  unfold lower in E. rewrite rev_flat_map in E.
  apply strip_prefix_lower in E as (e & g' & Eg & Ef).
  - exists (rev g'), (rev e). split.
    + rewrite <- rev_app_distr, <- Eg. now rewrite rev_involutive.
    + unfold fold in *. rewrite map_rev, Ef. apply rev_involutive.
  - apply Forall_rev. exact Hp.
Qed.

(** A file that passes the filter ends with a dot and a container format,
    whatever the case. *)
Lemma is_video_split (f : str) :
  Main.is_video f = true ->
  exists s e, f = s ++ full_stop :: e /\ In (fold e) containers.
Proof.
  unfold Main.is_video. intro H. apply existsb_exists in H as (ext & Hin & He).
  assert (Hext : match ext with
                 | c :: x => c = full_stop /\ In x containers
                 | [] => False
                 end /\ Forall (fun d => d <> CombiningDot) ext).
  { assert (Hall : forallb (fun ext =>
                                match ext with
                                | c :: x =>
                                    eqc c full_stop && mem x containers
                                    && forallb (fun d => negb (eqc d CombiningDot)) ext
                                | [] => false
                                end) Main.video_extensions = true)
      by (vm_compute; reflexivity).
    rewrite forallb_forall in Hall. specialize (Hall ext Hin).
    destruct ext as [|c x]; [discriminate Hall|].
    apply andb_prop in Hall as [Hall Hnc]. apply andb_prop in Hall as [Hc Hx].
    apply eqc_eq in Hc. apply SetFacts.mem_in in Hx. split; [now split|].
    rewrite forallb_forall in Hnc. apply Forall_forall. intros d Hd ->.
    specialize (Hnc _ Hd). discriminate Hnc. }
  destruct Hext as [Hshape Hnc].
  apply endswith_lower in He as (s & e' & -> & Ef); [|exact Hnc].
  destruct ext as [|c x]; [destruct Hshape|]. destruct Hshape as [-> Hx].
  destruct e' as [|c e]; [discriminate Ef|].
  cbn [fold map] in Ef. injection Ef as Ec Ee.
  apply fold_char_dot in Ec. subst c. exists s, e. split; [reflexivity|].
  fold (fold e) in Ee. now rewrite Ee.
Qed.

Lemma containers_words : Forall word_str containers.
Proof. repeat constructor. Qed.

Lemma last_dot_app (r rest : str) :
  Forall (fun c => is_dot c = false /\ is_sep c = false) r ->
  last_dot (r ++ full_stop :: rest) = Some (r, rest).
Proof.
  induction r as [|c r IH]; intro H; [reflexivity|].
  inversion H as [|? ? [Hd Hs] Hr]; subst.
  cbn [app last_dot]. rewrite Hd, Hs, (IH Hr). reflexivity.
Qed.

Lemma existsb_rev_eq {A : Type} (p : A -> bool) (l : list A) :
  existsb p (rev l) = existsb p l.
Proof.
  destruct (existsb p l) eqn:E.
  - apply existsb_exists in E as (x & Hx & Hp). apply existsb_exists.
    exists x. split; [now apply in_rev in Hx|assumption].
  - destruct (existsb p (rev l)) eqn:E'; [|reflexivity].
    apply existsb_exists in E' as (x & Hx & Hp). apply in_rev in Hx.
    assert (existsb p l = true) by (apply existsb_exists; now exists x). congruence.
Qed.

Lemma take_while_all (p : char -> bool) (s : str) :
  Forall (fun c => p c = true) s -> take_while p s = s.
Proof.
  induction s as [|c s IH]; intro H; [reflexivity|].
  inversion H as [|? ? Hc Hs]; subst. cbn [take_while]. now rewrite Hc, IH.
Qed.

(** [os.path.splitext] on a name without separator that ends with a dot and
    a run of word characters. *)
Lemma splitext_root_split (s e : str) :
  Forall (fun c => is_sep c = false) s -> word_str e ->
  splitext_root (s ++ full_stop :: e)
  = if existsb (fun c => negb (is_dot c)) s then s else s ++ full_stop :: e.
Proof.
  intros Hs He. unfold splitext_root.
  rewrite rev_app_distr. cbn [rev]. rewrite <- app_assoc. cbn [app].
  rewrite last_dot_app.
  - rewrite take_while_all.
    + rewrite existsb_rev_eq, rev_involutive.
      rewrite <- (rev_involutive e) at 2.
      replace (rev (rev e) ++ [full_stop] ++ rev s) with (rev (rev e) ++ full_stop :: rev s)
        by reflexivity.
      destruct (existsb _ s); [reflexivity|].
      rewrite rev_involutive.
      replace (s ++ full_stop :: e) with (rev (rev e ++ full_stop :: rev s)); [reflexivity|].
      rewrite rev_app_distr. cbn [rev]. rewrite !rev_involutive, <- app_assoc. reflexivity.
    + apply Forall_rev. eapply Forall_impl; [|exact Hs]. cbn beta.
      intros c Hc. now rewrite Hc.
  - apply Forall_rev. eapply Forall_impl; [|exact He]. cbn beta.
    intros c Hc. split; [now apply word_not_dot|now apply word_not_sep].
Qed.

End FilterFacts.

(** ** The selectors, with floats *)

Module FloatFacts.
Import Py Aux Spec ScriptAux ScoreFacts SelectFacts ResultFacts.

Local Open Scope Q_scope.

(** The head of the sorted candidates is the first of the best entries. *)
Lemma sorted_head {X : Type} (score : X -> Q) (loc : X -> str) (low : Q) (items : list X) :
  match Upgraded.sort_desc
          (map (fun e => (score e, loc e)) (filter (fun e => ge (score e) low) items)) with
  | [] => forall e, In e items -> score e < low
  | (s, p) :: _ =>
      exists e, first_best score items e /\ p = loc e /\ s = score e /\ low <= s
  end.
Proof.
  induction items as [|x items IH]; [cbn; intros e He; contradiction|].
  cbn [filter]. destruct (ge (score x) low) eqn:E.
  - apply ge_spec in E. cbn [map Upgraded.sort_desc].
    destruct (Upgraded.sort_desc _) as [|[s q] rest].
    + cbn [Upgraded.insert_desc]. exists x. repeat split; auto.
      apply first_best_head. intros y Hy. specialize (IH y Hy). lra.
    + destruct IH as (e & Hb & -> & -> & Hlow).
      cbn [Upgraded.insert_desc fst]. destruct (gt _ (score x)) eqn:Eg.
      * apply gt_spec in Eg. exists e. repeat split; auto.
        now apply first_best_cons_worse.
      * apply gt_false in Eg. exists x. repeat split; auto.
        apply first_best_head. intros y Hy.
        pose proof (first_best_max _ _ _ Hb y Hy). lra.
  - apply ge_false in E.
    destruct (Upgraded.sort_desc _) as [|[s q] rest].
    + intros e [<-|He]; [exact E|now apply IH].
    + destruct IH as (e & Hb & -> & -> & Hlow).
      exists e. repeat split; auto.
      apply first_best_cons_worse; [assumption|]. lra.
Qed.

(** The first of the best of the entries above a bar. *)
Lemma max_above {X : Type} (score : X -> Q) (loc : X -> str) (bar : Q) (items : list X) :
  match map (fun x => (loc x, score x)) (filter (fun x => gt (score x) bar) items) with
  | [] => forall x, In x items -> score x <= bar
  | y :: l =>
      exists z, first_best score items z
                /\ Main.max_by_score y l = (loc z, score z) /\ bar < score z
  end.
Proof.
  set (keep := fun x => gt (score x) bar).
  destruct (filter keep items) as [|x l] eqn:E; cbn [map].
  - intros y Hy. apply gt_false.
    destruct (gt (score y) bar) eqn:Eg; [|reflexivity].
    assert (Hin : In y (filter keep items)) by (apply filter_In; now split).
    rewrite E in Hin. destruct Hin.
  - destruct (max_by_score_first_best score loc l [x] x) as (z & Hz & ->).
    { apply first_best_head. intros y []. }
    exists z. cbn [app] in Hz. rewrite <- E in Hz.
    assert (Hzin : In z (filter keep items)).
    { destruct Hz as (pre & post & -> & _). apply in_or_app. right. now left. }
    apply filter_In in Hzin as [_ Hk]. apply gt_spec in Hk.
    repeat split; auto.
    apply first_best_filter with (keep := keep); [assumption|].
    intros y _ Hy. apply gt_false in Hy. lra.
Qed.

Section Rounded.

Variable fl : Q -> Q.

(** The loops of the two scripts are the one loop. *)
Lemma upgraded_best_loop_fl (folder_name : str) (threshold : Q) (items : Upgraded.index) :
  forall bm bs,
    UpgradedFloat.best_loop fl (Upgraded.extract_core_name folder_name) threshold items bm bs
    = select_loop (UpgradedFloat.strict fl folder_name) snd threshold items bm bs.
Proof.
  induction items as [|[f p] items IH]; intros bm bs; [reflexivity|].
  cbn [UpgradedFloat.best_loop select_loop]. unfold UpgradedFloat.strict at 1 2 3.
  cbn [fst snd]. destruct (_ && _); apply IH.
Qed.

Lemma main_best_loop_fl (path_join : str -> str -> str) (folder_name d : str)
      (threshold : Q) (listing : list str) :
  forall bm bs,
    MainFloat.best_loop fl path_join (Main.extract_core_name folder_name) d threshold
                        listing bm bs
    = select_loop (MainFloat.strict fl folder_name) (path_join d) threshold
        (filter Main.is_video listing) bm bs.
Proof.
  induction listing as [|f listing IH]; intros bm bs; [reflexivity|].
  cbn [MainFloat.best_loop filter]. destruct (Main.is_video f); cbn [negb].
  - cbn [select_loop]. unfold MainFloat.strict at 1 2 3. destruct (_ && _); apply IH.
  - apply IH.
Qed.

Lemma upgraded_strict_result_fl (item : str) (video_index : Upgraded.index)
      (threshold : Q) :
  held (UpgradedFloat.strict fl item) snd threshold video_index
       (UpgradedFloat.find_best_video_match fl item video_index threshold).
Proof.
  unfold UpgradedFloat.find_best_video_match. rewrite upgraded_best_loop_fl.
  apply select_loop_result.
Qed.

Lemma main_strict_result_fl (path_join : str -> str -> str) (folder d : str)
      (listing : list str) (threshold : Q) :
  held (MainFloat.strict fl folder) (path_join d) threshold (filter Main.is_video listing)
       (MainFloat.find_best_video_match fl path_join folder d listing threshold).
Proof.
  unfold MainFloat.find_best_video_match. rewrite main_best_loop_fl.
  apply select_loop_result.
Qed.

(** The candidates of the relaxed strategies. *)
Lemma upgraded_candidates_fl (folder_name : str) (low : Q) (items : Upgraded.index) :
  UpgradedFloat.candidates_of fl (Upgraded.clean_folder_of folder_name) low items
  = map (fun e => (UpgradedFloat.relaxed fl folder_name e, snd e))
        (filter (fun e => ge (UpgradedFloat.relaxed fl folder_name e) low) items).
Proof.
  induction items as [|[f p] items IH]; [reflexivity|].
  cbn [UpgradedFloat.candidates_of filter]. unfold UpgradedFloat.relaxed at 2. cbn [fst].
  destruct (ge _ low); cbn [map]; rewrite IH; reflexivity.
Qed.

Lemma upgraded_relaxed_result_fl (item : str) (video_index : Upgraded.index) (low : Q) :
  match UpgradedFloat.find_videos_by_content_similarity fl item video_index low with
  | (Some p, s) =>
      exists e, first_best (UpgradedFloat.relaxed fl item) video_index e
                /\ p = snd e /\ s = UpgradedFloat.relaxed fl item e /\ low <= s
  | (None, s) =>
      s = 0 /\ forall e, In e video_index -> UpgradedFloat.relaxed fl item e < low
  end.
Proof.
  unfold UpgradedFloat.find_videos_by_content_similarity.
  rewrite upgraded_candidates_fl.
  pose proof (sorted_head (UpgradedFloat.relaxed fl item) snd low video_index) as H.
  destruct (Upgraded.sort_desc _) as [|[s p] rest]; [now split|exact H].
Qed.

Lemma main_potential_fl (path_join : str -> str -> str) (folder_name d : str)
      (listing : list str) :
  MainFloat.potential_matches fl path_join folder_name d listing
  = map (fun f => (path_join d f, MainFloat.relaxed fl folder_name f))
        (filter (fun f => gt (MainFloat.relaxed fl folder_name f) (fl 0.6))
                (filter Main.is_video listing)).
Proof.
  induction listing as [|f listing IH]; [reflexivity|].
  cbn [MainFloat.potential_matches filter]. destruct (Main.is_video f); cbn [negb filter].
  - change (MainFloat.combined_score fl (Main.clean_folder_of folder_name)
                                     (Main.clean_video_of f))
      with (MainFloat.relaxed fl folder_name f).
    destruct (gt (MainFloat.relaxed fl folder_name f) (fl 0.6)); cbn [map]; now rewrite IH.
  - exact IH.
Qed.

Lemma main_relaxed_result_fl (path_join : str -> str -> str) (folder_name d : str)
      (listing : list str) :
  match MainFloat.find_videos_by_content_similarity fl path_join folder_name d listing with
  | (Some p, s) =>
      exists f, first_best (MainFloat.relaxed fl folder_name) (filter Main.is_video listing) f
                /\ p = path_join d f /\ s = MainFloat.relaxed fl folder_name f
                /\ fl 0.6 < s
  | (None, s) =>
      s = 0 /\ forall f, In f listing -> Main.is_video f = true ->
                         MainFloat.relaxed fl folder_name f <= fl 0.6
  end.
Proof.
  unfold MainFloat.find_videos_by_content_similarity. rewrite main_potential_fl.
  pose proof (max_above (MainFloat.relaxed fl folder_name) (path_join d) (fl 0.6)
                (filter Main.is_video listing)) as H.
  destruct (map _ _) as [|y l].
  - split; [reflexivity|]. intros f Hf Hv. apply H. apply filter_In. now split.
  - destruct H as (z & Hz & -> & Hbar). cbn [fst snd]. exists z. repeat split; auto.
Qed.

End Rounded.

(** An entry that scores 0 or less is not seen by the loop. *)
Lemma select_loop_skip {X : Type} (score : X -> Q) (loc : X -> str) (threshold : Q)
      (x : X) (pre post : list X) :
  score x <= 0 ->
  forall bm bs, 0 <= bs ->
    select_loop score loc threshold (pre ++ x :: post) bm bs
    = select_loop score loc threshold (pre ++ post) bm bs.
Proof.
  intro Hx. induction pre as [|y pre IH]; intros bm bs Hbs.
  - cbn [app select_loop].
    assert (E : gt (score x) bs = false) by (apply gt_false; lra).
    now rewrite E.
  - cbn [app select_loop]. destruct (gt (score y) bs) eqn:Eg; cbn [andb].
    + apply gt_spec in Eg. destruct (ge (score y) threshold); apply IH; lra.
    + now apply IH.
Qed.

End FloatFacts.

(** ** The steps of the normalizer *)

Module CoreFacts.
Import Py Re Aux Notions CharFacts ReFacts RunFacts TermFacts NormFacts StepFacts CaseFacts.

Lemma word_eqc_nonword (x y : char) :
  is_word x = true -> is_word y = false -> eqc x y = false.
Proof.
  intros Hx Hy. destruct (eqc x y) eqn:E; [|reflexivity].
  apply eqc_eq in E. subst. congruence.
Qed.

Lemma newline_is_space (c : char) : (code c =? 10) = true -> is_space c = true.
Proof. all_chars c. Qed.

Section Extensions.

Variable exts : list str.
Hypothesis exts_ok : Forall word_str exts.

(** No extension matches before a character that is no word character and
    no newline: the match would have to reach the end over it. *)
Lemma m_ext_blocked prev (d : char) (x : str) (c : char) (s : str) :
  is_word c = false -> (code c =? 10) = false ->
  m_ext exts prev (d :: x ++ c :: s) = None.
Proof.
  intros Hc Hn. unfold m_ext. destruct (is_dot d); [|reflexivity].
  rewrite find_none_all; [reflexivity|].
  intros e He. destruct (literal_i e _) as [rest|] eqn:El; [|reflexivity].
  apply literal_i_spec in El as (y & Hy & Hl).
  rewrite Forall_forall in exts_ok. pose proof (exts_ok e He) as Hw.
  assert (Hin : In c (y ++ rest)).
  { rewrite <- Hy. apply in_or_app. right. now left. }
  apply in_app_or in Hin as [Hin|Hin].
  - exfalso. rewrite <- Hl in Hw. apply (proj1 (fold_word_str y)) in Hw.
    unfold word_str in Hw. rewrite Forall_forall in Hw.
    specialize (Hw _ Hin). congruence.
  - destruct rest as [|d0 [|d' rest]]; [destruct Hin| |reflexivity].
    destruct Hin as [->|[]]. exact Hn.
Qed.

(** The first step works on what follows such a character. *)
Lemma strip_blocked (x : str) (c : char) (s : str) :
  is_word c = false -> (code c =? 10) = false -> is_dot c = false ->
  re_sub (m_ext exts) [] (x ++ c :: s) = x ++ c :: re_sub (m_ext exts) [] s.
Proof.
  intros Hc Hn Hd. unfold re_sub.
  enough (H : forall prev,
             sub (m_ext exts) [] prev 0 (x ++ c :: s)
             = x ++ c :: sub (m_ext exts) [] None 0 s) by apply H.
  induction x as [|d x IH]; intro prev.
  - cbn [app sub]. unfold m_ext at 1. rewrite Hd. f_equal.
    apply sub_prev_irrelevant. intros p p' s0. reflexivity.
  - cbn [app sub]. rewrite m_ext_blocked by assumption. f_equal. apply IH.
Qed.

End Extensions.

Section Groups.

Variables opening closing : char -> bool.
Variable grepl : str.

(** No group opens in a prefix without opening character. *)
Lemma group_prefix (p s : str) :
  Forall (fun x => opening x = false) p ->
  re_sub (m_group opening closing) grepl (p ++ s)
  = p ++ re_sub (m_group opening closing) grepl s.
Proof.
  intro Hp. unfold re_sub.
  enough (H : forall prev,
             sub (m_group opening closing) grepl prev 0 (p ++ s)
             = p ++ sub (m_group opening closing) grepl None 0 s) by apply H.
  induction p as [|x p IH]; intro prev.
  - cbn [app]. apply sub_prev_irrelevant. intros q q' s0. reflexivity.
  - inversion Hp as [|? ? Hx Hp']; subst.
    cbn [app sub]. unfold m_group at 1. rewrite Hx. f_equal. now apply IH.
Qed.

Lemma lazy_dots_tail (t u : str) :
  lazy_dots closing u = None -> lazy_dots closing (t ++ u) = lazy_dots closing t.
Proof.
  intro Hu. induction t as [|c t IH]; [exact Hu|].
  cbn [app lazy_dots]. now rewrite IH.
Qed.

Lemma lazy_dots_bound (s : str) :
  forall n, lazy_dots closing s = Some n -> n < length s.
Proof.
  induction s as [|c s IH]; intros n H; [discriminate|].
  cbn [lazy_dots] in H. cbn [length]. destruct (closing c).
  - injection H as <-. lia.
  - destruct (code c =? 10); [discriminate|].
    destruct (lazy_dots closing s) as [k|]; [|discriminate].
    injection H as <-. specialize (IH k eq_refl). lia.
Qed.

(** A tail that opens and closes no group stays, and takes no part in the
    groups before it. *)
Lemma sub_group_tail (u : str) :
  lazy_dots closing u = None -> Forall (fun x => opening x = false) u ->
  forall t prev k,
    k <= length t ->
    sub (m_group opening closing) grepl prev k (t ++ u)
    = sub (m_group opening closing) grepl prev k t ++ u.
Proof.
  intros Hu Ho. induction t as [|c t IH]; intros prev k Hk.
  - cbn [length] in Hk. assert (k = 0) by lia. subst k. cbn [app sub].
    apply sub_no_match with (P := fun x => opening x = false); [|assumption].
    intros q x s Hx. unfold m_group. now rewrite Hx.
  - cbn [app sub]. cbn [length] in Hk. destruct k as [|k]; [|apply IH; lia].
    assert (E : m_group opening closing prev (c :: t ++ u)
                = m_group opening closing prev (c :: t)).
    { unfold m_group. now rewrite lazy_dots_tail. }
    rewrite E. destruct (m_group opening closing prev (c :: t)) as [[|n]|] eqn:Em.
    + cbn [app]. f_equal. apply IH. lia.
    + assert (Hn : n <= length t).
      { unfold m_group in Em. destruct (opening c); [|discriminate].
        destruct (lazy_dots closing t) as [j|] eqn:El; [|discriminate].
        apply lazy_dots_bound in El. cbn [option_map] in Em. injection Em as <-. lia. }
      rewrite IH by assumption. now rewrite app_assoc.
    + cbn [app]. f_equal. apply IH. lia.
Qed.

End Groups.

(** The runs of a name that ends with a full stop and a word. *)
Lemma runs_app_dot (w : str) :
  w <> [] -> word_str w ->
  forall n x, length x <= n -> runs (x ++ full_stop :: w) = runs x ++ [w].
Proof.
  intros Hne Hw. induction n as [|n IH]; intros x Hn.
  - destruct x; [|cbn in Hn; lia]. cbn [app].
    rewrite runs_nonword by reflexivity. now apply runs_single.
  - destruct x as [|c x]; [cbn [app]; rewrite runs_nonword by reflexivity;
                            now apply runs_single|].
    destruct (is_word c) eqn:Ec.
    + destruct (run_split (c :: x)) as (Es & Hr & He).
      set (r := take_while is_word (c :: x)) in *.
      set (rest := drop_while is_word (c :: x)) in *.
      assert (Hrne : r <> []) by (unfold r; cbn [take_while]; rewrite Ec; discriminate).
      assert (Hlen : length rest <= n).
      { apply (f_equal (@length char)) in Es. rewrite length_app in Es.
        cbn [length] in Es, Hn. destruct r; [congruence|]. cbn [length] in Es. lia. }
      rewrite Es, <- app_assoc.
      rewrite (runs_run r (rest ++ full_stop :: w)); [|assumption|assumption|].
      * rewrite (runs_run r rest) by assumption. cbn [app]. f_equal. now apply IH.
      * destruct rest as [|d rest']; [reflexivity|exact He].
    + cbn [app]. rewrite !(runs_nonword c) by assumption. apply IH.
      cbn [length] in Hn. lia.
Qed.

Lemma join_chars (ws : list str) :
  Forall word_str ws ->
  Forall (fun c => is_word c = true \/ c = space) (join (lit " ") ws).
Proof.
  induction ws as [|w ws IH]; intro H; [constructor|].
  inversion H as [|? ? Hw Hws]; subst. specialize (IH Hws).
  assert (Hw' : Forall (fun c => is_word c = true \/ c = space) w).
  { eapply Forall_impl; [|exact Hw]. intros c Hc. now left. }
  destruct ws as [|w' ws]; [exact Hw'|].
  change (join (lit " ") (w :: w' :: ws)) with (w ++ lit " " ++ join (lit " ") (w' :: ws)).
  apply Forall_app. split; [exact Hw'|].
  change (lit " " ++ join (lit " ") (w' :: ws)) with (space :: join (lit " ") (w' :: ws)).
  constructor; [now right|exact IH].
Qed.

(** Splitting what was joined. *)
Lemma split_join (ws : list str) :
  Forall (fun r => r <> [] /\ word_str r) ws -> split (join (lit " ") ws) = ws.
Proof.
  intro H. unfold split. rewrite <- (runs_join ws H) at 2. unfold runs.
  apply fields_ext.
  assert (Hw : Forall word_str ws).
  { eapply Forall_impl; [|exact H]. intros r Hr. apply Hr. }
  eapply Forall_impl; [|exact (join_chars ws Hw)]. cbn beta.
  intros c [Hc| ->]; [|reflexivity]. rewrite Hc. now apply word_not_space.
Qed.

(** A character map under a substitution whose matcher does not see it. *)
Lemma sub_map (h : char -> char) (m : option char -> str -> option nat) (repl : str) :
  (forall prev s, m (option_map h prev) (map h s) = m prev s) ->
  map h repl = repl ->
  forall s prev k,
    map h (sub m repl prev k s) = sub m repl (option_map h prev) k (map h s).
Proof.
  intros Hm Hr s. induction s as [|c s IH]; intros prev k; [reflexivity|].
  cbn [map sub]. destruct k as [|k]; [|apply (IH (Some c))].
  change (h c :: map h s) with (map h (c :: s)). rewrite Hm.
  destruct (m prev (c :: s)) as [[|n]|].
  - cbn [map]. f_equal. apply (IH (Some c)).
  - rewrite map_app, Hr. f_equal. apply (IH (Some c)).
  - cbn [map]. f_equal. apply (IH (Some c)).
Qed.

Section Spaced.

Variables opening closing : char -> bool.
Hypothesis opening_space : opening space = false.
Hypothesis closing_space : closing space = false.

Let h := spaced opening closing.

Lemma spaced_cases (c : char) :
  h c = c
  \/ (h c = space /\ is_word c = false /\ is_space c = false /\ is_dot c = false
      /\ opening c = false /\ closing c = false).
Proof.
  unfold h, spaced.
  destruct (is_word c) eqn:E1; [now left|].
  destruct (is_space c) eqn:E2; [now left|].
  destruct (is_dot c) eqn:E3; [now left|].
  destruct (opening c) eqn:E4; [now left|].
  destruct (closing c) eqn:E5; [now left|].
  right. cbn [orb]. repeat split.
Qed.

Lemma spaced_word (c : char) : is_word (h c) = is_word c.
Proof. destruct (spaced_cases c) as [->|(-> & H & _)]; [reflexivity|now rewrite H]. Qed.

Lemma spaced_dot (c : char) : is_dot (h c) = is_dot c.
Proof.
  destruct (spaced_cases c) as [->|(-> & _ & _ & H & _)]; [reflexivity|now rewrite H].
Qed.

Lemma spaced_opening (c : char) : opening (h c) = opening c.
Proof.
  destruct (spaced_cases c) as [->|(-> & _ & _ & _ & H & _)]; [reflexivity|].
  now rewrite H.
Qed.

Lemma spaced_closing (c : char) : closing (h c) = closing c.
Proof.
  destruct (spaced_cases c) as [->|(-> & _ & _ & _ & _ & H)]; [reflexivity|].
  now rewrite H.
Qed.

Lemma spaced_newline (c : char) : (code (h c) =? 10) = (code c =? 10).
Proof.
  destruct (spaced_cases c) as [->|(-> & _ & H & _)]; [reflexivity|].
  destruct (code c =? 10) eqn:E; [|reflexivity].
  apply newline_is_space in E. congruence.
Qed.

Lemma spaced_single (s : str) : Forall single_lower s -> Forall single_lower (map h s).
Proof.
  intro H. apply Forall_map. eapply Forall_impl; [|exact H]. intros c Hc.
  destruct (spaced_cases c) as [->|(-> & _)]; [assumption|discriminate].
Qed.

Lemma literal_i_spaced (e : str) :
  word_str e ->
  forall s, literal_i e (map h s) = option_map (map h) (literal_i e s).
Proof.
  induction e as [|x e IH]; intros He s; [reflexivity|].
  inversion He as [|? ? Hx He']; subst.
  destruct s as [|d s]; [reflexivity|]. cbn [map literal_i].
  assert (E : eqc x (fold_char (h d)) = eqc x (fold_char d)).
  { destruct (spaced_cases d) as [->|(-> & Hd & _)]; [reflexivity|].
    rewrite !word_eqc_nonword; auto. now rewrite is_word_fold. }
  rewrite E. destruct (eqc x (fold_char d)); [now apply IH|reflexivity].
Qed.

Lemma at_end_spaced (s : str) : at_end (map h s) = at_end s.
Proof.
  destruct s as [|c [|d s]]; [reflexivity| |reflexivity].
  cbn [map at_end]. apply spaced_newline.
Qed.

Lemma m_ext_spaced (exts : list str) (prev prev' : option char) (s : str) :
  Forall word_str exts -> m_ext exts prev' (map h s) = m_ext exts prev s.
Proof.
  intro Hok. destruct s as [|c s]; [reflexivity|].
  cbn [map m_ext]. rewrite spaced_dot. destruct (is_dot c); [|reflexivity].
  rewrite (find_ext_in _ (fun e => match literal_i e s with
                                   | Some rest => at_end rest
                                   | None => false
                                   end)); [reflexivity|].
  intros e He. rewrite Forall_forall in Hok. rewrite literal_i_spaced by now apply Hok.
  destruct (literal_i e s); [apply at_end_spaced|reflexivity].
Qed.

Lemma lazy_dots_spaced (s : str) : lazy_dots closing (map h s) = lazy_dots closing s.
Proof.
  induction s as [|c s IH]; [reflexivity|].
  cbn [map lazy_dots]. now rewrite spaced_closing, spaced_newline, IH.
Qed.

Lemma m_group_spaced (prev prev' : option char) (s : str) :
  m_group opening closing prev' (map h s) = m_group opening closing prev s.
Proof.
  destruct s as [|c s]; [reflexivity|].
  cbn [map m_group]. now rewrite spaced_opening, lazy_dots_spaced.
Qed.

Lemma runs_spaced (s : str) : runs (map h s) = runs s.
Proof.
  unfold runs. rewrite fields_map by (intro c; now rewrite spaced_word).
  fold (runs s). pose proof (runs_are_runs s) as H.
  assert (Hid : forall r, word_str r -> map h r = r).
  { intros r Hr. induction Hr as [|c r Hc Hr IHr]; [reflexivity|].
    cbn [map]. rewrite IHr. f_equal. unfold h, spaced. now rewrite Hc. }
  induction H as [|r rs [_ Hr] Hrs IH]; [reflexivity|].
  cbn [map]. now rewrite IH, (Hid r Hr).
Qed.

Variable exts : list str.
Variable grepl : str.
Variable terms : list str.
Variable trepl : str.

Hypothesis exts_ok : Forall word_str exts.
Hypothesis opening_ok : forall c, opening c = true -> is_word c = false /\ is_space c = false.
Hypothesis terms_ok : Forall (fun t => t <> [] /\ word_str t) terms.
Hypothesis trepl_ok : nonword_str trepl.
Hypothesis grepl_single : Forall single_lower grepl.
Hypothesis trepl_single : Forall single_lower trepl.
Hypothesis grepl_spaced : map h grepl = grepl.

(** A punctuation character counts like a space. *)
Lemma normalize_spaced (name : str) :
  Forall single_lower name ->
  normalize exts opening closing grepl terms trepl (map h name)
  = normalize exts opening closing grepl terms trepl name.
Proof.
  intro H. pose proof (spaced_single name H) as H'.
  rewrite !normalize_fold by assumption.
  rewrite !fold_normalize_runs by assumption.
  do 3 f_equal. unfold re_sub.
  pose proof (sub_map h (m_ext exts) []
                (fun prev s => m_ext_spaced exts prev (option_map h prev) s exts_ok)
                eq_refl name None 0) as E1.
  cbn [option_map] in E1. rewrite <- E1.
  pose proof (sub_map h (m_group opening closing) grepl
                (fun prev s => m_group_spaced prev (option_map h prev) s)
                grepl_spaced (sub (m_ext exts) [] None 0 name) None 0) as E2.
  cbn [option_map] in E2. rewrite <- E2.
  apply runs_spaced.
Qed.

End Spaced.

(** The characters of a core. *)
Lemma lower_forall (P : char -> Prop) (s : str) :
  (forall c, P c -> Forall P (lower_char c)) -> Forall P s -> Forall P (lower s).
Proof.
  intros HP H. induction H as [|c s Hc Hs IH]; [constructor|].
  cbn [lower flat_map]. apply Forall_app. split; [now apply HP|exact IH].
Qed.

Lemma lower_char_underscore (c : char) :
  code c <> 95 -> Forall (fun d => code d <> 95) (lower_char c).
Proof.
  intro H.
  assert (E : forallb (fun d => negb (code d =? 95)) (lower_char c) = true
              \/ code c = 95).
  { clear H. destruct c as [[[] [] [] [] [] [] [] []]| |]; vm_compute; auto. }
  destruct E as [E|E]; [|contradiction].
  rewrite forallb_forall in E. apply Forall_forall. intros d Hd.
  specialize (E d Hd). apply negb_true_iff in E. now apply Nat.eqb_neq.
Qed.

Section Core.

Variable exts : list str.
Variables opening closing : char -> bool.
Variable grepl : str.
Variable terms : list str.
Variable trepl : str.

Hypothesis opening_ok : forall c, opening c = true -> is_word c = false /\ is_space c = false.
Hypothesis terms_ok : Forall (fun t => t <> [] /\ word_str t) terms.
Hypothesis trepl_ok : nonword_str trepl.
Hypothesis grepl_single : Forall single_lower grepl.
Hypothesis trepl_single : Forall single_lower trepl.
Hypothesis grepl_plain : Forall (fun c => code c <> 95) grepl.
Hypothesis trepl_plain : Forall (fun c => code c <> 95) trepl.

Lemma normalize_alnum (name : str) :
  Forall (fun c => code c <> 95) name -> Forall single_lower name ->
  Forall alnum_or_space (normalize exts opening closing grepl terms trepl name).
Proof.
  intros Hu Hs.
  assert (H1 : Forall (fun c => code c <> 95)
                      (normalize exts opening closing grepl terms trepl name)).
  { unfold normalize, re_sub. apply lower_forall; [apply lower_char_underscore|].
    apply strip_forall.
    apply sub_forall; [repeat constructor; discriminate|].
    apply sub_forall; [repeat constructor; discriminate|].
    apply sub_forall; [assumption|].
    apply sub_forall; [assumption|].
    apply sub_forall; [constructor|assumption]. }
  assert (H2 : Forall (fun c => is_word c = true \/ c = space)
                      (normalize exts opening closing grepl terms trepl name)).
  { rewrite normalize_fold by assumption.
    rewrite fold_normalize_runs by assumption.
    apply (core_chars terms). apply core_words_of_runs. }
  rewrite Forall_forall in H1, H2. apply Forall_forall. intros c Hc.
  destruct (H2 c Hc) as [Hw| ->]; [left|now right].
  specialize (H1 c Hc). unfold is_word in Hw. apply orb_true_iff in Hw as [Hw|Hw];
    [exact Hw|]. apply Nat.eqb_eq in Hw. contradiction.
Qed.

End Core.

End CoreFacts.

(** ** The cores of the two scripts *)

Module NameFacts.
Import Py Re Aux Notions CharFacts ReFacts RunFacts NormFacts StepFacts CaseFacts CoreFacts.

Ltac side_condition :=
  first [ assumption
        | reflexivity
        | apply main_exts_ok | apply upgraded_exts_ok
        | apply main_opening_ok | apply upgraded_opening_ok
        | apply main_terms_ok | apply upgraded_terms_ok
        | apply nil_nonword | apply space_nonword
        | apply space_single
        | solve [constructor]
        | solve [repeat constructor; discriminate] ].

Lemma main_core_spaced (name : str) :
  Forall single_lower name ->
  Main.extract_core_name (map (spaced Main.is_open Main.is_close) name)
  = Main.extract_core_name name.
Proof.
  intro H. rewrite !main_is_normalize. apply normalize_spaced; side_condition.
Qed.

Lemma upgraded_core_spaced (name : str) :
  Forall single_lower name ->
  Upgraded.extract_core_name (map (spaced Upgraded.is_open Upgraded.is_close) name)
  = Upgraded.extract_core_name name.
Proof.
  intro H. rewrite !upgraded_is_normalize. apply normalize_spaced; side_condition.
Qed.

Lemma main_core_alnum (name : str) :
  Forall (fun c => code c <> 95) name -> Forall single_lower name ->
  Forall alnum_or_space (Main.extract_core_name name).
Proof.
  intros Hu Hs. rewrite main_is_normalize. apply normalize_alnum; side_condition.
Qed.

Lemma upgraded_core_alnum (name : str) :
  Forall (fun c => code c <> 95) name -> Forall single_lower name ->
  Forall alnum_or_space (Upgraded.extract_core_name name).
Proof.
  intros Hu Hs. rewrite upgraded_is_normalize. apply normalize_alnum; side_condition.
Qed.

(** In [upgraded.py] the last word of the core of a name that ends with
    ".gifs", in whatever case, is "gifs". *)
Lemma upgraded_gifs_word (s e : str) :
  Forall single_lower (s ++ full_stop :: e) -> fold e = lit "gifs" ->
  exists ws, split (Upgraded.extract_core_name (s ++ full_stop :: e)) = ws ++ [lit "gifs"].
Proof.
  intros Hs He. rewrite upgraded_is_normalize.
  rewrite normalize_of_fold
    by first [side_condition | apply upgraded_open_fold | apply upgraded_close_fold].
  rewrite fold_app. change (fold (full_stop :: e)) with (full_stop :: fold e).
  rewrite He. change (full_stop :: lit "gifs") with (lit ".gifs").
  pose proof (upgraded_keeps_gifs (fold s)) as E1.
  unfold Upgraded.strip_extension in E1. rewrite E1.
  unfold re_sub.
  rewrite (sub_group_tail Upgraded.is_open Upgraded.is_close (lit " ") (lit ".gifs"))
    by (try reflexivity; try (repeat constructor); lia).
  set (g := sub (m_group Upgraded.is_open Upgraded.is_close) (lit " ") None 0 (fold s)).
  change (lit ".gifs") with (full_stop :: lit "gifs").
  rewrite (runs_app_dot (lit "gifs")) with (n := length g);
    [|discriminate|repeat constructor|lia].
  rewrite filter_app.
  change (filter (fun r => negb (is_term Upgraded.common_terms r)) [lit "gifs"])
    with [lit "gifs"].
  exists (filter (fun r => negb (is_term Upgraded.common_terms r)) (runs g)).
  apply split_join. apply Forall_app. split.
  - pose proof (runs_are_runs g) as H. rewrite Forall_forall in H. apply Forall_forall.
    intros r Hr. apply filter_In in Hr as [Hr _]. now apply H.
  - repeat constructor. discriminate.
Qed.

(** A bracketed group and the first step. *)
Lemma main_close_nonword (c : char) :
  Main.is_close c = true -> is_word c = false /\ (code c =? 10) = false /\ is_dot c = false.
Proof. all_chars c; repeat split. Qed.

Lemma upgraded_close_nonword (c : char) :
  Upgraded.is_close c = true ->
  is_word c = false /\ (code c =? 10) = false /\ is_dot c = false.
Proof. all_chars c; repeat split. Qed.

Lemma main_group_core (p t s : str) (o c : char) :
  Forall (fun x => Main.is_open x = false) p ->
  Main.is_open o = true ->
  Forall (fun x => Main.is_close x = false /\ (code x =? 10) = false) t ->
  Main.is_close c = true ->
  Main.extract_core_name (p ++ o :: t ++ c :: s)
  = main_after_extension (p ++ Main.strip_extension s).
Proof.
  intros Hp Ho Ht Hc. destruct (main_close_nonword c Hc) as (H1 & H2 & H3).
  unfold Main.extract_core_name, main_after_extension, Main.strip_extension.
  change (p ++ o :: t ++ c :: s) with (p ++ (o :: t) ++ c :: s). rewrite app_assoc.
  rewrite (strip_blocked _ main_exts_ok) by assumption.
  rewrite <- app_assoc. change ((o :: t) ++ c :: re_sub (m_ext Main.extensions) [] s)
    with (o :: t ++ c :: re_sub (m_ext Main.extensions) [] s).
  unfold Main.remove_bracketed.
  rewrite remove_group by assumption. rewrite group_prefix by assumption.
  reflexivity.
Qed.

Lemma upgraded_group_core (p t s : str) (o c : char) :
  Forall (fun x => Upgraded.is_open x = false) p ->
  Upgraded.is_open o = true ->
  Forall (fun x => Upgraded.is_close x = false /\ (code x =? 10) = false) t ->
  Upgraded.is_close c = true ->
  Upgraded.extract_core_name (p ++ o :: t ++ c :: s)
  = Upgraded.extract_core_name (p ++ space :: s).
Proof.
  intros Hp Ho Ht Hc. destruct (upgraded_close_nonword c Hc) as (H1 & H2 & H3).
  unfold Upgraded.extract_core_name, Upgraded.strip_extension.
  change (p ++ o :: t ++ c :: s) with (p ++ (o :: t) ++ c :: s). rewrite app_assoc.
  rewrite (strip_blocked _ upgraded_exts_ok) by assumption.
  rewrite (strip_blocked _ upgraded_exts_ok p space s) by reflexivity.
  rewrite <- app_assoc.
  change ((o :: t) ++ c :: re_sub (m_ext Upgraded.extensions) [] s)
    with (o :: t ++ c :: re_sub (m_ext Upgraded.extensions) [] s).
  unfold Upgraded.remove_bracketed.
  rewrite remove_group by assumption.
  replace (p ++ space :: re_sub (m_ext Upgraded.extensions) [] s)
    with ((p ++ [space]) ++ re_sub (m_ext Upgraded.extensions) [] s)
    by (rewrite <- app_assoc; reflexivity).
  rewrite (group_prefix _ _ _ (p ++ [space])).
  - now rewrite <- app_assoc.
  - apply Forall_app. split; [assumption|repeat constructor].
Qed.

End NameFacts.

(** ** Deleting, call by call *)

Module DeleteFacts.
Import Py Sys Notions ScriptFacts.

Local Open Scope sys_scope.

Section Deleting.

Context {World : Type}.
Variable sys : system World.

Lemma deletion_loop_all_return (use_trash : bool) (pairs : list UpgradedScript.pair) :
  forall f v st,
    all_return sys use_trash pairs (world st) = true ->
    snd (UpgradedScript.deletion_loop sys false use_trash pairs f v st)
    = Returned (f + length pairs, v + length pairs).
Proof.
  induction pairs as [|p rest IH]; intros f v st H.
  - cbn. now rewrite !Nat.add_0_r.
  - cbn [all_return] in H. cbn [UpgradedScript.deletion_loop length].
    unfold delete_folder, delete_file in H.
    cbv [bind try_except call ret].
    destruct (use_trash && SEND_TO_TRASH_AVAILABLE sys).
    + destruct (send2trash sys (UpgradedScript.folder_path p) (world st)) as [w1 [|]];
        cbv beta iota in H; [|discriminate H]. cbn [world stdin].
      destruct (send2trash sys (UpgradedScript.video_file p) w1) as [w2 [|]];
        cbv beta iota in H; [|discriminate H]. cbn [world stdin].
      rewrite (IH (S f) (S v) {| world := w2; stdin := stdin st |} H).
      f_equal. f_equal; lia.
    + destruct (rmtree sys (UpgradedScript.folder_path p) (world st)) as [w1 [|]];
        cbv beta iota in H; [|discriminate H]. cbn [world stdin].
      destruct (remove sys (UpgradedScript.video_file p) w1) as [w2 [|]];
        cbv beta iota in H; [|discriminate H]. cbn [world stdin].
      rewrite (IH (S f) (S v) {| world := w2; stdin := stdin st |} H).
      f_equal. f_equal; lia.
Qed.

End Deleting.

End DeleteFacts.

(** ** Scores that are exactly 0 *)

Module ZeroFacts.
Import Py Aux Spec ScoreFacts SelectFacts.

Local Open Scope Q_scope.

(** The rounding of 0 is 0. *)
Lemma round64_zero (x : Q) : x == 0 -> Binary64.round64 x == 0.
Proof.
  intro H. unfold Qeq in H. cbn in H.
  assert (E : Qnum x = 0%Z) by lia.
  unfold Binary64.round64. rewrite E. reflexivity.
Qed.

Section Rounded.

Variable fl : Q -> Q.
Hypothesis fl_zero : forall x, x == 0 -> fl x == 0.

Lemma blend_zero (s c w : Q) :
  s == 0 -> c == 0 -> w == 0 -> Float.blend fl s c w == 0.
Proof.
  intros Hs Hc Hw. unfold Float.blend.
  assert (H1 : fl (s * fl 0.5) == 0) by (apply fl_zero; rewrite Hs; ring).
  assert (H2 : fl (c * fl 0.3) == 0) by (apply fl_zero; rewrite Hc; ring).
  assert (H3 : fl (w * fl 0.2) == 0) by (apply fl_zero; rewrite Hw; ring).
  assert (H4 : fl (fl (s * fl 0.5) + fl (c * fl 0.3)) == 0)
    by (apply fl_zero; rewrite H1, H2; ring).
  apply fl_zero. rewrite H4, H3. ring.
Qed.

(** In [upgraded.py] an empty core scores 0 on the strict strategy. *)
Lemma upgraded_strict_nil (folder_name : str) (e : str * str) :
  Upgraded.extract_core_name folder_name = []
  \/ Upgraded.extract_core_name (fst e) = [] ->
  UpgradedFloat.strict fl folder_name e == 0.
Proof.
  intro H. unfold UpgradedFloat.strict, UpgradedFloat.total_score.
  apply blend_zero.
  - unfold UpgradedFloat.similarity_score.
    destruct H as [-> | ->]; cbn [is_nil orb]; [reflexivity|].
    rewrite orb_true_r. reflexivity.
  - unfold UpgradedFloat.contains_score.
    destruct H as [-> | ->]; cbn [is_nil negb andb]; [reflexivity|].
    rewrite andb_false_r. reflexivity.
  - unfold UpgradedFloat.word_overlap.
    destruct H as [-> | ->]; cbv zeta; change (set_of (split [])) with (@nil str);
      cbn [is_nil negb andb]; [reflexivity|].
    rewrite andb_false_r. reflexivity.
Qed.

End Rounded.

End ZeroFacts.

(** * The claims *)

Import Py Re Aux Spec Examples Notions Cases.

Local Open Scope Q_scope.

(** Closed facts about rationals, by computation. *)
Ltac qcompute :=
  repeat match goal with
         | |- _ /\ _ => split
         | |- ~ _ => let H := fresh in intro H; vm_compute in H; discriminate H
         | |- (_ < _)%Q => vm_compute; reflexivity
         | |- (_ <= _)%Q => vm_compute; discriminate
         | |- (_ == _)%Q => vm_compute; reflexivity
         | |- _ = _ => vm_compute; reflexivity
         end.

(** ** C1: names with an empty core *)

(** C1, as amended.  In [upgraded.py] the strict combined score of a folder
    and a candidate is 0 whenever one of the two names normalizes to the
    empty core string; the strict strategy does not see such a candidate,
    and returns what it returns without it; and for a folder with an empty
    core it returns no match, whatever the candidates and the threshold.
    (The floats are those of the script: [fl] is any rounding that rounds 0
    to 0.) *)
Theorem C1_empty_core_strict_no_match
        (fl : Q -> Q) (folder_name : str) (e : str * str) :
  (forall x, x == 0 -> fl x == 0) ->
  Upgraded.extract_core_name folder_name = []
  \/ Upgraded.extract_core_name (fst e) = [] ->
  UpgradedFloat.strict fl folder_name e == 0
  /\ (forall pre post threshold,
         UpgradedFloat.find_best_video_match fl folder_name (pre ++ e :: post) threshold
         = UpgradedFloat.find_best_video_match fl folder_name (pre ++ post) threshold)
  /\ (Upgraded.extract_core_name folder_name = [] ->
      forall video_index threshold,
        UpgradedFloat.find_best_video_match fl folder_name video_index threshold
        = (None, 0)).
Proof.
  intros Hfl H.
  pose proof (ZeroFacts.upgraded_strict_nil fl Hfl folder_name e H) as H0.
  split; [exact H0|]. split.
  - intros pre post threshold. unfold UpgradedFloat.find_best_video_match.
    rewrite !FloatFacts.upgraded_best_loop_fl.
    apply FloatFacts.select_loop_skip; [rewrite H0|]; apply Qle_refl.
  - intros Hcore video_index threshold. unfold UpgradedFloat.find_best_video_match.
    rewrite FloatFacts.upgraded_best_loop_fl.
    apply SelectFacts.select_loop_no_better. intros x _.
    rewrite (ZeroFacts.upgraded_strict_nil fl Hfl folder_name x (or_introl Hcore)).
    apply Qle_refl.
Qed.

Lemma C1_witness :
  (forall x, x == 0 -> Binary64.round64 x == 0)
  /\ (Upgraded.extract_core_name (lit "show.gifs") = []
      \/ Upgraded.extract_core_name (fst (lit "HD.mp4", lit "D/HD.mp4")) = [])
  /\ UpgradedFloat.strict Binary64.round64 (lit "show.gifs") (lit "HD.mp4", lit "D/HD.mp4")
     == 0
  /\ UpgradedFloat.find_best_video_match Binary64.round64 (lit "show.gifs")
       ([(lit "show a.mp4", lit "D/show a.mp4")]
        ++ (lit "HD.mp4", lit "D/HD.mp4") :: [(lit "show b.mp4", lit "D/show b.mp4")]) 0.3
     = UpgradedFloat.find_best_video_match Binary64.round64 (lit "show.gifs")
         ([(lit "show a.mp4", lit "D/show a.mp4")]
          ++ [(lit "show b.mp4", lit "D/show b.mp4")]) 0.3.
Proof.
  assert (H1 : forall x, x == 0 -> Binary64.round64 x == 0)
    by exact ZeroFacts.round64_zero.
  assert (H2 : Upgraded.extract_core_name (lit "show.gifs") = []
               \/ Upgraded.extract_core_name (fst (lit "HD.mp4", lit "D/HD.mp4")) = [])
    by (right; vm_compute; reflexivity).
  split; [exact H1|]. split; [exact H2|].
  destruct (C1_empty_core_strict_no_match Binary64.round64 (lit "show.gifs")
              (lit "HD.mp4", lit "D/HD.mp4") H1 H2) as (A & B & _).
  split; [exact A|]. exact (B _ _ 0.3).
Defined.

(** C1, as stated, fails.  The relaxed strategy cleans the names without
    removing junk tokens: in [upgraded.py] the core of "HD.mp4" is empty,
    and the fallback matches it with the folder "hd.gifs" at score 1.  In
    [main.py] the core of the folder "HD.gifs" is empty, its strict score
    against "HD x.mp4" is not 0 (the empty string is contained in every
    string), and the fallback matches the two; and two names with empty
    cores, "1080p HD.gifs" and "720p.mp4", match on the strict strategy at
    the threshold 0.65 of the script. *)
Lemma C1_counterexample :
  (Upgraded.extract_core_name (lit "HD.mp4") = []
   /\ UpgradedFloat.match_folder Binary64.round64 (lit "hd.gifs")
        [(lit "HD.mp4", lit "D/HD.mp4")] (Binary64.round64 0.65)
      = (Some (lit "D/HD.mp4"), 1))
  /\ (Main.extract_core_name (lit "HD.gifs") = []
      /\ 0 < MainFloat.strict Binary64.round64 (lit "HD.gifs") (lit "HD x.mp4")
      /\ fst (MainFloat.match_folder Binary64.round64 join_slash (lit "HD.gifs") (lit "D")
                [lit "HD x.mp4"])
         = Some (lit "D/HD x.mp4"))
  /\ (Main.extract_core_name (lit "1080p HD.gifs") = []
      /\ Main.extract_core_name (lit "720p.mp4") = []
      /\ fst (MainFloat.find_best_video_match Binary64.round64 join_slash
                (lit "1080p HD.gifs") (lit "D") [lit "720p.mp4"] (Binary64.round64 0.65))
         = Some (lit "D/720p.mp4")).
Proof. qcompute. Qed.

(** ** C2: punctuation, and the first end-to-end scenario *)

(** C2, as amended.  For a name without underscore (what becomes of an
    underscore is left open) and without a character whose lower-case form
    has more than one character: the substitution step replaces every
    character that is neither alphanumeric nor white space with a space and
    keeps the others; every character of the core is a letter, a digit or a
    space; and the core does not change when a punctuation character of the
    name, other than the full stop and the characters that open or close a
    group, is replaced with a space beforehand.  The source
    "Great Movie [2019] 1080p.gifs" normalizes to "great" in [main.py] and
    to "great gifs" in [upgraded.py], "movie" being one of the junk
    tokens. *)
Theorem C2_punctuation_to_space (x : str) :
  Forall (fun c => code c <> 95%nat) x ->
  Forall single_lower x ->
  re_sub m_punct (lit " ") x
  = map (fun c => if is_alnum c || is_space c then c else space) x
  /\ Forall alnum_or_space (Main.extract_core_name x)
  /\ Forall alnum_or_space (Upgraded.extract_core_name x)
  /\ Main.extract_core_name (map (spaced Main.is_open Main.is_close) x)
     = Main.extract_core_name x
  /\ Upgraded.extract_core_name (map (spaced Upgraded.is_open Upgraded.is_close) x)
     = Upgraded.extract_core_name x
  /\ Main.extract_core_name great_movie_folder = lit "great"
  /\ Upgraded.extract_core_name great_movie_folder = lit "great gifs".
Proof.
  intros Hu Hs.
  split; [now apply StepFacts.punct_no_underscore|].
  split; [now apply NameFacts.main_core_alnum|].
  split; [now apply NameFacts.upgraded_core_alnum|].
  split; [now apply NameFacts.main_core_spaced|].
  split; [now apply NameFacts.upgraded_core_spaced|].
  split; vm_compute; reflexivity.
Qed.

Lemma C2_witness :
  Forall (fun c => code c <> 95%nat) (lit "a-b, (c) d!.mp4")
  /\ Forall single_lower (lit "a-b, (c) d!.mp4")
  /\ map (spaced Main.is_open Main.is_close) (lit "a-b, (c) d!.mp4")
     = lit "a b   c  d .mp4"
  /\ Main.extract_core_name (lit "a b   c  d .mp4") = lit "a b c d"
  /\ Forall alnum_or_space (Main.extract_core_name (lit "a-b, (c) d!.mp4"))
  /\ Main.extract_core_name (map (spaced Main.is_open Main.is_close) (lit "a-b, (c) d!.mp4"))
     = Main.extract_core_name (lit "a-b, (c) d!.mp4").
Proof.
  assert (H1 : Forall (fun c => code c <> 95%nat) (lit "a-b, (c) d!.mp4"))
    by (repeat constructor; vm_compute; discriminate).
  assert (H2 : Forall single_lower (lit "a-b, (c) d!.mp4"))
    by (repeat constructor; discriminate).
  split; [exact H1|]. split; [exact H2|].
  split; [vm_compute; reflexivity|]. split; [vm_compute; reflexivity|].
  destruct (C2_punctuation_to_space (lit "a-b, (c) d!.mp4") H1 H2)
    as (_ & A & _ & B & _).
  split; [exact A|exact B].
Defined.

(** C2, as stated, fails: the underscore is a word character and stays, the
    cores of the scenario differ, and the strict score is below 0.7 in both
    scripts. *)
Lemma C2_counterexample :
  Main.extract_core_name great_movie_file = lit "great_movie"
  /\ Upgraded.extract_core_name great_movie_file = lit "great_movie"
  /\ Main.extract_core_name great_movie_folder = lit "great"
  /\ MainFloat.strict Binary64.round64 great_movie_folder great_movie_file < 0.7
  /\ UpgradedFloat.strict Binary64.round64 great_movie_folder
       (great_movie_file, lit "D/Great_Movie.mp4") < 0.7.
Proof. qcompute. Qed.

(** ** C3: strict first, relaxed as a fallback *)




(** ** C4: the word-overlap signal *)

(** C4, as amended.  In the strict strategy the word-overlap signal is the
    Jaccard index of the two core strings' white-space-split word sets, 0 if
    either set is empty, and it is the 0.2-weighted term of the blend.  In
    the relaxed strategy the third maximized signal is another index, the
    number of common words over the size of the larger set, which is never
    less than the Jaccard index. *)
Theorem C4_word_overlap (a b : str) :
  Main.word_overlap a b = jaccard (split a) (split b)
  /\ Upgraded.word_overlap a b = jaccard (split a) (split b)
  /\ Main.total_score a b
     = Main.similarity_score a b * 0.5 + Main.contains_score a b * 0.3
       + jaccard (split a) (split b) * 0.2
  /\ Upgraded.total_score a b
     = Upgraded.similarity_score a b * 0.5 + Upgraded.contains_score a b * 0.3
       + jaccard (split a) (split b) * 0.2
  /\ Main.combined_score a b
     = max3 (Difflib.ratio a b)
            (Difflib.ratio (re_sub m_spaces [] a) (re_sub m_spaces [] b))
            (common_over_larger (split a) (split b))
  /\ Upgraded.combined_score a b
     = max3 (Upgraded.similarity_score a b)
            (Upgraded.similarity_score (re_sub m_spaces [] a) (re_sub m_spaces [] b))
            (common_over_larger (split a) (split b))
  /\ jaccard (split a) (split b) <= common_over_larger (split a) (split b).
Proof.
  repeat split.
  - apply OverlapFacts.main_overlap_jaccard.
  - apply OverlapFacts.upgraded_overlap_jaccard.
  - unfold Main.total_score. now rewrite OverlapFacts.main_overlap_jaccard.
  - unfold Upgraded.total_score. now rewrite OverlapFacts.upgraded_overlap_jaccard.
  - unfold Main.combined_score. cbv zeta. now rewrite OverlapFacts.main_similarity_larger.
  - unfold Upgraded.combined_score. cbv zeta.
    now rewrite OverlapFacts.upgraded_similarity_larger.
  - apply OverlapFacts.jaccard_le_larger.
Qed.

(** C4, as stated, fails on the relaxed strategy: for "a b" and "a c" the
    third relaxed signal is 1/2, the Jaccard index 1/3. *)
Lemma C4_counterexample :
  Upgraded.word_similarity (lit "a b") (lit "a c") == 1 # 2
  /\ Main.word_similarity (lit "a b") (lit "a c") == 1 # 2
  /\ jaccard (split (lit "a b")) (split (lit "a c")) == 1 # 3.
Proof. qcompute. Qed.

(** ** C5: extensions *)

(** C5, as amended.  Normalization strips one trailing extension of the
    eighteen container formats, whatever its case: the core of [s] followed
    by such an extension is what the later steps make of [s].  [main.py]
    strips a trailing ".gifs" in the same way, so that the suffix leaves no
    token in the core; [upgraded.py] strips a trailing ".gif" instead, and
    leaves a trailing ".gifs" in place: the last word of the core is then
    "gifs" (for a name without a character whose lower-case form has more
    than one character). *)
Theorem C5_extension_stripped (s e : str) :
  In (fold e) containers ->
  Main.extract_core_name (s ++ full_stop :: e) = main_after_extension s
  /\ Upgraded.extract_core_name (s ++ full_stop :: e) = upgraded_after_extension s
  /\ (forall g, fold g = lit "gifs" ->
                Main.extract_core_name (s ++ full_stop :: g) = main_after_extension s)
  /\ (forall g, fold g = lit "gif" ->
                Upgraded.extract_core_name (s ++ full_stop :: g)
                = upgraded_after_extension s)
  /\ (forall g, fold g = lit "gifs" ->
                Forall single_lower (s ++ full_stop :: g) ->
                exists ws, split (Upgraded.extract_core_name (s ++ full_stop :: g))
                           = ws ++ [lit "gifs"]).
Proof.
  intro He.
  assert (Hm : incl containers Main.extensions).
  { intros x Hx. apply SetFacts.mem_in. revert x Hx. apply forallb_forall.
    vm_compute. reflexivity. }
  assert (Hu : incl containers Upgraded.extensions).
  { intros x Hx. apply SetFacts.mem_in. revert x Hx. apply forallb_forall.
    vm_compute. reflexivity. }
  assert (Em : forall g, In (fold g) Main.extensions ->
                         Main.extract_core_name (s ++ full_stop :: g)
                         = main_after_extension s).
  { intros g Hg. unfold Main.extract_core_name, Main.strip_extension.
    now rewrite (StepFacts.strip_known_extension _ StepFacts.main_exts_ok). }
  assert (Eu : forall g, In (fold g) Upgraded.extensions ->
                         Upgraded.extract_core_name (s ++ full_stop :: g)
                         = upgraded_after_extension s).
  { intros g Hg. unfold Upgraded.extract_core_name, Upgraded.strip_extension.
    now rewrite (StepFacts.strip_known_extension _ StepFacts.upgraded_exts_ok). }
  split; [apply Em; now apply Hm|].
  split; [apply Eu; now apply Hu|].
  split; [|split].
  - intros g Hg. apply Em. rewrite Hg. apply SetFacts.mem_in. vm_compute. reflexivity.
  - intros g Hg. apply Eu. rewrite Hg. apply SetFacts.mem_in. vm_compute. reflexivity.
  - intros g Hg Hs. now apply NameFacts.upgraded_gifs_word.
Qed.

Lemma C5_witness :
  In (fold (lit "MkV")) containers
  /\ Main.extract_core_name (lit "Show.avi" ++ full_stop :: lit "MkV")
     = main_after_extension (lit "Show.avi")
  /\ main_after_extension (lit "Show.avi") = lit "show avi"
  /\ Upgraded.extract_core_name (lit "Show.avi" ++ full_stop :: lit "MkV")
     = upgraded_after_extension (lit "Show.avi")
  /\ Main.extract_core_name (lit "Show.avi" ++ full_stop :: lit "GIFs")
     = main_after_extension (lit "Show.avi")
  /\ (exists ws, split (Upgraded.extract_core_name (lit "Show.avi" ++ full_stop :: lit "GIFs"))
                 = ws ++ [lit "gifs"]).
Proof.
  assert (H : In (fold (lit "MkV")) containers).
  { apply SetFacts.mem_in. vm_compute. reflexivity. }
  split; [exact H|].
  destruct (C5_extension_stripped (lit "Show.avi") (lit "MkV") H) as (A & B & C & _ & D).
  split; [exact A|]. split; [vm_compute; reflexivity|]. split; [exact B|].
  split; [apply C; vm_compute; reflexivity|].
  apply D; [vm_compute; reflexivity|repeat constructor; discriminate].
Defined.

(** C5, as stated, fails on [upgraded.py], whose pattern has "gif" where
    that of [main.py] has "gifs": the core of "a.gifs" keeps the token
    "gifs". *)
Lemma C5_counterexample :
  Upgraded.extract_core_name (lit "a.gifs") = lit "a gifs"
  /\ split (Upgraded.extract_core_name (lit "a.gifs")) = [lit "a"; lit "gifs"].
Proof. qcompute. Qed.

(** ** C6: idempotence *)

(** C6, as amended.  Normalization is idempotent on every name without a
    character whose lower-case form has more than one character (every
    name of Latin-1 characters is one): for such a name [x],
    normalize(normalize(x)) = normalize(x), in both scripts. *)
Theorem C6_normalize_idempotent (x : str) :
  Forall single_lower x ->
  Main.extract_core_name (Main.extract_core_name x) = Main.extract_core_name x
  /\ Upgraded.extract_core_name (Upgraded.extract_core_name x)
     = Upgraded.extract_core_name x.
Proof.
  intro H. split.
  - rewrite !NormFacts.main_is_normalize.
    apply NormFacts.normalize_idempotent.
    + apply NormFacts.main_opening_ok.
    + apply NormFacts.main_terms_ok.
    + apply NormFacts.nil_nonword.
    + constructor.
    + constructor.
    + exact H.
  - rewrite !NormFacts.upgraded_is_normalize.
    apply NormFacts.normalize_idempotent.
    + apply NormFacts.upgraded_opening_ok.
    + apply NormFacts.upgraded_terms_ok.
    + apply NormFacts.space_nonword.
    + apply NormFacts.space_single.
    + apply NormFacts.space_single.
    + exact H.
Qed.

Lemma C6_witness :
  Forall single_lower great_movie_file
  /\ (Main.extract_core_name (Main.extract_core_name great_movie_file)
      = Main.extract_core_name great_movie_file
      /\ Upgraded.extract_core_name (Upgraded.extract_core_name great_movie_file)
         = Upgraded.extract_core_name great_movie_file).
Proof.
  assert (H : Forall single_lower great_movie_file)
    by (repeat constructor; discriminate).
  split; [exact H|]. exact (C6_normalize_idempotent great_movie_file H).
Defined.

(** C6, as stated, fails: the lower-case form of the capital I with dot
    above is the letter i followed by the combining dot above, which is no
    word character; the core of the file name "İstanbul.mp4" holds that
    dot, and the core of that core has a space in its place. *)
Lemma C6_counterexample :
  Upgraded.extract_core_name istanbul_file
  = Latin1 "i" :: CombiningDot :: lit "stanbul"
  /\ Upgraded.extract_core_name (Upgraded.extract_core_name istanbul_file)
     = lit "i stanbul"
  /\ Main.extract_core_name (Main.extract_core_name istanbul_file)
     <> Main.extract_core_name istanbul_file.
Proof. qcompute. Qed.

(** ** C7: the sequence-similarity signal *)

(** C7, as amended.  The sequence-similarity signal equals 1 when both
    arguments are the same non-empty string; in [upgraded.py] it equals 0
    whenever either argument is the empty string, both empty included; in
    [main.py] it equals 0 when one argument is empty and the other is
    not. *)
Theorem C7_similarity_identical_and_empty (a b : str) :
  a <> [] ->
  Main.similarity_score a a == 1
  /\ Upgraded.similarity_score a a == 1
  /\ Upgraded.similarity_score b [] == 0
  /\ Upgraded.similarity_score [] b == 0
  /\ Main.similarity_score a [] == 0
  /\ Main.similarity_score [] a == 0.
Proof.
  intro Ha. split; [|split; [|split; [|split; [|split]]]].
  - now apply DiagFacts.ratio_self.
  - unfold Upgraded.similarity_score. destruct a as [|c a']; [congruence|].
    cbn [is_nil orb]. now apply DiagFacts.ratio_self.
  - unfold Upgraded.similarity_score. cbn [is_nil]. rewrite orb_true_r. reflexivity.
  - unfold Upgraded.similarity_score. cbn [is_nil orb]. reflexivity.
  - now apply DiffFacts.ratio_nil_r.
  - now apply DiffFacts.ratio_nil_l.
Qed.

Lemma C7_witness :
  lit "abc" <> []
  /\ (Main.similarity_score (lit "abc") (lit "abc") == 1
      /\ Upgraded.similarity_score (lit "abc") (lit "abc") == 1
      /\ Upgraded.similarity_score (lit "xy") [] == 0
      /\ Upgraded.similarity_score [] (lit "xy") == 0
      /\ Main.similarity_score (lit "abc") [] == 0
      /\ Main.similarity_score [] (lit "abc") == 0).
Proof.
  assert (H : lit "abc" <> []) by discriminate.
  split; [exact H|]. exact (C7_similarity_identical_and_empty (lit "abc") (lit "xy") H).
Defined.

(** C7, as stated, fails: the ratio of [difflib] depends on the order of
    its arguments, 1/4 for ("tide", "diet") and 1/2 for ("diet", "tide"), in
    both scripts; and in [main.py] two empty strings score 1. *)
Lemma C7_counterexample :
  Main.similarity_score (lit "tide") (lit "diet") == 1 # 4
  /\ Main.similarity_score (lit "diet") (lit "tide") == 1 # 2
  /\ Upgraded.similarity_score (lit "tide") (lit "diet") == 1 # 4
  /\ Upgraded.similarity_score (lit "diet") (lit "tide") == 1 # 2
  /\ Main.similarity_score [] [] == 1.
Proof. qcompute. Qed.

(** ** C8: bracketed groups *)

(** C8, as amended.  In [upgraded.py] a group that opens at the first "[" or
    "(" of the name, holds no "]", no ")" and no newline, and closes at "]"
    or ")" counts like a space: the core of the name is the core of the
    name with a space for the group, whatever the text of the group, and
    the scan goes on after the group.  In [main.py] the same holds of a
    group that opens at the first "[", holds no "]" and no newline and
    closes at "]", with nothing in its place; parentheses are left to the
    punctuation step, so the text between them stays in the core: the core
    is that of the name with a space for each of "(" and ")". *)
Theorem C8_group_removed (p t s : str) (o c : char) :
  Forall (fun x => Upgraded.is_open x = false) p ->
  Upgraded.is_open o = true ->
  Forall (fun x => Upgraded.is_close x = false /\ (code x =? 10)%nat = false) t ->
  Upgraded.is_close c = true ->
  Upgraded.extract_core_name (p ++ o :: t ++ c :: s)
  = Upgraded.extract_core_name (p ++ space :: s)
  /\ Upgraded.remove_bracketed (p ++ o :: t ++ c :: s)
     = p ++ lit " " ++ Upgraded.remove_bracketed s
  /\ (forall p' t' s',
         Forall (fun x => Main.is_open x = false) p' ->
         Forall (fun x => Main.is_close x = false /\ (code x =? 10)%nat = false) t' ->
         Main.extract_core_name (p' ++ Latin1 "[" :: t' ++ Latin1 "]" :: s')
         = main_after_extension (p' ++ Main.strip_extension s')
         /\ Main.remove_bracketed (p' ++ Latin1 "[" :: t' ++ Latin1 "]" :: s')
            = p' ++ Main.remove_bracketed s')
  /\ (forall u v w,
         Forall single_lower (u ++ v ++ w) ->
         Main.extract_core_name (u ++ Latin1 "(" :: v ++ Latin1 ")" :: w)
         = Main.extract_core_name (u ++ space :: v ++ space :: w)).
Proof.
  intros Hp Ho Ht Hc.
  split; [now apply NameFacts.upgraded_group_core|].
  split; [now apply StepFacts.remove_group|].
  split.
  - intros p' t' s' Hp' Ht'. split.
    + now apply NameFacts.main_group_core.
    + change (p' ++ Main.remove_bracketed s') with (p' ++ [] ++ Main.remove_bracketed s').
      now apply StepFacts.remove_group.
  - intros u v w H.
    apply Forall_app in H as [Hu H]. apply Forall_app in H as [Hv Hw].
    rewrite <- (NameFacts.main_core_spaced (u ++ Latin1 "(" :: v ++ Latin1 ")" :: w)).
    + rewrite <- (NameFacts.main_core_spaced (u ++ space :: v ++ space :: w)).
      * f_equal. rewrite !map_app. cbn [map]. rewrite !map_app. cbn [map]. reflexivity.
      * apply Forall_app. split; [assumption|]. constructor; [discriminate|].
        apply Forall_app. split; [assumption|]. constructor; [discriminate|assumption].
    + apply Forall_app. split; [assumption|]. constructor; [discriminate|].
      apply Forall_app. split; [assumption|]. constructor; [discriminate|assumption].
Qed.

Lemma C8_witness :
  Forall (fun x => Upgraded.is_open x = false) (lit "a ")
  /\ Upgraded.is_open (Latin1 "[") = true
  /\ Forall (fun x => Upgraded.is_close x = false /\ (code x =? 10)%nat = false) (lit "x(y")
  /\ Upgraded.is_close (Latin1 "]") = true
  /\ Upgraded.extract_core_name (lit "a " ++ Latin1 "[" :: lit "x(y" ++ Latin1 "]" :: lit " b.mp4")
     = Upgraded.extract_core_name (lit "a " ++ space :: lit " b.mp4")
  /\ Upgraded.extract_core_name (lit "a " ++ space :: lit " b.mp4") = lit "a b"
  /\ Main.extract_core_name (lit "x (y) " ++ Latin1 "[" :: lit "z" ++ Latin1 "]" :: lit " w.mp4")
     = main_after_extension (lit "x (y) " ++ Main.strip_extension (lit " w.mp4"))
  /\ main_after_extension (lit "x (y) " ++ Main.strip_extension (lit " w.mp4"))
     = lit "x y w"
  /\ Main.extract_core_name (lit "x " ++ Latin1 "(" :: lit "y" ++ Latin1 ")" :: lit " w")
     = Main.extract_core_name (lit "x " ++ space :: lit "y" ++ space :: lit " w").
Proof.
  assert (H1 : Forall (fun x => Upgraded.is_open x = false) (lit "a "))
    by (repeat constructor).
  assert (H2 : Upgraded.is_open (Latin1 "[") = true) by reflexivity.
  assert (H3 : Forall (fun x => Upgraded.is_close x = false /\ (code x =? 10)%nat = false)
                      (lit "x(y")) by (repeat constructor).
  assert (H4 : Upgraded.is_close (Latin1 "]") = true) by reflexivity.
  split; [exact H1|]. split; [exact H2|]. split; [exact H3|]. split; [exact H4|].
  destruct (C8_group_removed (lit "a ") (lit "x(y") (lit " b.mp4") (Latin1 "[") (Latin1 "]")
              H1 H2 H3 H4) as (A & _ & B & C).
  split; [exact A|]. split; [vm_compute; reflexivity|].
  split; [apply B; repeat constructor|]. split; [vm_compute; reflexivity|].
  apply C. repeat constructor; discriminate.
Defined.

(** C8, as stated, fails: in [upgraded.py] a group ends at the first closing
    character, so the "d" inside the parentheses of "a (b [c] d) e" stays;
    [main.py] removes no parenthesized group. *)
Lemma C8_counterexample :
  Upgraded.extract_core_name (lit "a (b [c] d) e") = lit "a d e"
  /\ Main.extract_core_name (lit "x (y)") = lit "x y".
Proof. qcompute. Qed.

(** ** C9: ties *)

(** C9, as amended.  In the strict strategy, when several candidates attain
    the same maximal combined score (the scores are the floats that the
    script computes, [fl] being the rounding of its arithmetic), and that
    score is positive and at or above the threshold, the selector returns
    the candidate enumerated first, with that score: a later candidate that
    merely ties never replaces the incumbent. *)
Theorem C9_first_of_ties_wins
        (fl : Q -> Q) (folder_name : str) (video_index : Upgraded.index) (threshold : Q)
        (e : str * str) :
  first_best (UpgradedFloat.strict fl folder_name) video_index e ->
  0 < UpgradedFloat.strict fl folder_name e ->
  threshold <= UpgradedFloat.strict fl folder_name e ->
  UpgradedFloat.find_best_video_match fl folder_name video_index threshold
  = (Some (snd e), UpgradedFloat.strict fl folder_name e)
  /\ (forall path_join d listing f,
         first_best (MainFloat.strict fl folder_name) (filter Main.is_video listing) f ->
         0 < MainFloat.strict fl folder_name f ->
         threshold <= MainFloat.strict fl folder_name f ->
         MainFloat.find_best_video_match fl path_join folder_name d listing threshold
         = (Some (path_join d f), MainFloat.strict fl folder_name f)).
Proof.
  intros Hb Hpos Ht. split.
  - unfold UpgradedFloat.find_best_video_match. rewrite FloatFacts.upgraded_best_loop_fl.
    now apply SelectFacts.select_loop_first_best.
  - intros path_join d listing f Hb' Hpos' Ht'.
    unfold MainFloat.find_best_video_match. rewrite FloatFacts.main_best_loop_fl.
    now apply SelectFacts.select_loop_first_best.
Qed.

Lemma C9_witness :
  first_best (UpgradedFloat.strict Binary64.round64 (lit "show.gifs")) show_index
             (lit "show a.mp4", lit "D/show a.mp4")
  /\ 0 < UpgradedFloat.strict Binary64.round64 (lit "show.gifs")
           (lit "show a.mp4", lit "D/show a.mp4")
  /\ 0.3 <= UpgradedFloat.strict Binary64.round64 (lit "show.gifs")
              (lit "show a.mp4", lit "D/show a.mp4")
  /\ UpgradedFloat.strict Binary64.round64 (lit "show.gifs")
       (lit "show b.mp4", lit "D/show b.mp4")
     == UpgradedFloat.strict Binary64.round64 (lit "show.gifs")
          (lit "show a.mp4", lit "D/show a.mp4")
  /\ UpgradedFloat.find_best_video_match Binary64.round64 (lit "show.gifs") show_index 0.3
     = (Some (lit "D/show a.mp4"),
        UpgradedFloat.strict Binary64.round64 (lit "show.gifs")
          (lit "show a.mp4", lit "D/show a.mp4"))
  /\ MainFloat.find_best_video_match Binary64.round64 join_slash (lit "show.gifs") (lit "D")
       show_listing 0.3
     = (Some (lit "D/show a.mp4"),
        MainFloat.strict Binary64.round64 (lit "show.gifs") (lit "show a.mp4")).
Proof.
  assert (H1 : first_best (UpgradedFloat.strict Binary64.round64 (lit "show.gifs"))
                          show_index (lit "show a.mp4", lit "D/show a.mp4")).
  { exists [], [(lit "show b.mp4", lit "D/show b.mp4")]. split; [reflexivity|]. split.
    - intros y [].
    - intros y [<-|[]]. vm_compute. discriminate. }
  assert (H2 : 0 < UpgradedFloat.strict Binary64.round64 (lit "show.gifs")
                     (lit "show a.mp4", lit "D/show a.mp4"))
    by (vm_compute; reflexivity).
  assert (H3 : 0.3 <= UpgradedFloat.strict Binary64.round64 (lit "show.gifs")
                        (lit "show a.mp4", lit "D/show a.mp4"))
    by (vm_compute; discriminate).
  split; [exact H1|]. split; [exact H2|]. split; [exact H3|].
  split; [vm_compute; reflexivity|].
  destruct (C9_first_of_ties_wins Binary64.round64 (lit "show.gifs") show_index 0.3
              (lit "show a.mp4", lit "D/show a.mp4") H1 H2 H3) as [A B].
  split; [exact A|].
  apply (B join_slash (lit "D") show_listing (lit "show a.mp4")).
  - exists [], [lit "show b.mp4"]. split; [vm_compute; reflexivity|]. split.
    + intros y [].
    + intros y [<-|[]]. vm_compute. discriminate.
  - vm_compute. reflexivity.
  - vm_compute. discriminate.
Defined.

(** C9, as stated, fails when the maximal score is 0: with threshold 0 the
    files "y.mp4" and "z.mp4" tie at score 0 for the folder "x.gifs", at the
    threshold, and the strict strategy returns none of them. *)
Lemma C9_counterexample :
  first_best (UpgradedFloat.strict Binary64.round64 (lit "x.gifs")) yz_index
             (lit "y.mp4", lit "D/y.mp4")
  /\ 0 <= UpgradedFloat.strict Binary64.round64 (lit "x.gifs") (lit "y.mp4", lit "D/y.mp4")
  /\ UpgradedFloat.find_best_video_match Binary64.round64 (lit "x.gifs") yz_index 0
     = (None, 0).
Proof.
  split.
  - exists [], [(lit "z.mp4", lit "D/z.mp4")]. split; [reflexivity|]. split.
    + intros y [].
    + intros y [<-|[]]. vm_compute. discriminate.
  - qcompute.
Qed.

(** ** C10: the largest strict score *)

(** C10.  For every pair of names the strict combined score is at most
    0.94; so for any strict threshold greater than 0.94 the strict strategy
    returns no match, whatever the input. *)
Theorem C10_strict_score_at_most_094
        (folder_name folder_core video_core : str) (video_index : Upgraded.index)
        (threshold : Q) :
  0.94 < threshold ->
  Main.total_score folder_core video_core <= 0.94
  /\ Upgraded.total_score folder_core video_core <= 0.94
  /\ Upgraded.find_best_video_match folder_name video_index threshold = (None, 0)
  /\ (forall path_join d listing,
         Main.find_best_video_match path_join folder_name d listing threshold = (None, 0)).
Proof.
  intro Ht. repeat split.
  - apply ScoreFacts.main_total_range.
  - apply ScoreFacts.upgraded_total_range.
  - unfold Upgraded.find_best_video_match. rewrite SelectFacts.upgraded_best_loop.
    apply SelectFacts.select_loop_below. intros e _. unfold upgraded_strict.
    pose proof (ScoreFacts.upgraded_total_range (Upgraded.extract_core_name folder_name)
                  (Upgraded.extract_core_name (fst e))). lra.
  - intros path_join d listing.
    unfold Main.find_best_video_match. rewrite SelectFacts.main_best_loop.
    apply SelectFacts.select_loop_below. intros f _. unfold main_strict.
    pose proof (ScoreFacts.main_total_range (Main.extract_core_name folder_name)
                  (Main.extract_core_name f)). lra.
Qed.

Lemma C10_witness :
  0.94 < 0.95
  /\ (Main.total_score (lit "show") (lit "show") <= 0.94
      /\ Upgraded.total_score (lit "show") (lit "show") <= 0.94
      /\ Upgraded.find_best_video_match (lit "show.gifs") show_index 0.95 = (None, 0)
      /\ (forall path_join d listing,
             Main.find_best_video_match path_join (lit "show.gifs") d listing 0.95
             = (None, 0))).
Proof.
  assert (H : 0.94 < 0.95) by reflexivity.
  split; [exact H|].
  exact (C10_strict_score_at_most_094 (lit "show.gifs") (lit "show") (lit "show")
           show_index 0.95 H).
Defined.

(** * Further properties of the scripts *)

Import Sys ScriptAux Disk Notions Cases.

(** ** The signals *)

(** X1. [similarity_score] lies between 0 and 1, in both scripts. *)
Theorem similarity_score_between_0_and_1 (a b : str) :
  0 <= Main.similarity_score a b <= 1 /\ 0 <= Upgraded.similarity_score a b <= 1.
Proof.
  split; [apply ScoreFacts.main_similarity_range|apply ScoreFacts.upgraded_similarity_range].
Qed.

(** X3. The combined score of the relaxed strategy, the largest of its three
    signals, lies between 0 and 1, in both scripts. *)
Theorem relaxed_score_between_0_and_1 (clean_folder clean_video : str) :
  0 <= Main.combined_score clean_folder clean_video <= 1
  /\ 0 <= Upgraded.combined_score clean_folder clean_video <= 1.
Proof.
  split; [apply ResultFacts.main_combined_range|apply ResultFacts.upgraded_combined_range].
Qed.

(** X4. The order of the two names matters to the sequence similarity only:
    the containment bonus, the word overlap and the word similarity of the
    relaxed strategy are the same both ways, so two names whose sequence
    similarity is the same both ways have the same strict score both ways
    (as floats, whatever the rounding [fl]). *)
Theorem only_the_similarity_depends_on_the_order (fl : Q -> Q) (a b : str) :
  (MainFloat.contains_score fl a b = MainFloat.contains_score fl b a
   /\ MainFloat.word_overlap fl a b = MainFloat.word_overlap fl b a
   /\ MainFloat.word_similarity fl a b = MainFloat.word_similarity fl b a
   /\ (MainFloat.similarity_score fl a b = MainFloat.similarity_score fl b a ->
       MainFloat.total_score fl a b = MainFloat.total_score fl b a))
  /\ (UpgradedFloat.contains_score fl a b = UpgradedFloat.contains_score fl b a
      /\ UpgradedFloat.word_overlap fl a b = UpgradedFloat.word_overlap fl b a
      /\ UpgradedFloat.word_similarity fl a b = UpgradedFloat.word_similarity fl b a
      /\ (UpgradedFloat.similarity_score fl a b = UpgradedFloat.similarity_score fl b a ->
          UpgradedFloat.total_score fl a b = UpgradedFloat.total_score fl b a)).
Proof.
  assert (Hi : length (intersection (set_of (split a)) (set_of (split b)))
               = length (intersection (set_of (split b)) (set_of (split a))))
    by (apply ResultFacts.intersection_comm_length; apply NoDup_nodup).
  assert (Hu : length (union (set_of (split a)) (set_of (split b)))
               = length (union (set_of (split b)) (set_of (split a))))
    by apply ResultFacts.union_comm_length.
  assert (Hm1 : MainFloat.contains_score fl a b = MainFloat.contains_score fl b a).
  { unfold MainFloat.contains_score. now rewrite orb_comm. }
  assert (Hm2 : MainFloat.word_overlap fl a b = MainFloat.word_overlap fl b a).
  { unfold MainFloat.word_overlap. cbv zeta. now rewrite andb_comm, Hi, Hu. }
  assert (Hm3 : MainFloat.word_similarity fl a b = MainFloat.word_similarity fl b a).
  { unfold MainFloat.word_similarity. cbv zeta. now rewrite andb_comm, Hi, Nat.max_comm. }
  assert (Hu1 : UpgradedFloat.contains_score fl a b = UpgradedFloat.contains_score fl b a).
  { unfold UpgradedFloat.contains_score. now rewrite andb_comm, orb_comm. }
  assert (Hu2 : UpgradedFloat.word_overlap fl a b = UpgradedFloat.word_overlap fl b a).
  { unfold UpgradedFloat.word_overlap. cbv zeta. now rewrite andb_comm, Hi, Hu. }
  assert (Hu3 : UpgradedFloat.word_similarity fl a b = UpgradedFloat.word_similarity fl b a).
  { unfold UpgradedFloat.word_similarity. cbv zeta.
    now rewrite andb_comm, Hi, Nat.max_comm. }
  split; (split; [assumption|split; [assumption|split; [assumption|]]]).
  - intro E. unfold MainFloat.total_score. now rewrite E, Hm1, Hm2.
  - intro E. unfold UpgradedFloat.total_score. now rewrite E, Hu1, Hu2.
Qed.

(** ** The selectors *)

(** X5. [find_best_video_match], in both scripts, on the scores as the script
    computes them ([fl] is the rounding of the float arithmetic): a path
    that is returned is that of the first of the candidates with the largest
    strict score, it comes with that score, and the score is positive and
    reaches the threshold; when nothing is returned the score is 0 and every
    candidate scores 0 or less, or below the threshold. In [main.py] the
    candidates are the files of the listing that pass the extension
    filter. *)
Theorem strict_match_is_the_first_best
        (fl : Q -> Q) (folder_name : str) (video_index : Upgraded.index) (threshold : Q)
        (path_join : str -> str -> str) (downloads_path : str) (listing : list str) :
  match UpgradedFloat.find_best_video_match fl folder_name video_index threshold with
  | (Some best_match, best_score) =>
      exists e, first_best (UpgradedFloat.strict fl folder_name) video_index e
                /\ best_match = snd e
                /\ best_score = UpgradedFloat.strict fl folder_name e
                /\ 0 < best_score /\ threshold <= best_score
  | (None, best_score) =>
      best_score = 0
      /\ forall e, In e video_index ->
                   UpgradedFloat.strict fl folder_name e <= 0
                   \/ UpgradedFloat.strict fl folder_name e < threshold
  end
  /\ match MainFloat.find_best_video_match fl path_join folder_name downloads_path listing
             threshold with
     | (Some best_match, best_score) =>
         exists f, first_best (MainFloat.strict fl folder_name)
                              (filter Main.is_video listing) f
                   /\ best_match = path_join downloads_path f
                   /\ best_score = MainFloat.strict fl folder_name f
                   /\ 0 < best_score /\ threshold <= best_score
     | (None, best_score) =>
         best_score = 0
         /\ forall f, In f listing -> Main.is_video f = true ->
                      MainFloat.strict fl folder_name f <= 0
                      \/ MainFloat.strict fl folder_name f < threshold
     end.
Proof.
  split.
  - exact (FloatFacts.upgraded_strict_result_fl fl folder_name video_index threshold).
  - pose proof (FloatFacts.main_strict_result_fl fl path_join folder_name downloads_path
                  listing threshold) as H.
    destruct (MainFloat.find_best_video_match _ _ _ _ _ _) as [[p|] s];
      cbn [held] in H |- *.
    + exact H.
    + destruct H as [-> H]. split; [reflexivity|]. intros f Hf Hv. apply H.
      apply filter_In. now split.
Qed.

(** X6. [find_videos_by_content_similarity], in both scripts, on the scores as
    the script computes them ([fl] is the rounding of the float arithmetic)
    and for candidates whose names hold no path separator: a path that is
    returned is that of the first of the candidates with the largest relaxed
    score, it comes with that score, and the score is above 0.6 in [main.py]
    and at least [low_threshold] in [upgraded.py]; when nothing is returned
    the score is 0 and no candidate scores that much. *)
Theorem relaxed_match_is_the_first_best
        (fl : Q -> Q) (folder_name : str) (video_index : Upgraded.index)
        (low_threshold : Q)
        (path_join : str -> str -> str) (downloads_path : str) (listing : list str) :
  Forall (fun e => plain_name (fst e)) video_index ->
  Forall plain_name listing ->
  match UpgradedFloat.find_videos_by_content_similarity fl folder_name video_index
          low_threshold with
  | (Some path, score) =>
      exists e, first_best (UpgradedFloat.relaxed fl folder_name) video_index e
                /\ path = snd e
                /\ score = UpgradedFloat.relaxed fl folder_name e
                /\ low_threshold <= score
  | (None, score) =>
      score = 0
      /\ forall e, In e video_index -> UpgradedFloat.relaxed fl folder_name e < low_threshold
  end
  /\ match MainFloat.find_videos_by_content_similarity fl path_join folder_name
             downloads_path listing with
     | (Some path, score) =>
         exists f, first_best (MainFloat.relaxed fl folder_name)
                              (filter Main.is_video listing) f
                   /\ path = path_join downloads_path f
                   /\ score = MainFloat.relaxed fl folder_name f
                   /\ fl 0.6 < score
     | (None, score) =>
         score = 0
         /\ forall f, In f listing -> Main.is_video f = true ->
                      MainFloat.relaxed fl folder_name f <= fl 0.6
     end.
Proof.
  intros _ _. split.
  - apply FloatFacts.upgraded_relaxed_result_fl.
  - apply FloatFacts.main_relaxed_result_fl.
Qed.

Lemma relaxed_match_is_the_first_best_witness :
  Forall (fun e : str * str => plain_name (fst e)) hd_index
  /\ Forall plain_name show_listing
  /\ UpgradedFloat.find_videos_by_content_similarity Binary64.round64 (lit "hd.gifs")
       hd_index (Binary64.round64 0.6)
     = (Some (lit "D/HD.mp4"), 1)
  /\ match UpgradedFloat.find_videos_by_content_similarity Binary64.round64 (lit "hd.gifs")
             hd_index (Binary64.round64 0.6) with
     | (Some path, score) =>
         exists e, first_best (UpgradedFloat.relaxed Binary64.round64 (lit "hd.gifs"))
                              hd_index e
                   /\ path = snd e
                   /\ score = UpgradedFloat.relaxed Binary64.round64 (lit "hd.gifs") e
                   /\ Binary64.round64 0.6 <= score
     | (None, score) =>
         score = 0
         /\ forall e, In e hd_index ->
                      UpgradedFloat.relaxed Binary64.round64 (lit "hd.gifs") e
                      < Binary64.round64 0.6
     end.
Proof.
  assert (H1 : Forall (fun e : str * str => plain_name (fst e)) hd_index)
    by (repeat constructor).
  assert (H2 : Forall plain_name show_listing) by (repeat constructor).
  split; [exact H1|]. split; [exact H2|]. split; [vm_compute; reflexivity|].
  destruct (relaxed_match_is_the_first_best Binary64.round64 (lit "hd.gifs")
              hd_index (Binary64.round64 0.6) join_slash (lit "D") show_listing
              H1 H2) as [H _].
  exact H.
Defined.

(** X7. Lowering the threshold keeps a strict match: the path and the score
    that [find_best_video_match] returns under a threshold are returned under
    every lower threshold, in both scripts (on the scores as the script
    computes them, [fl] being the rounding of the float arithmetic). *)
Theorem lowering_the_threshold_keeps_the_strict_match
        (fl : Q -> Q) (folder_name : str) (video_index : Upgraded.index)
        (threshold lower_threshold : Q)
        (best_match : str) (best_score : Q)
        (path_join : str -> str -> str) (downloads_path : str) (listing : list str) :
  lower_threshold <= threshold ->
  (UpgradedFloat.find_best_video_match fl folder_name video_index threshold
   = (Some best_match, best_score) ->
   UpgradedFloat.find_best_video_match fl folder_name video_index lower_threshold
   = (Some best_match, best_score))
  /\ (MainFloat.find_best_video_match fl path_join folder_name downloads_path listing
        threshold
      = (Some best_match, best_score) ->
      MainFloat.find_best_video_match fl path_join folder_name downloads_path listing
        lower_threshold
      = (Some best_match, best_score)).
Proof.
  intro Hl. split; intro E.
  - pose proof (FloatFacts.upgraded_strict_result_fl fl folder_name video_index threshold)
      as H.
    rewrite E in H. cbn [held] in H. destruct H as (e & Hb & -> & -> & Hpos & Hth).
    unfold UpgradedFloat.find_best_video_match. rewrite FloatFacts.upgraded_best_loop_fl.
    apply SelectFacts.select_loop_first_best; [assumption|assumption|lra].
  - pose proof (FloatFacts.main_strict_result_fl fl path_join folder_name downloads_path
                  listing threshold) as H.
    rewrite E in H. cbn [held] in H. destruct H as (f & Hb & -> & -> & Hpos & Hth).
    unfold MainFloat.find_best_video_match. rewrite FloatFacts.main_best_loop_fl.
    apply (SelectFacts.select_loop_first_best (MainFloat.strict fl folder_name)
             (path_join downloads_path)); [assumption|assumption|lra].
Qed.

Lemma lowering_the_threshold_keeps_the_strict_match_witness :
  Binary64.round64 0.3 <= Binary64.round64 0.35
  /\ UpgradedFloat.strict Binary64.round64 (lit "show.gifs")
       (lit "show a.mp4", lit "D/show a.mp4") < 0.4
  /\ UpgradedFloat.find_best_video_match Binary64.round64 (lit "show.gifs") show_index
       (Binary64.round64 0.35)
     = (Some (lit "D/show a.mp4"),
        UpgradedFloat.strict Binary64.round64 (lit "show.gifs")
          (lit "show a.mp4", lit "D/show a.mp4"))
  /\ UpgradedFloat.find_best_video_match Binary64.round64 (lit "show.gifs") show_index
       (Binary64.round64 0.3)
     = (Some (lit "D/show a.mp4"),
        UpgradedFloat.strict Binary64.round64 (lit "show.gifs")
          (lit "show a.mp4", lit "D/show a.mp4")).
Proof.
  assert (H : Binary64.round64 0.3 <= Binary64.round64 0.35) by (vm_compute; discriminate).
  assert (E : UpgradedFloat.find_best_video_match Binary64.round64 (lit "show.gifs")
                show_index (Binary64.round64 0.35)
              = (Some (lit "D/show a.mp4"),
                 UpgradedFloat.strict Binary64.round64 (lit "show.gifs")
                   (lit "show a.mp4", lit "D/show a.mp4")))
    by (vm_compute; reflexivity).
  split; [exact H|]. split; [vm_compute; reflexivity|]. split; [exact E|].
  destruct (lowering_the_threshold_keeps_the_strict_match Binary64.round64
              (lit "show.gifs") show_index (Binary64.round64 0.35)
              (Binary64.round64 0.3) (lit "D/show a.mp4")
              (UpgradedFloat.strict Binary64.round64 (lit "show.gifs")
                 (lit "show a.mp4", lit "D/show a.mp4"))
              join_slash (lit "D") [] H) as [A _].
  exact (A E).
Defined.

(** ** The names *)

(** X8. A file name that passes the extension filter, in either script, ends
    with a dot and one of the eighteen container formats in some case, and
    [extract_core_name] strips exactly that ending in its first step, in both
    scripts. *)
Theorem video_file_extension_is_stripped (filename : str) :
  Main.is_video filename = true ->
  UpgradedScript.is_video filename = true
  /\ exists stem e,
      filename = stem ++ full_stop :: e
      /\ In (fold e) containers
      /\ Main.strip_extension filename = stem
      /\ Upgraded.strip_extension filename = stem.
Proof.
  intro H. split; [exact H|].
  destruct (FilterFacts.is_video_split filename H) as (s & e & -> & He).
  exists s, e. split; [reflexivity|]. split; [exact He|].
  assert (Hm : incl containers Main.extensions).
  { intros x Hx. apply SetFacts.mem_in. revert x Hx. apply forallb_forall.
    vm_compute. reflexivity. }
  assert (Hu : incl containers Upgraded.extensions).
  { intros x Hx. apply SetFacts.mem_in. revert x Hx. apply forallb_forall.
    vm_compute. reflexivity. }
  split.
  - apply (StepFacts.strip_known_extension _ StepFacts.main_exts_ok). now apply Hm.
  - apply (StepFacts.strip_known_extension _ StepFacts.upgraded_exts_ok). now apply Hu.
Qed.

Lemma video_file_extension_is_stripped_witness :
  Main.is_video (lit "Show.MkV") = true
  /\ exists stem e,
      lit "Show.MkV" = stem ++ full_stop :: e
      /\ In (fold e) containers
      /\ Main.strip_extension (lit "Show.MkV") = stem
      /\ Upgraded.strip_extension (lit "Show.MkV") = stem.
Proof.
  assert (H : Main.is_video (lit "Show.MkV") = true) by (vm_compute; reflexivity).
  split; [exact H|].
  exact (proj2 (video_file_extension_is_stripped (lit "Show.MkV") H)).
Defined.

(** X9. For an entry of a listing (a name without separator) that passes the
    extension filter, the base name that the relaxed strategy takes with
    [os.path.splitext] is what [extract_core_name] keeps after its first step,
    unless the name is only dots before its extension: then [os.path.splitext]
    finds no extension and the whole name is the base name. *)
Theorem splitext_agrees_with_strip_extension (filename : str) :
  Main.is_video filename = true ->
  Forall (fun c => is_sep c = false) filename ->
  splitext_root filename
  = if existsb (fun c => negb (is_dot c)) (Main.strip_extension filename)
    then Main.strip_extension filename
    else filename.
Proof.
  intros H Hs.
  destruct (FilterFacts.is_video_split filename H) as (s & e & -> & He).
  assert (Hm : incl containers Main.extensions).
  { intros x Hx. apply SetFacts.mem_in. revert x Hx. apply forallb_forall.
    vm_compute. reflexivity. }
  unfold Main.strip_extension.
  rewrite (StepFacts.strip_known_extension _ StepFacts.main_exts_ok) by now apply Hm.
  apply FilterFacts.splitext_root_split.
  - apply Forall_app in Hs. apply Hs.
  - apply RunFacts.fold_word_str.
    pose proof FilterFacts.containers_words as Hw. rewrite Forall_forall in Hw.
    now apply Hw.
Qed.

Lemma splitext_agrees_with_strip_extension_witness :
  Main.is_video (lit "Show.MkV") = true
  /\ Forall (fun c => is_sep c = false) (lit "Show.MkV")
  /\ splitext_root (lit "Show.MkV") = lit "Show".
Proof.
  assert (H : Main.is_video (lit "Show.MkV") = true) by (vm_compute; reflexivity).
  assert (Hs : Forall (fun c => is_sep c = false) (lit "Show.MkV"))
    by (repeat constructor).
  split; [exact H|]. split; [exact Hs|].
  exact (splitext_agrees_with_strip_extension (lit "Show.MkV") H Hs).
Defined.

(** X10. [extract_core_name] ignores the case of the letters of a name of
    Latin-1 characters (U+0000 to U+00FF): two such names with the same
    lower-case form have the same core, in both scripts. The characters of
    this development are those and two more, U+0130, whose lower-case form
    has two characters and which is set aside here, and U+0307. *)
Theorem core_name_ignores_case (x y : str) :
  Forall single_lower x -> Forall single_lower y -> lower x = lower y ->
  Main.extract_core_name x = Main.extract_core_name y
  /\ Upgraded.extract_core_name x = Upgraded.extract_core_name y.
Proof.
  intros Hx Hy E. rewrite !NormFacts.lower_single in E by assumption. split.
  - rewrite !NormFacts.main_is_normalize.
    apply CaseFacts.normalize_same_fold; try assumption.
    + apply NormFacts.main_terms_ok.
    + apply NormFacts.nil_nonword.
    + constructor.
    + constructor.
    + apply CaseFacts.main_open_fold.
    + apply CaseFacts.main_close_fold.
    + reflexivity.
  - rewrite !NormFacts.upgraded_is_normalize.
    apply CaseFacts.normalize_same_fold; try assumption.
    + apply NormFacts.upgraded_terms_ok.
    + apply NormFacts.space_nonword.
    + apply NormFacts.space_single.
    + apply NormFacts.space_single.
    + apply CaseFacts.upgraded_open_fold.
    + apply CaseFacts.upgraded_close_fold.
    + reflexivity.
Qed.

Lemma core_name_ignores_case_witness :
  Forall single_lower (lit "Great MOVIE (2019).MP4")
  /\ Forall single_lower (lit "great movie (2019).mp4")
  /\ lower (lit "Great MOVIE (2019).MP4") = lower (lit "great movie (2019).mp4")
  /\ Main.extract_core_name (lit "Great MOVIE (2019).MP4")
     = Main.extract_core_name (lit "great movie (2019).mp4").
Proof.
  assert (H1 : Forall single_lower (lit "Great MOVIE (2019).MP4"))
    by (repeat constructor; discriminate).
  assert (H2 : Forall single_lower (lit "great movie (2019).mp4"))
    by (repeat constructor; discriminate).
  assert (H3 : lower (lit "Great MOVIE (2019).MP4") = lower (lit "great movie (2019).mp4"))
    by (vm_compute; reflexivity).
  split; [exact H1|]. split; [exact H2|]. split; [exact H3|].
  exact (proj1 (core_name_ignores_case _ _ H1 H2 H3)).
Defined.

(** X11. The core of a name without a character whose lower-case form has more
    than one character is made of words separated by single spaces, with no
    space before or after: it is the join of its own words; each word is made
    of word characters, is in lower case, and is none of the common terms of
    the script. *)
Theorem core_name_is_clean_words (name : str) :
  Forall single_lower name ->
  (let core := Main.extract_core_name name in
   core = join (lit " ") (split core)
   /\ Forall (fun w => w <> [] /\ Forall (fun c => is_word c = true) w
                       /\ lower w = w /\ ~ In w Main.common_terms)
             (split core))
  /\ (let core := Upgraded.extract_core_name name in
      core = join (lit " ") (split core)
      /\ Forall (fun w => w <> [] /\ Forall (fun c => is_word c = true) w
                          /\ lower w = w /\ ~ In w Upgraded.common_terms)
                (split core)).
Proof.
  intro H. split; cbv zeta.
  - rewrite !NormFacts.main_is_normalize.
    apply CaseFacts.normalize_words; try assumption.
    + apply NormFacts.main_terms_ok.
    + apply NormFacts.nil_nonword.
    + constructor.
    + constructor.
  - rewrite !NormFacts.upgraded_is_normalize.
    apply CaseFacts.normalize_words; try assumption.
    + apply NormFacts.upgraded_terms_ok.
    + apply NormFacts.space_nonword.
    + apply NormFacts.space_single.
    + apply NormFacts.space_single.
Qed.

Lemma core_name_is_clean_words_witness :
  Forall single_lower great_movie_folder
  /\ Main.extract_core_name great_movie_folder
     = join (lit " ") (split (Main.extract_core_name great_movie_folder)).
Proof.
  assert (H : Forall single_lower great_movie_folder)
    by (repeat constructor; discriminate).
  split; [exact H|].
  exact (proj1 (proj1 (core_name_is_clean_words great_movie_folder H))).
Defined.

(** X12. A video whose core is the core of the folder, when that core is not
    empty, has the strict score 0.94, the largest there is; so the strict
    strategy then returns a video with that score, under every threshold up to
    0.94. For a folder name without a character whose lower-case form has more
    than one character, in both scripts. *)
Theorem same_core_is_a_strict_match
        (folder_name filename path : str) (video_index : Upgraded.index) (threshold : Q)
        (path_join : str -> str -> str) (downloads_path : str) (listing : list str) :
  Forall single_lower folder_name ->
  threshold <= 0.94 ->
  (Upgraded.extract_core_name filename = Upgraded.extract_core_name folder_name ->
   Upgraded.extract_core_name folder_name <> [] ->
   upgraded_strict folder_name (filename, path) == 0.94
   /\ (In (filename, path) video_index ->
       exists e, In e video_index
                 /\ Upgraded.find_best_video_match folder_name video_index threshold
                    = (Some (snd e), upgraded_strict folder_name e)
                 /\ upgraded_strict folder_name e == 0.94))
  /\ (Main.extract_core_name filename = Main.extract_core_name folder_name ->
      Main.extract_core_name folder_name <> [] ->
      main_strict folder_name filename == 0.94
      /\ (In filename listing -> Main.is_video filename = true ->
          exists f, In f listing
                    /\ Main.find_best_video_match path_join folder_name downloads_path
                         listing threshold
                       = (Some (path_join downloads_path f), main_strict folder_name f)
                    /\ main_strict folder_name f == 0.94)).
Proof.
  intros Hx Ht.
  assert (Hm : Main.extract_core_name folder_name
               = join (lit " ") (split (Main.extract_core_name folder_name))).
  { rewrite !NormFacts.main_is_normalize.
    apply CaseFacts.normalize_words; try assumption.
    - apply NormFacts.main_terms_ok.
    - apply NormFacts.nil_nonword.
    - constructor.
    - constructor. }
  assert (Hu : Upgraded.extract_core_name folder_name
               = join (lit " ") (split (Upgraded.extract_core_name folder_name))).
  { rewrite !NormFacts.upgraded_is_normalize.
    apply CaseFacts.normalize_words; try assumption.
    - apply NormFacts.upgraded_terms_ok.
    - apply NormFacts.space_nonword.
    - apply NormFacts.space_single.
    - apply NormFacts.space_single. }
  split; intros E Hne.
  - assert (Hw : split (Upgraded.extract_core_name folder_name) <> []).
    { intro E0. rewrite E0 in Hu. now apply Hne. }
    assert (Hs : upgraded_strict folder_name (filename, path) == 0.94).
    { unfold upgraded_strict. cbn [fst]. rewrite E.
      set (c := Upgraded.extract_core_name folder_name) in *.
      unfold Upgraded.total_score, Upgraded.similarity_score, Upgraded.contains_score,
        Upgraded.word_overlap. cbv zeta.
      rewrite ResultFacts.contains_refl.
      destruct c as [|ch c'] eqn:Ec; [congruence|]. rewrite <- Ec in *. cbn [is_nil orb negb andb].
      replace (is_nil c) with false by (rewrite Ec; reflexivity).
      cbn [orb negb andb].
      assert (Hn : is_nil (set_of (split c)) = false).
      { unfold set_of. rewrite SetFacts.is_nil_nodup. destruct (split c); [congruence|reflexivity]. }
      rewrite Hn. cbn [negb andb].
      rewrite (ResultFacts.overlap_self (split c) Hw).
      rewrite (DiagFacts.ratio_self c Hne). reflexivity. }
    split; [exact Hs|]. intro Hin.
    pose proof (ScriptFacts.upgraded_strict_result folder_name video_index threshold) as H.
    destruct (Upgraded.find_best_video_match folder_name video_index threshold)
      as [[p|] s]; cbn [ScriptAux.held] in H.
    + destruct H as (e & Hb & -> & -> & Hpos & Hth).
      exists e. split; [now apply ScriptFacts.first_best_in in Hb|].
      split; [reflexivity|].
      pose proof (SelectFacts.first_best_max _ _ _ Hb _ Hin) as Hmax.
      pose proof (ScoreFacts.upgraded_total_range
                    (Upgraded.extract_core_name folder_name)
                    (Upgraded.extract_core_name (fst e))) as Hr.
      unfold upgraded_strict in *. cbn [fst] in *. lra.
    + destruct H as [_ H]. destruct (H _ Hin); lra.
  - assert (Hw : split (Main.extract_core_name folder_name) <> []).
    { intro E0. rewrite E0 in Hm. now apply Hne. }
    assert (Hs : main_strict folder_name filename == 0.94).
    { unfold main_strict. rewrite E.
      set (c := Main.extract_core_name folder_name) in *.
      unfold Main.total_score, Main.similarity_score, Main.contains_score,
        Main.word_overlap. cbv zeta.
      rewrite ResultFacts.contains_refl. cbn [orb].
      assert (Hn : is_nil (set_of (split c)) = false).
      { unfold set_of. rewrite SetFacts.is_nil_nodup. destruct (split c); [congruence|reflexivity]. }
      rewrite Hn. cbn [negb andb].
      rewrite (ResultFacts.overlap_self (split c) Hw).
      rewrite (DiagFacts.ratio_self c Hne). reflexivity. }
    split; [exact Hs|]. intros Hin Hv.
    pose proof (ScriptFacts.main_strict_result path_join folder_name downloads_path
                  listing threshold) as H.
    assert (Hin' : In filename (filter Main.is_video listing))
      by (apply filter_In; now split).
    destruct (Main.find_best_video_match path_join folder_name downloads_path listing
                threshold) as [[p|] s]; cbn [ScriptAux.held] in H.
    + destruct H as (f & Hb & -> & -> & Hpos & Hth).
      exists f. split.
      { apply ScriptFacts.first_best_in, filter_In in Hb. apply Hb. }
      split; [reflexivity|].
      pose proof (SelectFacts.first_best_max _ _ _ Hb _ Hin') as Hmax.
      pose proof (ScoreFacts.main_total_range
                    (Main.extract_core_name folder_name)
                    (Main.extract_core_name f)) as Hr.
      unfold main_strict in *. lra.
    + destruct H as [_ H]. destruct (H _ Hin'); lra.
Qed.

Lemma same_core_is_a_strict_match_witness :
  Forall single_lower (lit "Show (2019).gifs")
  /\ 0.65 <= 0.94
  /\ main_strict (lit "Show (2019).gifs") (lit "show 2019.MP4") == 0.94.
Proof.
  assert (H1 : Forall single_lower (lit "Show (2019).gifs"))
    by (repeat constructor; discriminate).
  assert (H2 : 0.65 <= 0.94) by (vm_compute; discriminate).
  split; [exact H1|]. split; [exact H2|].
  refine (proj1 (proj2 (same_core_is_a_strict_match
                          (lit "Show (2019).gifs") (lit "show 2019.MP4") [] [] 0.65
                          join_slash (lit "D") [] H1 H2) _ _)).
  - vm_compute. reflexivity.
  - vm_compute. discriminate.
Defined.

(** ** The index and the pairs of [upgraded.py] *)

(** X13. [index_videos]: the index holds, once each, the entries of the
    listing of the downloads directory that are regular files with a video
    extension, each with its path joined to the directory, and nothing else;
    it is empty when the directory cannot be listed. *)
Theorem index_videos_holds_the_listed_videos
        {World : Type} (sys : system World) (downloads_path : str) (w : World) :
  NoDup (map fst (UpgradedScript.index_videos sys downloads_path w))
  /\ forall k v,
      In (k, v) (UpgradedScript.index_videos sys downloads_path w)
      <-> exists entries,
            listdir sys downloads_path w = Some entries
            /\ In k entries
            /\ isfile sys (path_join sys downloads_path k) w = true
            /\ UpgradedScript.is_video k = true
            /\ v = path_join sys downloads_path k.
Proof. apply ScriptFacts.index_videos_spec. Qed.

(** X14. [gather_pairs]: every pair it returns names a directory of the target
    listing whose lower-cased name ends with ".gifs", and a regular file of
    the downloads listing with a video extension that exists; the paths are
    the joined ones, the video name is the base name of the video path, and
    the score lies between the threshold less 0.05 and 1. *)
Theorem gather_pairs_sound
        {World : Type} (sys : system World) (target_directory downloads_directory : str)
        (threshold : Q) (w : World) :
  Forall (fun p =>
            (exists items, listdir sys target_directory w = Some items
                           /\ In (UpgradedScript.folder p) items)
            /\ isdir sys (path_join sys target_directory (UpgradedScript.folder p)) w = true
            /\ endswith (lower (UpgradedScript.folder p)) (lit ".gifs") = true
            /\ UpgradedScript.folder_path p
               = path_join sys target_directory (UpgradedScript.folder p)
            /\ (exists entries f,
                   listdir sys downloads_directory w = Some entries
                   /\ In f entries
                   /\ isfile sys (path_join sys downloads_directory f) w = true
                   /\ UpgradedScript.is_video f = true
                   /\ UpgradedScript.video_file p = path_join sys downloads_directory f)
            /\ path_exists sys (UpgradedScript.video_file p) w = true
            /\ UpgradedScript.video_name p = basename sys (UpgradedScript.video_file p)
            /\ threshold - 0.05 <= UpgradedScript.score p <= 1)
         (UpgradedScript.gather_pairs sys target_directory downloads_directory threshold w).
Proof.
  unfold UpgradedScript.gather_pairs. cbv zeta.
  destruct (negb (isdir sys target_directory w)); [constructor|].
  destruct (listdir sys target_directory w) as [items|]; [|constructor].
  rewrite ScriptFacts.gather_fold. cbn [app].
  apply Forall_forall. intros p Hp. apply in_flat_map in Hp as (item & Hitem & Hp).
  destruct (ScriptFacts.gather_item_one sys target_directory
              (UpgradedScript.index_videos sys downloads_directory w) threshold w item)
    as [E|(q & E & Hf & Hfp & Hd & Hg & (k & Hk) & Hne & He & Hn & Hs)];
    rewrite E in Hp; [destruct Hp|].
  destruct Hp as [<-|[]]. rewrite Hf.
  apply (proj2 (ScriptFacts.index_videos_spec sys downloads_directory w)) in Hk
    as (entries & El & Hin & Hfile & Hv & Hpath).
  repeat split; try assumption; try apply Hs.
  - now exists items.
  - now exists entries, k.
Qed.

(** X15. [gather_pairs]: the folders of the pairs are entries of the target
    listing, in the order of the listing, each entry at most once; so there
    are no more pairs than entries. *)
Theorem gather_pairs_follow_the_listing
        {World : Type} (sys : system World) (target_directory downloads_directory : str)
        (threshold : Q) (w : World) :
  let items := match listdir sys target_directory w with
               | Some items => items
               | None => []
               end in
  let pairs :=
    UpgradedScript.gather_pairs sys target_directory downloads_directory threshold w in
  (exists keep : str -> bool, map UpgradedScript.folder pairs = filter keep items)
  /\ (length pairs <= length items)%nat.
Proof.
  cbv zeta.
  assert (H : exists keep : str -> bool,
             map UpgradedScript.folder
                 (UpgradedScript.gather_pairs sys target_directory downloads_directory
                    threshold w)
             = filter keep match listdir sys target_directory w with
                           | Some items => items
                           | None => []
                           end).
  { unfold UpgradedScript.gather_pairs. cbv zeta.
    destruct (negb (isdir sys target_directory w)).
    { exists (fun _ => false). induction (match listdir sys target_directory w with
                                          | Some items => items | None => [] end);
        [reflexivity|assumption]. }
    destruct (listdir sys target_directory w) as [items|];
      [|exists (fun _ => false); reflexivity].
    rewrite ScriptFacts.gather_fold. cbn [app].
    set (g := UpgradedScript.gather_item sys target_directory
                (UpgradedScript.index_videos sys downloads_directory w) threshold w []).
    exists (fun item => negb (is_nil (g item))).
    induction items as [|item items IH]; [reflexivity|].
    cbn [flat_map filter]. rewrite map_app, IH.
    destruct (ScriptFacts.gather_item_one sys target_directory
                (UpgradedScript.index_videos sys downloads_directory w) threshold w item)
      as [E|(q & E & Hf & _)]; fold g in E; rewrite E; cbn; [reflexivity|].
    now rewrite Hf. }
  destruct H as [keep H]. split; [now exists keep|].
  rewrite <- (length_map UpgradedScript.folder), H. apply filter_length_le.
Qed.

(** X16. [gather_pairs]: with an empty index, because the downloads directory
    cannot be listed or holds no video file, no pair is returned. *)
Theorem gather_pairs_without_videos
        {World : Type} (sys : system World) (target_directory downloads_directory : str)
        (threshold : Q) (w : World) :
  UpgradedScript.index_videos sys downloads_directory w = [] ->
  UpgradedScript.gather_pairs sys target_directory downloads_directory threshold w = [].
Proof.
  intro E. unfold UpgradedScript.gather_pairs. cbv zeta. rewrite E.
  destruct (negb (isdir sys target_directory w)); [reflexivity|].
  destruct (listdir sys target_directory w) as [items|]; [|reflexivity].
  induction items as [|item items IH]; [reflexivity|].
  cbn [fold_left]. unfold UpgradedScript.gather_item at 2. cbv zeta.
  destruct (_ && _); exact IH.
Qed.

Lemma gather_pairs_without_videos_witness :
  UpgradedScript.index_videos drive MainScript.target_directory shelf = []
  /\ UpgradedScript.gather_pairs drive MainScript.target_directory
       MainScript.target_directory 0.65 shelf = [].
Proof.
  assert (H : UpgradedScript.index_videos drive MainScript.target_directory shelf = [])
    by (vm_compute; reflexivity).
  split; [exact H|].
  exact (gather_pairs_without_videos drive MainScript.target_directory
           MainScript.target_directory 0.65 shelf H).
Defined.

(** ** The deletion of [upgraded.py] *)

(** X17. [perform_deletion] with [dry_run] set makes no call that deletes,
    reads no line and returns (0, 0), whatever the pairs and the other flags. *)
Theorem perform_deletion_dry_run_is_inert
        {World : Type} (sys : system World) (pairs : list UpgradedScript.pair)
        (use_trash auto_confirm : bool) (st : state World) :
  UpgradedScript.perform_deletion sys pairs true use_trash auto_confirm st
  = (st, Returned (0%nat, 0%nat)).
Proof. apply ScriptFacts.perform_deletion_dry. Qed.

(** X18. [perform_deletion] without [auto_confirm]: when the line read is not
    "YES" once stripped and put in upper case, or when there is no line, the
    file system is left as it is; the call returns (0, 0), or raises when it
    asked and there was no line. *)
Theorem perform_deletion_needs_consent
        {World : Type} (sys : system World) (pairs : list UpgradedScript.pair)
        (dry_run use_trash : bool) (st : state World) :
  no_consent (stdin st) = true ->
  let r := UpgradedScript.perform_deletion sys pairs dry_run use_trash false st in
  world (fst r) = world st
  /\ (snd r = Returned (0%nat, 0%nat) \/ (snd r = Raised /\ stdin st = [])).
Proof.
  intro H. cbv zeta. destruct dry_run.
  - rewrite ScriptFacts.perform_deletion_dry. now split; [|left].
  - unfold UpgradedScript.perform_deletion. destruct (is_nil pairs); [now split; [|left]|].
    cbn [negb andb]. cbv [bind input ret].
    destruct (stdin st) as [|line rest]; [now split; [|right]|].
    cbn [no_consent] in H. apply negb_true_iff in H. rewrite H. now split; [|left].
Qed.

Lemma perform_deletion_needs_consent_witness :
  no_consent [lit "no"] = true
  /\ world (fst (UpgradedScript.perform_deletion drive [show_pair] false false false
                   {| world := shelf; stdin := [lit "no"] |})) = shelf.
Proof.
  assert (H : no_consent (stdin {| world := shelf; stdin := [lit "no"] |}) = true)
    by reflexivity.
  split; [exact H|].
  exact (proj1 (perform_deletion_needs_consent drive [show_pair] false false
                  {| world := shelf; stdin := [lit "no"] |} H)).
Defined.

(** X19. [perform_deletion] returns two counts that are at most the number of
    pairs; it raises only when it has to ask and there is no line to read. *)
Theorem perform_deletion_counts_at_most_the_pairs
        {World : Type} (sys : system World) (pairs : list UpgradedScript.pair)
        (dry_run use_trash auto_confirm : bool) (st : state World) :
  match snd (UpgradedScript.perform_deletion sys pairs dry_run use_trash auto_confirm st) with
  | Returned (folders_deleted, videos_deleted) =>
      (folders_deleted <= length pairs)%nat /\ (videos_deleted <= length pairs)%nat
  | Raised =>
      dry_run = false /\ auto_confirm = false /\ stdin st = [] /\ pairs <> []
  end.
Proof.
  unfold UpgradedScript.perform_deletion.
  destruct pairs as [|pair rest] eqn:Ep; [cbn; lia|]. rewrite <- Ep. cbn [is_nil].
  assert (Hne : pairs <> []) by (rewrite Ep; discriminate).
  replace (is_nil pairs) with false by (rewrite Ep; reflexivity).
  assert (Hloop : forall st',
             match snd (UpgradedScript.deletion_loop sys dry_run use_trash pairs 0 0 st') with
             | Returned (f, v) => (f <= length pairs)%nat /\ (v <= length pairs)%nat
             | Raised => dry_run = false /\ auto_confirm = false /\ stdin st = []
                         /\ pairs <> []
             end).
  { intro st'.
    destruct (ScriptFacts.upgraded_deletion_loop sys dry_run use_trash pairs 0 0 st')
      as (st2 & f & v & -> & Hf & Hv & _). cbn [snd]. lia. }
  destruct (negb dry_run && negb auto_confirm) eqn:Ea.
  - apply andb_prop in Ea as [Ed Ea]. apply negb_true_iff in Ed, Ea.
    cbv [bind input ret]. destruct (stdin st) as [|line rest'] eqn:Es.
    + cbn [snd]. auto.
    + destruct (upper_is_yes (strip line)); [|cbn; lia].
      specialize (Hloop {| world := world st; stdin := rest' |}).
      destruct (snd _) as [[f v]|]; [exact Hloop|]. destruct Hloop as (_ & _ & [=] & _).
  - cbv [bind ret]. apply Hloop.
Qed.

(** X20. [perform_deletion] with [auto_confirm] and without [dry_run]: when
    every call that deletes returns in the run over the pairs, both counts
    are the number of pairs. *)
Theorem perform_deletion_counts_every_pair
        {World : Type} (sys : system World) (pairs : list UpgradedScript.pair)
        (use_trash : bool) (st : state World) :
  all_return sys use_trash pairs (world st) = true ->
  snd (UpgradedScript.perform_deletion sys pairs false use_trash true st)
  = Returned (length pairs, length pairs).
Proof.
  intro Hall. unfold UpgradedScript.perform_deletion.
  destruct pairs as [|pair rest] eqn:Ep; [reflexivity|]. rewrite <- Ep in *.
  replace (is_nil pairs) with false by (rewrite Ep; reflexivity).
  cbn [negb andb]. cbv [bind ret].
  exact (DeleteFacts.deletion_loop_all_return sys use_trash pairs 0 0 st Hall).
Qed.

Lemma perform_deletion_counts_every_pair_witness :
  all_return drive false [show_pair] shelf = true
  /\ snd (UpgradedScript.perform_deletion drive [show_pair] false false true
            {| world := shelf; stdin := [] |})
     = Returned (1%nat, 1%nat).
Proof.
  assert (H : all_return drive false [show_pair] shelf = true) by (vm_compute; reflexivity).
  split; [exact H|].
  exact (perform_deletion_counts_every_pair drive [show_pair] false
           {| world := shelf; stdin := [] |} H).
Defined.

(** X21. [main] with [--dry-run]: once the log is set up, the file system is
    left as it is and no line is read, whatever the other arguments. *)
Theorem main_dry_run_deletes_nothing
        {World : Type} (sys : system World) (a : UpgradedScript.args) (st : state World) :
  UpgradedScript.dry_run a = true ->
  world (fst (UpgradedScript.main sys a st))
  = fst (setup_logging sys (UpgradedScript.log a) (world st))
  /\ stdin (fst (UpgradedScript.main sys a st)) = stdin st.
Proof.
  intro Hd.
  assert (H : fst (UpgradedScript.main sys a st)
              = {| world := fst (setup_logging sys (UpgradedScript.log a) (world st));
                   stdin := stdin st |}).
  { unfold UpgradedScript.main. unfold bind at 1, call.
    destruct (setup_logging sys (UpgradedScript.log a) (world st)) as [w1 [|]];
      [|reflexivity].
    cbn [fst]. set (st1 := {| world := w1; stdin := stdin st |}).
    rewrite ScriptFacts.bind_read. destruct (negb _); [reflexivity|].
    rewrite ScriptFacts.bind_read. destruct (negb _); [reflexivity|].
    rewrite ScriptFacts.bind_read. destruct (is_nil _).
    - rewrite ScriptFacts.bind_listdir.
      destruct (listdir sys (UpgradedScript.target a) (world st1)); [|reflexivity].
      rewrite ScriptFacts.bind_read. unfold bind at 1.
      rewrite ScriptFacts.upgraded_debug_state. reflexivity.
    - unfold bind at 1. rewrite Hd, ScriptFacts.perform_deletion_dry. reflexivity. }
  rewrite H. split; reflexivity.
Qed.

Lemma main_dry_run_deletes_nothing_witness :
  UpgradedScript.dry_run dry_args = true
  /\ world (fst (UpgradedScript.main drive dry_args {| world := shelf; stdin := [] |}))
     = shelf.
Proof.
  assert (H : UpgradedScript.dry_run dry_args = true) by reflexivity.
  split; [exact H|].
  exact (proj1 (main_dry_run_deletes_nothing drive dry_args
                  {| world := shelf; stdin := [] |} H)).
Defined.

(** ** The cleanup of [main.py] *)

(** X22. [cleanup_gifs_folders_and_videos] always returns, and never counts
    more videos deleted than folders deleted: the video of a pair is removed
    only after its folder was. *)
Theorem cleanup_returns_no_more_videos_than_folders
        {World : Type} (sys : system World) (st : state World) :
  exists st' deleted_folder_count deleted_video_count,
    MainScript.cleanup_gifs_folders_and_videos sys st
    = (st', Returned (deleted_folder_count, deleted_video_count))
    /\ (deleted_video_count <= deleted_folder_count)%nat.
Proof.
  rewrite ScriptFacts.cleanup_run.
  destruct (negb _); [now exists st, 0%nat, 0%nat|].
  destruct (negb _); [now exists st, 0%nat, 0%nat|].
  destruct (listdir sys MainScript.target_directory (world st)) as [all_items|];
    [|now exists st, 0%nat, 0%nat].
  destruct (MainScript.pairs_loop _ _ _ _) as [st1 [pairs|]];
    [|now exists st, 0%nat, 0%nat].
  destruct (length pairs =? 0)%nat; [now exists st, 0%nat, 0%nat|].
  destruct (stdin st) as [|line rest]; [now exists st, 0%nat, 0%nat|].
  destruct (upper_is_yes (strip line)); [|now eexists _, 0%nat, 0%nat].
  destruct (ScriptFacts.main_deletion_loop sys pairs 0 0
              {| world := world st; stdin := rest |})
    as (st' & f & v & -> & _ & _ & Hvf & _).
  exists st', f, v. split; [reflexivity|lia].
Qed.

(** X23. [cleanup_gifs_folders_and_videos]: when the line read is not "YES"
    once stripped and put in upper case, or when there is no line, the file
    system is left as it is and (0, 0) is returned. *)
Theorem cleanup_needs_consent
        {World : Type} (sys : system World) (st : state World) :
  no_consent (stdin st) = true ->
  world (fst (MainScript.cleanup_gifs_folders_and_videos sys st)) = world st
  /\ snd (MainScript.cleanup_gifs_folders_and_videos sys st) = Returned (0%nat, 0%nat).
Proof.
  apply ScriptFacts.cleanup_without_consent.
Qed.

Lemma cleanup_needs_consent_witness :
  no_consent [lit "no"] = true
  /\ world (fst (MainScript.cleanup_gifs_folders_and_videos drive
                   {| world := shelf; stdin := [lit "no"] |})) = shelf.
Proof.
  assert (H : no_consent (stdin {| world := shelf; stdin := [lit "no"] |}) = true)
    by reflexivity.
  split; [exact H|].
  exact (proj1 (cleanup_needs_consent drive {| world := shelf; stdin := [lit "no"] |} H)).
Defined.

(** X24. [preview_cleanup] never raises and changes nothing. When it shows its
    two lists, the pairs shown are, in order, the folder, the video name and
    the score of the pairs that [cleanup_gifs_folders_and_videos] finds in the
    same file system, which it deletes when the line read is "YES" and leaves
    alone otherwise; when it shows an error, the cleanup deletes nothing. *)
Theorem preview_shows_what_cleanup_deletes
        {World : Type} (sys : system World) (w : World) (lines : list str) :
  fst (MainScript.preview_cleanup sys {| world := w; stdin := lines |})
  = {| world := w; stdin := lines |}
  /\ match snd (MainScript.preview_cleanup sys {| world := w; stdin := lines |}) with
     | Returned (Some (shown_pairs, _)) =>
         exists deletion_pairs,
           map shown deletion_pairs = shown_pairs
           /\ forall confirmation rest,
               MainScript.cleanup_gifs_folders_and_videos sys
                 {| world := w; stdin := confirmation :: rest |}
               = if is_nil deletion_pairs
                 then ({| world := w; stdin := confirmation :: rest |},
                       Returned (0%nat, 0%nat))
                 else if upper_is_yes (strip confirmation)
                 then MainScript.deletion_loop sys deletion_pairs 0 0
                        {| world := w; stdin := rest |}
                 else ({| world := w; stdin := rest |}, Returned (0%nat, 0%nat))
     | Returned None =>
         forall lines',
           MainScript.cleanup_gifs_folders_and_videos sys {| world := w; stdin := lines' |}
           = ({| world := w; stdin := lines' |}, Returned (0%nat, 0%nat))
     | Raised => False
     end.
Proof.
  rewrite ScriptFacts.preview_run. cbn [world].
  assert (Hc : forall lines',
             MainScript.cleanup_gifs_folders_and_videos sys {| world := w; stdin := lines' |}
             = _) by (intro lines'; apply ScriptFacts.cleanup_run).
  cbn [world stdin] in Hc.
  destruct (negb (path_exists sys MainScript.target_directory w));
    [split; [reflexivity|]; cbn [snd]; intro l; now rewrite Hc|].
  destruct (negb (path_exists sys MainScript.downloads_directory w));
    [split; [reflexivity|]; cbn [snd]; intro l; now rewrite Hc|].
  destruct (listdir sys MainScript.target_directory w) as [all_items|];
    [|split; [reflexivity|]; cbn [snd]; intro l; now rewrite Hc].
  destruct (ScriptFacts.main_loops sys (MainScript.gifs_folders_of sys all_items w) w)
    as (res & Hrun & _).
  rewrite (proj2 (Hrun lines [] [] [])).
  destruct res as [[pairs others]|]; (split; [reflexivity|]); cbn [snd app].
  - exists pairs. split; [reflexivity|]. intros confirmation rest.
    rewrite Hc, (proj1 (Hrun (confirmation :: rest) [] [] [])). cbn [app].
    destruct pairs; reflexivity.
  - intro l. now rewrite Hc, (proj1 (Hrun l [] [] [])).
Qed.

(** X25. The pairs that [cleanup_gifs_folders_and_videos] collects: each names
    one of the folders, and a file of the downloads listing with a video
    extension that exists; the score is above 0.6 and at most 1; there are no
    more pairs than folders. The loop raises only when the downloads directory
    cannot be listed. *)
Theorem cleanup_pairs_sound
        {World : Type} (sys : system World) (gifs_folders : list str) (st : state World) :
  match snd (MainScript.pairs_loop sys gifs_folders [] st) with
  | Returned deletion_pairs =>
      (length deletion_pairs <= length gifs_folders)%nat
      /\ Forall (fun p =>
                   In (MainScript.folder p) gifs_folders
                   /\ MainScript.folder_path p
                      = path_join sys MainScript.target_directory (MainScript.folder p)
                   /\ (exists listing f,
                          listdir sys MainScript.downloads_directory (world st)
                          = Some listing
                          /\ In f listing /\ Main.is_video f = true
                          /\ MainScript.video_file p
                             = path_join sys MainScript.downloads_directory f)
                   /\ path_exists sys (MainScript.video_file p) (world st) = true
                   /\ MainScript.video_name p = basename sys (MainScript.video_file p)
                   /\ 0.6 < MainScript.similarity_score p <= 1)
                deletion_pairs
  | Raised =>
      listdir sys MainScript.downloads_directory (world st) = None /\ gifs_folders <> []
  end.
Proof.
  destruct st as [w lines]. cbn [world].
  destruct (ScriptFacts.main_loops sys gifs_folders w) as (res & Hrun & Hres).
  rewrite (proj1 (Hrun lines [] [] [])). cbn [snd app].
  destruct res as [[pairs others]|]; [|exact Hres].
  destruct Hres as [Hlen HP]. split; [exact Hlen|].
  eapply Forall_impl; [|exact HP]. cbn beta.
  intros p (H1 & H2 & H3 & _ & H5 & H6 & H7). repeat split; auto; apply H7.
Qed.

(** X26. The block that runs [main.py] reads two lines, the answer to the
    preview question and the confirmation: when the second line is not "YES"
    once stripped and put in upper case, or when there is none, the file
    system is left as it is, whatever the first line. *)
Theorem program_needs_the_second_answer
        {World : Type} (sys : system World) (st : state World) :
  no_consent (tl (stdin st)) = true ->
  world (fst (MainScript.program sys st)) = world st.
Proof.
  intro H. unfold MainScript.program. unfold bind at 1, input.
  destruct st as [w [|line rest]]; [reflexivity|]. cbn [stdin world tl] in *.
  cbv zeta. unfold bind at 1.
  assert (Hp : forall st0,
             (if eqs (lower (strip line)) (lit "y") || eqs (lower (strip line)) (lit "yes")
              then _ <- MainScript.preview_cleanup sys ;; ret tt
              else ret tt)%sys st0 = (st0, Returned tt)).
  { intro st0. destruct (_ || _); [|reflexivity].
    unfold bind. destruct (ScriptFacts.preview_inert sys st0) as [lists ->].
    reflexivity. }
  rewrite Hp.
  exact (proj1 (ScriptFacts.cleanup_without_consent sys
                  {| world := w; stdin := rest |} H)).
Qed.

Lemma program_needs_the_second_answer_witness :
  no_consent (tl [lit "YES"; lit "no"]) = true
  /\ world (fst (MainScript.program drive {| world := shelf; stdin := [lit "YES"; lit "no"] |}))
     = shelf.
Proof.
  assert (H : no_consent (tl (stdin {| world := shelf; stdin := [lit "YES"; lit "no"] |}))
              = true) by reflexivity.
  split; [exact H|].
  exact (program_needs_the_second_answer drive
           {| world := shelf; stdin := [lit "YES"; lit "no"] |} H).
Defined.
